(** * PlaylistFixer: the repair and reconciliation core, embedded and verified

    The development follows the Python sources
      - [core/vendor/repair_playlist_safe_v4.py]  (normaliser, similarity,
        matching engine, per-line repair loop),
      - [core/vendor/playlist_scan_safe.py]       (index builder),
      - [core/runner.py]                          (canonical keys, status
        classification, export of the final playlist, file names, batch
        repair),
      - [ui/main_window.py]                       (recognition of exported
        playlists).

    Python [str] values are sequences of Unicode code points and are modelled
    as [list N].  The whitespace class of [str.strip] and of the regex class
    [\s] is the interpreter's [str.isspace] table and is reproduced in full.
    The case mappings [str.lower]/[str.upper] and the regex classes [\w]
    and [\d] are reproduced on the code points below 128; every other code
    point is left as it is by the case mappings, is no digit and, unless it
    is whitespace, counted as a word character.  Statements that depend on
    these tables say over which alphabet they are made. *)

From Stdlib Require Import ZArith NArith QArith_base Qreduction Lia.
From Stdlib Require Strings.String Strings.Ascii.
From Stdlib Require Numbers.DecimalString Numbers.DecimalZ Numbers.DecimalPos.
From stdpp Require Import base list gmap sets.
Import String.StringSyntax.
Delimit Scope string_scope with string.

Abbreviation str := (list N).

(** ** Python string primitives *)
Module Text.

(** An ASCII literal as a sequence of code points. *)
Definition lit (s : String.string) : str :=
  map Ascii.N_of_ascii (String.list_ascii_of_string s).
Arguments lit s%_string.

(** [str.isspace] for one code point. *)
Definition is_space (c : N) : bool :=
  ((9 <=? c) && (c <=? 13) || (28 <=? c) && (c <=? 32) ||
   (c =? 133) || (c =? 160) || (c =? 5760) ||
   (8192 <=? c) && (c <=? 8202) || (c =? 8232) || (c =? 8233) ||
   (c =? 8239) || (c =? 8287) || (c =? 12288))%N.

Definition is_upper_ascii (c : N) : bool := ((65 <=? c) && (c <=? 90))%N.
Definition is_lower_ascii (c : N) : bool := ((97 <=? c) && (c <=? 122))%N.
Definition is_digit (c : N) : bool := ((48 <=? c) && (c <=? 57))%N.

Definition lower_cp (c : N) : N := if is_upper_ascii c then (c + 32)%N else c.
Definition upper_cp (c : N) : N := if is_lower_ascii c then (c - 32)%N else c.

(** [s.lower()] and [s.upper()]. *)
Definition lower (s : str) : str := map lower_cp s.
Definition upper (s : str) : str := map upper_cp s.

(** The regex class [\w] for one code point. *)
Definition is_word (c : N) : bool :=
  if (c <? 128)%N
  then is_upper_ascii c || is_lower_ascii c || is_digit c || (c =? 95)%N
  else negb (is_space c).

Fixpoint drop_while (p : N -> bool) (s : str) : str :=
  match s with
  | [] => []
  | c :: s' => if p c then drop_while p s' else s
  end.

(** [s.lstrip()], [s.rstrip()], [s.strip()]. *)
Definition lstrip (s : str) : str := drop_while is_space s.
Definition rstrip (s : str) : str := rev (drop_while is_space (rev s)).
Definition strip (s : str) : str := rstrip (lstrip s).

(** [s.rstrip(chars)] and [s.strip(chars)] for a one-character [chars]. *)
Definition rstrip_char (ch : N) (s : str) : str :=
  rev (drop_while (N.eqb ch) (rev s)).
Definition strip_char (ch : N) (s : str) : str :=
  rstrip_char ch (drop_while (N.eqb ch) s).

Definition str_eqb (a b : str) : bool := bool_decide (a = b).

(** Truth value of a string: [bool(s)]. *)
Definition nonempty (s : str) : bool :=
  match s with [] => false | _ => true end.

(** [s.startswith(p)] and [s.endswith(p)]. *)
Fixpoint startswith (p s : str) : bool :=
  match p, s with
  | [], _ => true
  | _ :: _, [] => false
  | a :: p', b :: s' => (a =? b)%N && startswith p' s'
  end.
Definition endswith (p s : str) : bool := startswith (rev p) (rev s).

(** [k in s] for strings. *)
Fixpoint contains (k s : str) : bool :=
  startswith k s ||
  match s with
  | [] => false
  | _ :: s' => contains k s'
  end.

(** [s.replace(old, new)] for a one-character [old]. *)
Definition replace_char (old : N) (new : str) (s : str) : str :=
  concat (map (fun c => if (c =? old)%N then new else [c]) s).

(** [sep.join(parts)]. *)
Fixpoint join (sep : str) (parts : list str) : str :=
  match parts with
  | [] => []
  | [p] => p
  | p :: ps => p ++ sep ++ join sep ps
  end.

(** [str(n)] for an integer. *)
Definition str_of_Z (z : Z) : str :=
  lit (DecimalString.NilZero.string_of_int (Z.to_int z)).

(** [int(digits)] for a run of ASCII digits. *)
Definition Z_of_digits (ds : str) : Z :=
  Z.of_N (fold_left (fun acc d => (acc * 10 + (d - 48))%N) ds 0%N).

End Text.
Export Text.

(** ** [core/runner.py]: canonical keys *)
Module Keys.

(** [PurePath.stem] of a file name (the final path component): the name up to
    its last dot, unless that dot is the first or the last character. *)
Fixpoint rfind_dot (s : str) (i : nat) (acc : option nat) : option nat :=
  match s with
  | [] => acc
  | c :: s' => rfind_dot s' (S i) (if (c =? 46)%N then Some i else acc)
  end.

Definition path_stem (name : str) : str :=
  match rfind_dot name 0 None with
  | Some i => if bool_decide (0 < i < length name - 1) then take i name else name
  | None => name
  end.

Definition PREFIXES : list str :=
  [lit "__tmp_fixed_"; lit "draft_fixed_"; lit "fixed_"].
Definition SUFFIXES : list str := [lit "_selected"].

(** One round of [if stem.startswith(prefix): stem = stem[len(prefix):]]. *)
Definition cut_prefix (stem prefix : str) : str :=
  if startswith prefix stem then drop (length prefix) stem else stem.

(** One round of [if stem.endswith(suffix): stem = stem[:-len(suffix)]]. *)
Definition cut_suffix (stem suffix : str) : str :=
  if endswith suffix stem then take (length stem - length suffix) stem else stem.

(** The two stripping loops of [canonical_key], before the final [strip]. *)
Definition strip_affixes (stem : str) : str :=
  foldl cut_suffix (foldl cut_prefix stem PREFIXES) SUFFIXES.

(** [canonical_key] on [playlist_path.stem]. *)
Definition canonical_key_of_stem (stem0 : str) : str :=
  let stem := strip (strip_affixes stem0) in
  if nonempty stem then stem else stem0.

(** [TaskRunner.canonical_key], on the file name of [playlist_path]. *)
Definition canonical_key (name : str) : str :=
  canonical_key_of_stem (path_stem name).

End Keys.
Export Keys.

(** ** [repair_playlist_safe_v4.py]: normalisation and parsing *)
Module Normalizer.

(** *** Regular-expression substitutions, as left-to-right scanners

    Each scanner walks the string once.  [skip] counts the characters of a
    match that are still to be consumed, and [prev] is the character before
    the current position in the subject string (what a look-behind sees). *)

(** [_DASHES = [–—]]: en dash and em dash. *)
Definition is_dash (c : N) : bool := ((c =? 8211) || (c =? 8212))%N.
(** [_BAD_PUNCT = [·•|]]: middle dot, bullet, vertical bar. *)
Definition is_bad_punct (c : N) : bool := ((c =? 183) || (c =? 8226) || (c =? 124))%N.
Definition is_open (c : N) : bool := ((c =? 40) || (c =? 91) || (c =? 123))%N.
Definition is_close (c : N) : bool := ((c =? 41) || (c =? 93) || (c =? 125))%N.

(** [re.sub] of a one-character class by a fixed string. *)
Definition sub_class (cls : N -> bool) (new : str) (s : str) : str :=
  concat (map (fun c => if cls c then new else [c]) s).

(** Does [s] begin with [pat], ignoring ASCII case? *)
Definition startswith_nocase (pat s : str) : bool :=
  startswith pat (lower (take (length pat) s)).

(** Length of a match of [\b(feat\.|ft\.)\b] (with IGNORECASE) at the head of
    [s], where [prev] is the character before it.  The pattern begins with a
    letter, so the leading [\b] asks for a non-word character (or the start)
    before it; it ends with a dot, so the trailing [\b] asks for a word
    character right after the dot. *)
Definition feat_match (prev : option N) (s : str) : option nat :=
  let before_ok := match prev with None => true | Some p => negb (is_word p) end in
  let after_ok (n : nat) :=
    match drop n s with c :: _ => is_word c | [] => false end in
  if before_ok && startswith_nocase (lit "feat.") s && after_ok 5%nat then Some 5%nat
  else if before_ok && startswith_nocase (lit "ft.") s && after_ok 3%nat then Some 3%nat
  else None.

Fixpoint feat_sub_go (prev : option N) (skip : nat) (s : str) : str :=
  match s with
  | [] => []
  | c :: s' =>
      match skip with
      | S k => feat_sub_go (Some c) k s'
      | O =>
          match feat_match prev s with
          | Some n => lit "feat" ++ feat_sub_go (Some c) (n - 1) s'
          | None => c :: feat_sub_go (Some c) 0 s'
          end
      end
  end.

(** [_FEAT.sub('feat', s)]. *)
Definition feat_sub (s : str) : str := feat_sub_go None 0 s.

(** Index, in the text after an opening bracket, of the first closing bracket
    that [.*?] can reach: the dot does not match a line feed. *)
Fixpoint close_index (s : str) : option nat :=
  match s with
  | [] => None
  | c :: s' =>
      if is_close c then Some 0%nat
      else if (c =? 10)%N then None
      else S <$> close_index s'
  end.

Fixpoint remove_parens_go (skip : nat) (s : str) : str :=
  match s with
  | [] => []
  | c :: s' =>
      match skip with
      | S k => remove_parens_go k s'
      | O =>
          if is_open c then
            match close_index s' with
            | Some k => remove_parens_go (S k) s'
            | None => c :: remove_parens_go 0 s'
            end
          else c :: remove_parens_go 0 s'
      end
  end.

(** [_REMOVE_PARENS.sub('', s)]: an opening bracket, the shortest run of
    characters other than line feeds, a closing bracket. *)
Definition remove_parens (s : str) : str := remove_parens_go 0 s.

Fixpoint collapse_go (in_run : bool) (s : str) : str :=
  match s with
  | [] => []
  | c :: s' =>
      if is_space c
      then (if in_run then collapse_go true s' else 32%N :: collapse_go true s')
      else c :: collapse_go false s'
  end.

(** [_MULTI_SPACE.sub(' ', s)] for [\s+]. *)
Definition collapse_spaces (s : str) : str := collapse_go false s.

(** The body of [norm] on a non-empty string, before the final [s or None]. *)
Definition norm_text (s : str) : str :=
  let s := strip s in
  let s := sub_class is_dash (lit "-") s in
  let s := replace_char 8217 (lit "'") s in
  let s := replace_char 8216 (lit "'") s in
  let s := replace_char 96 (lit "'") s in
  let s := replace_char 180 (lit "'") s in
  let s := replace_char 39 [] s in
  let s := sub_class is_bad_punct (lit " ") s in
  let s := replace_char 95 (lit " ") s in
  let s := replace_char 12288 (lit " ") s in
  let s := lower s in
  let s := feat_sub s in
  let s := remove_parens s in
  strip (collapse_spaces s).

(** [s or None]. *)
Definition or_none (s : str) : option str :=
  if nonempty s then Some s else None.

(** [norm(s)]: [None] stands for Python's [None]. *)
Definition norm (s : option str) : option str :=
  match s with
  | None => None
  | Some [] => None
  | Some s => or_none (norm_text s)
  end.

(** *** Tokens and Jaccard similarity *)

(** The class [[ \t/\\\-:,;.!?]]. *)
Definition is_token_sep (c : N) : bool :=
  bool_decide (c ∈ [32; 9; 47; 92; 45; 58; 44; 59; 46; 33; 63]%N).

(** [re.split] on the runs of a character class. *)
Fixpoint split_runs (cls : N -> bool) (cur : str) (in_run : bool) (s : str) : list str :=
  match s with
  | [] => [rev cur]
  | c :: s' =>
      if cls c
      then (if in_run then split_runs cls [] true s'
            else rev cur :: split_runs cls [] true s')
      else split_runs cls (c :: cur) false s'
  end.

Definition tokens (s : option str) : gset str :=
  match s with
  | None | Some [] => ∅
  | Some s => list_to_set (filter (fun p => p ≠ []) (split_runs is_token_sep [] false s))
  end.

(** A Python float that is the quotient of two small integers.  The repair
    code only builds [inter / union] and compares it with the literals [0.85]
    and [0.90]; for token sets of fewer than 2^45 elements the rounded
    quotient and the exact one compare alike against those literals, against
    [0.0] and against [1.0], so the exact quotient in lowest terms is kept. *)
Definition ratio (inter union : nat) : Q :=
  Qred (Z.of_nat inter # Pos.of_nat union).

Definition jaccard (a b : option str) : Q :=
  let ta := tokens a in
  let tb := tokens b in
  if bool_decide (ta = ∅) || bool_decide (tb = ∅) then 0%Q
  else
    let inter := size (ta ∩ tb) in
    let union := size (ta ∪ tb) in
    if bool_decide (union = 0%nat) then 0%Q else ratio inter union.

(** [x >= 0.85] and [x >= 0.90]. *)
Definition ge_085 (x : Q) : bool := Qle_bool (85 # 100) x.
Definition ge_090 (x : Q) : bool := Qle_bool (90 # 100) x.

End Normalizer.
Export Normalizer.

(** ** [repair_playlist_safe_v4.py]: EXTINF lines and display strings *)
Module Extinf.

Fixpoint run_length (p : N -> bool) (s : str) : nat :=
  match s with
  | c :: s' => if p c then S (run_length p s') else 0%nat
  | [] => 0%nat
  end.

(** [parse_extinf(line)]: the stripped line is matched against the prefix
    [#EXTINF:], an optional minus sign, one or more digits, optional
    whitespace, a comma, optional whitespace, and the rest of the line up to
    the end of the string.  The greedy whitespace run after the comma is taken
    whole; what is left must be free of line feeds, which the dot of the last
    group does not match.  Returns [(dur, disp)]. *)
Definition parse_extinf (line : str) : option Z * option str :=
  let l := strip line in
  if startswith (lit "#EXTINF:") l then
    let r := drop 8 l in
    let '(sign, r1) :=
      match r with
      | 45%N :: r' => ((-1)%Z, r')
      | _ => (1%Z, r)
      end in
    let n := run_length is_digit r1 in
    match n with
    | O => (None, None)
    | S _ =>
        match drop_while is_space (drop n r1) with
        | 44%N :: r3 =>
            let rest := drop_while is_space r3 in
            if existsb (N.eqb 10) rest then (None, None)
            else (Some (sign * Z_of_digits (take n r1))%Z, Some (strip rest))
        | _ => (None, None)
        end
    end
  else (None, None).

(** Length of a match of [\s+-\s+] at the head of [s]. *)
Definition dash_sep_match (s : str) : option nat :=
  let a := run_length is_space s in
  match a with
  | O => None
  | S _ =>
      match drop a s with
      | 45%N :: r =>
          let b := run_length is_space r in
          match b with
          | O => None
          | S _ => Some (a + 1 + b)%nat
          end
      | _ => None
      end
  end.

Fixpoint split_dash_go (cur : str) (skip : nat) (s : str) : list str :=
  match s with
  | [] => [rev cur]
  | c :: s' =>
      match skip with
      | S k => split_dash_go cur k s'
      | O =>
          match dash_sep_match s with
          | Some n => rev cur :: split_dash_go [] (n - 1) s'
          | None => split_dash_go (c :: cur) 0 s'
          end
      end
  end.

(** [re.split] on [\s+-\s+]. *)
Definition split_dash (s : str) : list str := split_dash_go [] 0 s.

Definition SEP : str := lit " - ".

(** The pairs generated from the normalised parts, before de-duplication. *)
Definition raw_pairs (parts : list str) : list (str * option str) :=
  match parts with
  | [] => []
  | [p] => [(p, None)]
  | [a; b] => [(a, Some b); (b, Some a)]
  | p0 :: p1 :: _ =>
      let init := removelast parts in
      [ (p1, Some p0);
        (join SEP (tail parts), Some p0);
        (join SEP init, Some (List.last parts []));
        (join SEP parts, None);
        (join SEP init, None);
        (p1, None) ]
  end.

(** De-duplication that preserves order: skip empty titles and keys already seen. *)
Fixpoint dedup_pairs (seen : gset (str * option str)) (pairs : list (str * option str))
  : list (str * option str) :=
  match pairs with
  | [] => []
  | (t, a) :: ps =>
      if negb (nonempty t) || bool_decide ((t, a) ∈ seen) then dedup_pairs seen ps
      else (t, a) :: dedup_pairs ({[ (t, a) ]} ∪ seen) ps
  end.

Definition candidate_pairs_from_display (disp : str) : list (str * option str) :=
  match disp with
  | [] => []
  | _ =>
      let disp2 := strip (replace_char 8212 (lit "-") (replace_char 8211 (lit "-") disp)) in
      let raw_parts :=
        map strip (List.filter (fun p => nonempty (strip p)) (split_dash disp2)) in
      let parts := omap (fun p => norm (Some p)) raw_parts in
      dedup_pairs ∅ (raw_pairs parts)
  end.

End Extinf.
Export Extinf.

(** ** [repair_playlist]: the duration-bucketed index and [find_matches] *)
Module Matching.

(** One object of the index file [music_index.json]. *)
Record item := Item {
  it_title : option str;
  it_artist : option str;
  it_duration : option Z;
  it_path : option str
}.

(** One entry of a duration bucket: normalised title and artist. *)
Record entry := Entry {
  title : str;
  artist : str;
  duration : Z;
  path : str
}.

#[export] Instance entry_eq_dec : EqDecision entry.
Proof. solve_decision. Defined.

(** The guard [if not title or not artist or dur is None or not path: continue]. *)
Definition bucket_entry (it : item) : option entry :=
  match norm (it_title it), norm (it_artist it), it_duration it, it_path it with
  | Some t, Some a, Some d, Some p =>
      if nonempty p then Some (Entry t a d p) else None
  | _, _, _, _ => None
  end.

(** [by_dur.setdefault(int(dur), []).append(...)]. *)
Definition bucket_add (by_dur : gmap Z (list entry)) (it : item) : gmap Z (list entry) :=
  match bucket_entry it with
  | Some e => <[duration e := default [] (by_dur !! duration e) ++ [e]]> by_dur
  | None => by_dur
  end.

Definition build_by_dur (music_index : list item) : gmap Z (list entry) :=
  foldl bucket_add ∅ music_index.

(** [range(a, b)]. *)
Definition py_range (a b : Z) : list Z := seqZ a (b - a).

Definition DUR_TOL_DEFAULT : Z := 2.

Section FindMatches.
Variable by_dur : gmap Z (list entry).
Variable dur_tol : Z.

(** The list [cand] built by the first loop of [find_matches]. *)
Definition candidates (dur : Z) : list entry :=
  concat (map (fun d => default [] (by_dur !! d))
              (py_range (dur - dur_tol) (dur + dur_tol + 1))).

(** [artist_n is None or s['artist'] == artist_n]. *)
Definition artist_ok (artist_n : option str) (s : entry) : bool :=
  match artist_n with
  | None => true
  | Some a => str_eqb (artist s) a
  end.

(** Stage 1. *)
Definition exact_of (title_n : str) (artist_n : option str) (cand : list entry) : list entry :=
  List.filter (fun s => str_eqb (title s) title_n && artist_ok artist_n s) cand.

(** Stage 2. *)
Definition fuzzy_of (title_n : str) (artist_n : option str) (cand : list entry) : list entry :=
  List.filter
    (fun s =>
       match artist_n with
       | Some a =>
           if negb (str_eqb (artist s) a) then false
           else ge_085 (jaccard (Some (title s)) (Some title_n))
       | None => ge_090 (jaccard (Some (title s)) (Some title_n))
       end) cand.

Definition find_matches (title_n artist_n : option str) (dur : Z) : list entry :=
  let cand := candidates dur in
  match cand, title_n with
  | [], _ | _, None | _, Some [] => []
  | _, Some t =>
      let exact := exact_of t artist_n cand in
      if (length exact =? 1)%nat then exact
      else if (1 <? length exact)%nat then exact
      else fuzzy_of t artist_n cand
  end.

End FindMatches.

End Matching.
Export Matching.

(** ** [repair_playlist]: the per-line repair loop *)
Module Repair.

(** One row of the report, in the column order of the header
    [status, extinf_duration, extinf_display, original_path, written_path, notes]. *)
Record report_row := Row {
  status : str;
  extinf_duration : option Z;
  extinf_display : option str;
  original_path : str;
  written_path : str;
  notes : str
}.

(** The mutable locals of [repair_playlist]. *)
Record state := State {
  total : nat;
  kept : nat;
  repaired : nat;
  ambiguous : nat;
  failed : nat;
  out_lines : list str;
  report_rows : list report_row
}.

Definition init : state := State 0 0 0 0 0 [] [].

Definition KEPT : str := lit "KEPT".
Definition REPAIRED : str := lit "REPAIRED".
Definition AMBIGUOUS : str := lit "AMBIGUOUS".
Definition FAILED : str := lit "FAILED".
Definition FAILED_NO_EXTINF : str := lit "FAILED_NO_EXTINF".

(** The inner loop [for m in ms: if m['path'] not in seen: all_matches.append(m)],
    with [seen] computed once, before the loop, from [all_matches]. *)
Definition add_unseen (all_matches ms : list entry) : list entry :=
  let seen : gset str := list_to_set (map path all_matches) in
  all_matches ++ List.filter (fun m => negb (bool_decide (path m ∈ seen))) ms.

Section RepairPlaylist.
(** [os.path.exists]. *)
Variable path_exists : str -> bool.
Variable music_index : list item.
Variable dur_tol : Z.

Definition by_dur : gmap Z (list entry) := build_by_dur music_index.

(** First pass: every pair as generated. *)
Definition collect_pairs (pairs : list (str * option str)) (dur : Z) : list entry :=
  foldl (fun acc '(t, a) => add_unseen acc (find_matches by_dur dur_tol (Some t) a dur))
        [] pairs.

(** Second pass: every pair again, with the artist forced to [None]. *)
Definition collect_title_only (pairs : list (str * option str)) (dur : Z) : list entry :=
  foldl (fun acc '(t, _) => add_unseen acc (find_matches by_dur dur_tol (Some t) None dur))
        [] pairs.

Definition all_matches_for (disp : str) (dur : Z) : list entry :=
  let pairs := candidate_pairs_from_display disp in
  let first := collect_pairs pairs dur in
  match first, pairs with
  | [], _ :: _ => collect_title_only pairs dur
  | _, _ => first
  end.

Definition push (st : state) (line : str) (row : report_row) : state :=
  State (S (total st)) (kept st) (repaired st) (ambiguous st) (failed st)
        (out_lines st ++ [line]) (report_rows st ++ [row]).

Definition count_kept (st : state) : state :=
  State (total st) (S (kept st)) (repaired st) (ambiguous st) (failed st)
        (out_lines st) (report_rows st).
Definition count_repaired (st : state) : state :=
  State (total st) (kept st) (S (repaired st)) (ambiguous st) (failed st)
        (out_lines st) (report_rows st).
Definition count_ambiguous (st : state) : state :=
  State (total st) (kept st) (repaired st) (S (ambiguous st)) (failed st)
        (out_lines st) (report_rows st).
Definition count_failed (st : state) : state :=
  State (total st) (kept st) (repaired st) (ambiguous st) (S (failed st))
        (out_lines st) (report_rows st).

(** The body of the loop for one EXTINF unit: [line] is the EXTINF line and
    [original_path] the line after it. *)
Definition repair_unit (st : state) (line original_path : str) : state :=
  let '(dur, disp) := parse_extinf line in
  if path_exists original_path then
    count_kept (push st original_path
      (Row KEPT dur disp original_path original_path []))
  else
    match dur, disp with
    | Some d, Some ((_ :: _) as dp) =>
        if (d <? 0)%Z then
          count_failed (push st original_path
            (Row FAILED_NO_EXTINF dur disp original_path original_path
                 (lit "no duration or display")))
        else
          match all_matches_for dp d with
          | [m] =>
              count_repaired (push st (path m)
                (Row REPAIRED dur disp original_path (path m) []))
          | [] =>
              count_failed (push st original_path
                (Row FAILED dur disp original_path original_path (lit "no match")))
          | ms =>
              count_ambiguous (push st original_path
                (Row AMBIGUOUS dur disp original_path original_path
                     (join (lit " | ") (map path (take 5 ms)))))
          end
    | _, _ =>
        count_failed (push st original_path
          (Row FAILED_NO_EXTINF dur disp original_path original_path
               (lit "no duration or display")))
    end.

Definition emit (st : state) (line : str) : state :=
  State (total st) (kept st) (repaired st) (ambiguous st) (failed st)
        (out_lines st ++ [line]) (report_rows st).

(** The [while i < len(lines)] loop: one line is consumed for a pass-through
    line, two for an EXTINF line that has a line after it. *)
Fixpoint repair_loop (lines : list str) (st : state) : state :=
  match lines with
  | [] => st
  | l :: rest =>
      let line := rstrip_char 10 l in
      let st := emit st line in
      match rest with
      | nxt :: rest' =>
          if startswith (lit "#EXTINF") line
          then repair_loop rest' (repair_unit st line (rstrip_char 10 nxt))
          else repair_loop rest st
      | [] => repair_loop rest st
      end
  end.

(** [repair_playlist], from the lines of the playlist file to the final
    locals; the output file holds [join '\n' out_lines] and the report file
    the header and [report_rows]. *)
Definition repair_playlist (lines : list str) : state := repair_loop lines init.

End RepairPlaylist.

End Repair.

(** ** [core/runner.py]: report rows, status classification, export *)
Module Runner.

(** A row as [_read_report_rows] returns it: the columns of the CSV row
    (a column read as [None] is left out of [cols]) and the integer stored
    under the key [_i], which replaces a CSV column of that name. *)
Record report_dict := ReportDict {
  cols : gmap str str;
  row_i : nat
}.

(** [r.get(k)] for a column name other than [_i]. *)
Definition get (r : report_dict) (k : String.string) : option str :=
  cols r !! lit k.
Arguments get r k%_string.

(** [r.get(k) or ''] and [r.get(k1) or r.get(k2) or '']. *)
Definition get_or_empty (r : report_dict) (k : String.string) : str :=
  default [] (get r k).
Definition get2_or_empty (r : report_dict) (k1 k2 : String.string) : str :=
  match get r k1 with
  | Some ((_ :: _) as v) => v
  | _ => get_or_empty r k2
  end.
Arguments get_or_empty r k%_string.
Arguments get2_or_empty r (k1 k2)%_string.

(** [_read_report_rows]: [reader] is what [csv.DictReader] yields, [None]
    when the report file does not exist. *)
Definition read_row (i : nat) (r : gmap str str) : report_dict :=
  let r := delete (lit "_i") r in
  match r !! lit "row_index" with
  | None | Some [] =>
      ReportDict (<[lit "row_index" := str_of_Z (Z.of_nat i)]> r) i
  | Some v =>
      ReportDict (<[lit "row_index" := strip v]> r) i
  end.

Definition read_report_rows (reader : option (list (gmap str str))) : list report_dict :=
  match reader with
  | None => []
  | Some rows => imap read_row rows
  end.

Definition RESOLVED_KEYWORDS : list str :=
  [lit "KEPT"; lit "REPAIRED"; lit "FIXED"; lit "OK"; lit "DONE"; lit "SUCCESS";
   lit "RESOLV"].
Definition AMBIGUOUS_KEYWORDS : list str :=
  [lit "AMBIG"; lit "MULTI"; lit "CONFLICT"; lit "DUPLIC"; lit "CANDIDATE";
   lit "MULTIPLE"].
Definition FAILED_KEYWORDS : list str :=
  [lit "FAIL"; lit "NOT_FOUND"; lit "NOTFOUND"; lit "MISSING"; lit "MISS";
   lit "ERROR"; lit "ERR"].

(** [any(k in st for k in keywords)]. *)
Definition any_in (keywords : list str) (st : str) : bool :=
  existsb (fun k => contains k st) keywords.

Definition RESOLVED : str := lit "RESOLVED".
Definition AMBIGUOUS : str := lit "AMBIGUOUS".
Definition FAILED : str := lit "FAILED".
(** The empty string stands for an unknown status. *)
Definition UNKNOWN : str := [].

(** The local [norm] of [_classify_for_ui]: [(s or '').strip().upper()]. *)
Definition status_norm (s : str) : str := upper (strip s).

Definition classify_status (st : str) : str :=
  let st := status_norm st in
  if negb (nonempty st) then UNKNOWN
  else if any_in RESOLVED_KEYWORDS st then RESOLVED
  else if any_in AMBIGUOUS_KEYWORDS st then AMBIGUOUS
  else if any_in FAILED_KEYWORDS st then FAILED
  else UNKNOWN.

(** [s.split(sep)] for a one-character separator. *)
Fixpoint split_char (sep : N) (cur : str) (s : str) : list str :=
  match s with
  | [] => [rev cur]
  | c :: s' =>
      if (c =? sep)%N then rev cur :: split_char sep [] s'
      else split_char sep (c :: cur) s'
  end.

(** [s.index(k)], for a [k] that occurs in [s]. *)
Fixpoint index_of (k s : str) : nat :=
  if startswith k s then 0%nat
  else match s with
       | [] => 0%nat
       | _ :: s' => S (index_of k s')
       end.

(** A row of the unresolved view. *)
Record ui_row := UiRow {
  ui_playlist : str;
  ui_pl_key : str;
  ui_row_index : Z;
  ui_extinf_display : str;
  ui_original_path : str;
  ui_notes : str;
  ui_candidates : list str
}.

Section ClassifyForUi.
(** [Path(p).name], which depends on the path flavour of the platform. *)
Variable path_name : str -> str.
(** [int(text)], [None] when it raises. *)
Variable parse_int : str -> option Z.

Definition parse_candidates_from_notes (notes : str) : list str :=
  let notes := strip notes in
  match notes with
  | [] => []
  | _ =>
      let low := lower notes in
      let marker := lit "candidates:" in
      let notes :=
        if contains marker low
        then strip (drop (index_of marker low + length marker) notes)
        else notes in
      List.filter
        (fun p =>
           let has_sep :=
             contains [58; 92]%N p || contains (lit "/") p || contains [92%N] p in
           let name := path_name p in
           let looks_like_file := contains (lit ".") name && (3 <=? length name)%nat in
           nonempty p && has_sep && looks_like_file)
        (map (fun part => strip_char 39 (strip_char 34 (strip part)))
             (split_char 124 [] notes))
  end.

(** [r.get('row_index') or r.get('_i') or -1], then [int(str(..).strip())]
    with [-1] on failure. *)
Definition ui_index (r : report_dict) : Z :=
  let raw :=
    match get r "row_index" with
    | Some ((_ :: _) as v) => v
    | _ => match row_i r with
           | O => str_of_Z (-1)
           | S _ => str_of_Z (Z.of_nat (row_i r))
           end
    end in
  default (-1)%Z (parse_int (strip raw)).

Definition ui_row_of (playlist pl_key : str) (r : report_dict) : ui_row :=
  let notes := strip (get_or_empty r "notes") in
  UiRow playlist pl_key (ui_index r)
        (strip (get2_or_empty r "extinf_display" "extinf"))
        (strip (get2_or_empty r "original_path" "original"))
        notes (parse_candidates_from_notes notes).

(** The loop of [_classify_for_ui], threading the two result lists. *)
Definition classify_step (playlist pl_key : str)
    (acc : list ui_row * list ui_row) (r : report_dict) : list ui_row * list ui_row :=
  let kind := classify_status (get_or_empty r "status") in
  if str_eqb kind RESOLVED then acc
  else if negb (str_eqb kind AMBIGUOUS || str_eqb kind FAILED) then acc
  else
    let row := ui_row_of playlist pl_key r in
    if str_eqb kind AMBIGUOUS then (acc.1 ++ [row], acc.2)
    else (acc.1, acc.2 ++ [row]).

(** [_classify_for_ui(report_rows, playlist_path)]: [playlist] is
    [str(playlist_path)] and [name] its final component. *)
Definition classify_for_ui (report_rows : list report_dict) (playlist name : str)
  : list ui_row * list ui_row :=
  foldl (classify_step playlist (canonical_key name)) ([], []) report_rows.

End ClassifyForUi.

(** *** [export_fixed_multi] *)

Definition FINAL_KEYS : list str :=
  [lit "written_path"; lit "written";
   lit "final_path"; lit "final";
   lit "resolved_path"; lit "resolved";
   lit "picked_path"; lit "picked";
   lit "chosen_path"; lit "chosen";
   lit "selected_path"; lit "selected";
   lit "output_path"; lit "output";
   lit "result_path"; lit "result";
   lit "target_path"; lit "target";
   lit "matched_path"; lit "matched"].

Definition is_resolved_status (st : str) : bool :=
  any_in RESOLVED_KEYWORDS (upper (strip st)).

(** [pick_final(rr)], as a loop over the keys that are left. *)
Fixpoint pick_final_from (keys : list str) (rr : report_dict) : str :=
  match keys with
  | [] => []
  | k :: keys' =>
      let s := strip (default [] (cols rr !! k)) in
      if nonempty s then s else pick_final_from keys' rr
  end.
Definition pick_final (rr : report_dict) : str := pick_final_from FINAL_KEYS rr.

(** [str(r.get('row_index', r.get('_i', ''))).strip()]. *)
Definition export_row_index (r : report_dict) : str :=
  strip (match get r "row_index" with
         | Some v => v
         | None => str_of_Z (Z.of_nat (row_i r))
         end).

(** [selections.get(row_index) if row_index else None]. *)
Definition chosen_for (selections : gmap str str) (r : report_dict) : option str :=
  let row_index := export_row_index r in
  if nonempty row_index then selections !! row_index else None.

(** The path line written for one row. *)
Definition export_path (selections : gmap str str) (r : report_dict) : str :=
  let orig := strip (get2_or_empty r "original_path" "original") in
  let status := strip (get_or_empty r "status") in
  let final_path := pick_final r in
  match chosen_for selections r with
  | Some ((_ :: _) as chosen) => chosen
  | _ =>
      if is_resolved_status status
      then (if nonempty final_path then final_path else orig)
      else orig
  end.

(** The lines appended for one row: the EXTINF line when the row carries
    one, then the path line. *)
Definition export_row (selections : gmap str str) (r : report_dict) : list str :=
  let extinf_line := strip (get2_or_empty r "extinf_line" "extinf") in
  (if nonempty extinf_line then [extinf_line] else []) ++ [export_path selections r].

(** The list [lines] of one job. *)
Definition export_lines (selections : gmap str str) (rows : list report_dict) : list str :=
  lit "#EXTM3U" :: concat (map (export_row selections) rows).

(** The text written to [out_m3u]. *)
Definition export_text (lines : list str) : str := join [10%N] lines ++ [10%N].

Record job := Job {
  report_csv : option (list (gmap str str));
  out_m3u : str;
  selections : gmap str str
}.

Definition export_job (j : job) : str * str :=
  (out_m3u j, export_text (export_lines (selections j) (read_report_rows (report_csv j)))).

(** [export_fixed_multi]: [cancel_flag i] is what the cancel predicate
    answers before job [i]; the result is the success flag and the files
    written so far. *)
Fixpoint export_loop (cancel_flag : nat -> bool) (i : nat) (jobs : list job)
    (written : list (str * str)) : bool * list (str * str) :=
  match jobs with
  | [] => (true, written)
  | j :: jobs' =>
      if cancel_flag i then (false, written)
      else export_loop cancel_flag (S i) jobs' (written ++ [export_job j])
  end.

Definition export_fixed_multi (cancel_flag : nat -> bool) (jobs : list job)
  : bool * list (str * str) :=
  export_loop cancel_flag 0 jobs [].

(** *** From the repair report to the export

    [repair_playlist] writes its rows with [csv.writer] under the six-column
    header; [csv.DictReader] reads them back as one dictionary per row, keyed
    by the header, with [None] written as the empty string and an integer as
    its decimal text. *)
Definition csv_dict (r : Repair.report_row) : gmap str str :=
  list_to_map
    [ (lit "status", Repair.status r);
      (lit "extinf_duration", from_option str_of_Z [] (Repair.extinf_duration r));
      (lit "extinf_display", default [] (Repair.extinf_display r));
      (lit "original_path", Repair.original_path r);
      (lit "written_path", Repair.written_path r);
      (lit "notes", Repair.notes r) ].

Definition report_file (st : Repair.state) : option (list (gmap str str)) :=
  Some (map csv_dict (Repair.report_rows st)).

End Runner.

(** ** [playlist_scan_safe.py] and [TaskRunner.scan_index]: the index builder *)
Module Scanner.

Definition SUPPORTED_EXTS : list str :=
  [lit ".flac"; lit ".alac"; lit ".m4a"; lit ".mp4"; lit ".aac"; lit ".mp3";
   lit ".ogg"; lit ".opus"; lit ".wav"; lit ".aif"; lit ".aiff"; lit ".aifc";
   lit ".ape"; lit ".wv"; lit ".dsf"; lit ".dff"].

(** [PurePath.suffix] of a file name. *)
Definition path_suffix (name : str) : str :=
  match rfind_dot name 0 None with
  | Some i => if bool_decide (0 < i < length name - 1) then drop i name else []
  | None => []
  end.

Definition supported (fn : str) : bool :=
  bool_decide (lower (path_suffix fn) ∈ SUPPORTED_EXTS).

Inductive meta_source := MetaNone | EasyTag | RawTag | Filename | PathGuess.

#[export] Instance meta_source_eq_dec : EqDecision meta_source.
Proof. solve_decision. Defined.

Record index_item := IndexItem {
  path : str;
  duration : Z;
  title : str;
  artist : option str;
  source : meta_source
}.

(** The dictionary returned by [scan_folder]. *)
Record scan_result := ScanResult {
  root : str;
  scanned_supported : nat;
  skipped_no_duration : nat;
  indexed : nat;
  items : list index_item
}.

(** The [stats] dictionary of a multi-root scan. *)
Record scan_stats := ScanStats {
  roots : list str;
  total_scanned_supported : nat;
  total_skipped_no_duration : nat;
  total_indexed : nat
}.

(** Truth value of an optional string. *)
Definition truthy (o : option str) : bool :=
  match o with
  | Some (_ :: _) => true
  | _ => false
  end.

(** The outcome of a call that is not guarded by [try/except]: the value it
    returns, or [Raised] when an exception leaves it.  Nothing in the scan
    catches such an exception, so it leaves every caller as well. *)
Inductive outcome (A : Type) : Type :=
  | Returned (a : A)
  | Raised.
Arguments Returned {A} a.
Arguments Raised {A}.

#[export] Instance outcome_ret : MRet outcome := @Returned.
#[export] Instance outcome_bind : MBind outcome := fun A B f o =>
  match o with
  | Returned a => f a
  | Raised => Raised
  end.
#[export] Instance outcome_fmap : FMap outcome := fun A B f o =>
  match o with
  | Returned a => Returned (f a)
  | Raised => Raised
  end.

(** A [for] loop whose body may raise. *)
Fixpoint fold_outcome {A B : Type} (f : A -> B -> outcome A) (acc : A) (l : list B)
  : outcome A :=
  match l with
  | [] => Returned acc
  | b :: l' => acc' ← f acc b; fold_outcome f acc' l'
  end.

Section ScanFolder.
(** What the tag library and the file system answer. *)
Variable Audio : Type.
(** [File(str(p), easy=e)]: [None] when the call raises or returns [None]. *)
Variable File : str -> bool -> option Audio.
(** Truth value of an audio object. *)
Variable audio_true : Audio -> bool.
(** [get_duration_seconds] catches what its body raises. *)
Variable get_duration_seconds : Audio -> option Z.
(** [read_easy_tags] and [read_raw_tags] are called outside [try/except]:
    [audio.get(..)] and [k in tags] can raise (the tag library refuses the
    key ['\xa9nam'] on Vorbis comments with a [ValueError]). *)
Variable read_easy_tags : Audio -> outcome (option str * option str).
Variable read_raw_tags : Audio -> outcome (option str * option str).
(** [clean_filename_title(p.stem)] and [guess_artist_from_path(p)]. *)
Variable filename_title : str -> str.
Variable guess_artist_from_path : str -> option str.
(** [str(Path(dirpath) / fn)]. *)
Variable path_join : str -> str -> str.
(** [os.walk(root)]: the directories with their file names, in walk order. *)
Variable walk : str -> list (str * list str).

(** [File(..)] guarded by [try/except] and by [if audio:]. *)
Definition open_audio (p : str) (easy : bool) : option Audio :=
  match File p easy with
  | Some au => if audio_true au then Some au else None
  | None => None
  end.

(** The locals [dur, title, artist, meta_source] after the easy-tag read. *)
Definition easy_pass (p : str)
  : outcome (option Z * option str * option str * meta_source) :=
  match open_audio p true with
  | Some au =>
      let dur := get_duration_seconds au in
      '(t, a) ← read_easy_tags au;
      mret (if truthy t || truthy a then (dur, t, a, EasyTag)
            else (dur, None, None, MetaNone))
  | None => mret (None, None, None, MetaNone)
  end.

(** The same locals after the raw-tag read. *)
Definition raw_pass (p : str) (loc : option Z * option str * option str * meta_source)
  : outcome (option Z * option str * option str * meta_source) :=
  let '(dur, title, artist, ms) := loc in
  if bool_decide (dur = None) || bool_decide (ms = MetaNone) then
    match open_audio p false with
    | Some au =>
        let dur := match dur with
                   | None => get_duration_seconds au
                   | Some _ => dur
                   end in
        if bool_decide (ms = MetaNone) then
          '(t, a) ← read_raw_tags au;
          mret (if truthy t || truthy a then (dur, t, a, RawTag)
                else (dur, title, artist, ms))
        else mret (dur, title, artist, ms)
    | None => mret loc
    end
  else mret loc.

(** The end of the loop body, once both reads have returned: [None] when
    the file is skipped for lack of a duration. *)
Definition index_entry (p : str) (loc : option Z * option str * option str * meta_source)
  : option index_item :=
  let '(dur, title, artist, ms) := loc in
  match dur with
  | None => None
  | Some d =>
      let '(title, ms) :=
        if truthy title then (default [] title, ms)
        else (filename_title p,
              if bool_decide (ms = MetaNone) then Filename else ms) in
      let '(artist, ms) :=
        if truthy artist then (artist, ms)
        else match guess_artist_from_path p with
             | Some ((_ :: _) as ag) =>
                 (Some ag,
                  if bool_decide (ms = Filename) || bool_decide (ms = MetaNone)
                  then PathGuess else ms)
             | _ => (artist, ms)
             end in
      Some (IndexItem p d title artist ms)
  end.

(** The body of the file loop after the extension test. *)
Definition scan_file (p : str) : outcome (option index_item) :=
  loc ← easy_pass p;
  loc ← raw_pass p loc;
  mret (index_entry p loc).

(** The locals [items, scanned, skipped_no_duration] of [scan_folder]. *)
Definition file_step (dirpath : str) (acc : list index_item * nat * nat) (fn : str)
  : outcome (list index_item * nat * nat) :=
  let '(its, scanned, skipped) := acc in
  if negb (supported fn) then mret acc
  else
    o ← scan_file (path_join dirpath fn);
    mret (match o with
          | None => (its, S scanned, S skipped)
          | Some it => (its ++ [it], S scanned, skipped)
          end).

Definition dir_step (acc : list index_item * nat * nat) (d : str * list str)
  : outcome (list index_item * nat * nat) :=
  fold_outcome (file_step d.1) acc d.2.

Definition scan_folder (r : str) : outcome scan_result :=
  '(its, scanned, skipped) ← fold_outcome dir_step ([], 0%nat, 0%nat) (walk r);
  mret (ScanResult r scanned skipped (length its) its).

(** [scan_multiple_roots(roots)]; [resolve] is [Path(r).expanduser().resolve()]. *)
Variable resolve : str -> str.

Definition multi_step (acc : list index_item * scan_stats) (r : str)
  : outcome (list index_item * scan_stats) :=
  let '(combined, stats) := acc in
  res ← scan_folder (resolve r);
  mret (combined ++ items res,
        ScanStats (roots stats ++ [root res])
                  (total_scanned_supported stats + scanned_supported res)
                  (total_skipped_no_duration stats + skipped_no_duration res)
                  (total_indexed stats)).

Definition scan_multiple_roots (rs : list str) : outcome (list index_item * scan_stats) :=
  '(combined, stats) ← fold_outcome multi_step ([], ScanStats [] 0 0 0) rs;
  mret (combined,
        ScanStats (roots stats) (total_scanned_supported stats)
                  (total_skipped_no_duration stats) (length combined)).

(** [TaskRunner.scan_index]: [cancel_flag i] is the answer of the cancel
    predicate before root [i]; [None] is the cancelled result, otherwise the
    items written to the index file and the statistics written beside it. *)
Fixpoint scan_index_loop (cancel_flag : nat -> bool) (i : nat) (rs : list str)
    (acc : list index_item * scan_stats)
  : outcome (option (list index_item * scan_stats)) :=
  match rs with
  | [] => mret (Some acc)
  | r :: rs' =>
      if cancel_flag i then mret None
      else
        let '(its, stats) := acc in
        res ← scan_folder r;
        scan_index_loop cancel_flag (S i) rs'
          (its ++ items res,
           ScanStats (roots stats ++ [root res])
                     (total_scanned_supported stats + scanned_supported res)
                     (total_skipped_no_duration stats + skipped_no_duration res)
                     (total_indexed stats))
  end.

Definition scan_index (cancel_flag : nat -> bool) (music_roots : list str)
  : outcome (option (list index_item * scan_stats)) :=
  o ← scan_index_loop cancel_flag 0 music_roots ([], ScanStats [] 0 0 0);
  mret (match o with
        | None => None
        | Some (its, stats) =>
            Some (its,
                  ScanStats (roots stats) (total_scanned_supported stats)
                            (total_skipped_no_duration stats) (length its))
        end).

End ScanFolder.

End Scanner.

(** ** [core/runner.py] and [ui/main_window.py]: file names built on the key *)
Module Names.

(** [report_path_for], [selections_path_for] and [export_path_for]: the file
    name that is joined to [out_dir], for the playlist of file name [name]. *)
Definition report_path_for (name : str) : str :=
  lit "repair_report_" ++ canonical_key name ++ lit ".csv".
Definition selections_path_for (name : str) : str :=
  lit "selections_" ++ canonical_key name ++ lit ".json".
Definition export_path_for (name : str) : str :=
  lit "fixed_" ++ canonical_key name ++ lit "_selected.m3u".

(** The name of the playlist that [repair_playlists] lets [repair_playlist]
    write and then deletes. *)
Definition tmp_fixed_for (name : str) : str :=
  lit "__tmp_fixed_" ++ canonical_key name ++ lit ".m3u".

(** [MainWindow._is_exported_playlist], on the file name of the playlist. *)
Definition is_exported_playlist (name : str) : bool :=
  let stem := lower (path_stem name) in
  startswith (lit "fixed_") stem || startswith (lit "draft_fixed_") stem ||
  endswith (lit "_selected") stem || contains (lit "_selected") stem.

End Names.

(** ** [playlist_scan_safe.py]: titles from file names, artists from paths *)
Module Titles.

(** The class [[\s._-]]. *)
Definition is_track_sep (c : N) : bool :=
  is_space c || (c =? 46)%N || (c =? 95)%N || (c =? 45)%N.

(** Length of a match of [\(?\d{1,3}\)?[\s._-]+] at the head of [s].  Every
    quantifier is greedy and none of them can give a character back with
    success: a digit given back is neither a bracket nor a separator, and a
    bracket given back is not a separator.  So the group matches when the
    whole run of digits has one to three digits and at least one separator
    follows the optional closing bracket. *)
Definition track_group (s : str) : option nat :=
  let '(par, s1) :=
    match s with
    | c :: r => if (c =? 40)%N then (1%nat, r) else (0%nat, s)
    | [] => (0%nat, s)
    end in
  let n := run_length is_digit s1 in
  if (1 <=? n)%nat && (n <=? 3)%nat then
    let s2 := drop n s1 in
    let '(cl, s3) :=
      match s2 with
      | c :: r => if (c =? 41)%N then (1%nat, r) else (0%nat, s2)
      | [] => (0%nat, s2)
      end in
    let k := run_length is_track_sep s3 in
    if (1 <=? k)%nat then Some (par + n + cl + k)%nat else None
  else None.

(** The repetition of the group: [skip] counts the characters of the
    current group that are still to be consumed; what is left when no
    further group matches is returned. *)
Fixpoint strip_groups (skip : nat) (s : str) : str :=
  match s with
  | [] => []
  | c :: s' =>
      match skip with
      | S k => strip_groups k s'
      | O =>
          match track_group s with
          | Some n => strip_groups (n - 1) s'
          | None => s
          end
      end
  end.

(** [TRACK_PREFIX_RE.sub('', s)] for [^\s*(\(?\d{1,3}\)?[\s._-]+)+]: the
    pattern is anchored, so only a match at the start is replaced. *)
Definition track_prefix_sub (s : str) : str :=
  let s1 := drop_while is_space s in
  match track_group s1 with
  | Some _ => strip_groups 0 s1
  | None => s
  end.

Definition clean_filename_title (stem : str) : str :=
  let s := strip stem in
  let s := strip (track_prefix_sub s) in
  strip (collapse_spaces s).

Definition normalize_token (t : str) : str :=
  collapse_spaces (lower (strip t)).

Definition GENERIC_PATH_TOKENS : list str :=
  [lit "music"; lit "itunes"; lit "itunes media"; lit "media"; lit "hi-res";
   lit "hires"; lit "lossless"; lit "lossy"; lit "downloads"; lit "download";
   lit "album"; lit "albums"; lit "disc"; lit "cd"; lit "cd1"; lit "cd2";
   lit "cd3"; lit "deluxe"; lit "edition"; lit "remaster"; lit "remastered";
   lit "single"; lit "singles"; lit "ep"; lit "compilations";
   lit "various artists"; lit "va"; lit "unknown"; lit "unknown artist"].

(** [re.fullmatch(r'\d+', pt)]. *)
Definition all_digits (pt : str) : bool := nonempty pt && forallb is_digit pt.

(** [re.fullmatch(r'(19|20)\d{2}', pt)]. *)
Definition is_year (pt : str) : bool :=
  match pt with
  | [a; b; c; d] =>
      (((a =? 49) && (b =? 57)) || ((a =? 50) && (b =? 48)))%N &&
      is_digit c && is_digit d
  | _ => false
  end.

(** The loop [for p in reversed(parts)], on the parts still to visit. *)
Fixpoint guess_loop (parts : list str) : option str :=
  match parts with
  | [] => None
  | p :: rest =>
      let pt := strip p in
      if negb (nonempty pt) then guess_loop rest
      else if bool_decide (normalize_token pt ∈ GENERIC_PATH_TOKENS) then guess_loop rest
      else if all_digits pt then guess_loop rest
      else if (length pt <=? 2)%nat then guess_loop rest
      else if is_year pt then guess_loop rest
      else Some pt
  end.

(** [guess_artist_from_path(path)], on [path.parts]. *)
Definition guess_artist_from_path (parts : list str) : option str :=
  guess_loop (rev (removelast parts)).

End Titles.

(** ** [TaskRunner.repair_playlists] *)
Module Batch.

(** A playlist of the run: [str(pl)], [pl.name], and the lines that
    [readlines] returns for it when its turn comes. *)
Record playlist := Playlist {
  pl_path : str;
  pl_name : str;
  pl_lines : list str
}.

(** The dictionary returned by [repair_playlist]; the two paths written are
    given by their file names in [out_dir]. *)
Record summary := Summary {
  s_total : nat;
  s_kept : nat;
  s_repaired : nat;
  s_ambiguous : nat;
  s_failed : nat;
  s_playlist_path : str;
  s_output_path : str;
  s_report_path : str
}.

Section RepairPlaylists.
(** [os.path.exists] as it answers while playlist number [i] is repaired. *)
Variable path_exists : nat -> str -> bool.
(** The content of the index file, which every round loads. *)
Variable music_index : list item.
Variable path_name : str -> str.
Variable parse_int : str -> option Z.

Definition summary_of (pl : playlist) (st : Repair.state) : summary :=
  Summary (Repair.total st) (Repair.kept st) (Repair.repaired st)
          (Repair.ambiguous st) (Repair.failed st)
          (pl_path pl) (Names.tmp_fixed_for (pl_name pl))
          (Names.report_path_for (pl_name pl)).

(** One round of the loop: the playlist is repaired with the default
    tolerance, the report is read back, and its unresolved rows are added to
    the two lists. *)
Definition repair_round (i : nat) (pl : playlist)
    (acc : list summary * list Runner.ui_row * list Runner.ui_row)
  : list summary * list Runner.ui_row * list Runner.ui_row :=
  let '(summaries, all_amb, all_fail) := acc in
  let st := Repair.repair_playlist (path_exists i) music_index DUR_TOL_DEFAULT (pl_lines pl) in
  let report_rows := Runner.read_report_rows (Runner.report_file st) in
  let '(amb, fail) :=
    match report_rows with
    | [] => ([], [])
    | _ => Runner.classify_for_ui path_name parse_int report_rows (pl_path pl) (pl_name pl)
    end in
  (summaries ++ [summary_of pl st], all_amb ++ amb, all_fail ++ fail).

Fixpoint repair_playlists_loop (cancel_flag : nat -> bool) (i : nat)
    (playlists : list playlist)
    (acc : list summary * list Runner.ui_row * list Runner.ui_row)
  : option (list summary * list Runner.ui_row * list Runner.ui_row) :=
  match playlists with
  | [] => Some acc
  | pl :: rest =>
      if cancel_flag i then None
      else repair_playlists_loop cancel_flag (S i) rest (repair_round i pl acc)
  end.

(** [repair_playlists]: [None] is the cancelled result, otherwise the
    summaries and the ambiguous and failed rows of the result. *)
Definition repair_playlists (cancel_flag : nat -> bool) (playlists : list playlist)
  : option (list summary * list Runner.ui_row * list Runner.ui_row) :=
  repair_playlists_loop cancel_flag 0 playlists ([], [], []).

End RepairPlaylists.

End Batch.

(** * Properties *)

(** ** Canonical keys *)
Section CanonicalKey.

Lemma nonempty_false (s : str) : nonempty s = false ↔ s = [].
Proof. destruct s; simpl; split; congruence. Qed.

Lemma nonempty_true (s : str) : nonempty s = true ↔ s ≠ [].
Proof. destruct s; simpl; split; congruence. Qed.

Lemma strip_nil : strip [] = [].
Proof. reflexivity. Qed.

(** The final [strip] widens the fallback to stems that are reduced to
    whitespace. *)
Lemma canonical_key_blank (stem : str) :
  strip (strip_affixes stem) = [] → canonical_key_of_stem stem = stem.
Proof. intros H. unfold canonical_key_of_stem. rewrite H. reflexivity. Qed.

End CanonicalKey.

(** ** Status classification *)
Section Classification.
Import Runner.

Variable path_name : str -> str.
Variable parse_int : str -> option Z.

Lemma str_eqb_true (a b : str) : str_eqb a b = true ↔ a = b.
Proof. unfold str_eqb. rewrite bool_decide_eq_true. reflexivity. Qed.

Lemma str_eqb_false (a b : str) : str_eqb a b = false ↔ a ≠ b.
Proof. unfold str_eqb. rewrite bool_decide_eq_false. reflexivity. Qed.

Lemma classify_step_unknown playlist pl_key acc r :
  classify_status (get_or_empty r "status") = UNKNOWN →
  classify_step path_name parse_int playlist pl_key acc r = acc.
Proof. intros H. unfold classify_step. rewrite H. reflexivity. Qed.

Lemma classify_step_resolved playlist pl_key acc r :
  classify_status (get_or_empty r "status") = RESOLVED →
  classify_step path_name parse_int playlist pl_key acc r = acc.
Proof. intros H. unfold classify_step. rewrite H. reflexivity. Qed.

(** The kind of a status is one of the four outcomes. *)
Lemma classify_status_cases (st : str) :
  classify_status st = RESOLVED ∨ classify_status st = AMBIGUOUS ∨
  classify_status st = FAILED ∨ classify_status st = UNKNOWN.
Proof.
  unfold classify_status.
  repeat match goal with |- context [if ?b then _ else _] => destruct b end; auto.
Qed.

(** The unresolved view of a report is the view of its rows of a known
    unresolved kind. *)
Definition needs_action (r : report_dict) : bool :=
  let kind := classify_status (get_or_empty r "status") in
  str_eqb kind AMBIGUOUS || str_eqb kind FAILED.

Lemma classify_fold_filter playlist pl_key rows acc :
  foldl (classify_step path_name parse_int playlist pl_key) acc rows =
  foldl (classify_step path_name parse_int playlist pl_key) acc
        (List.filter needs_action rows).
Proof.
  revert acc. induction rows as [|r rows IH]; intros acc; [reflexivity|].
  simpl. unfold needs_action at 1.
  destruct (classify_status_cases (get_or_empty r "status")) as [H|[H|[H|H]]];
    rewrite H.
  - rewrite classify_step_resolved by exact H. simpl. apply IH.
  - simpl. apply IH.
  - simpl. apply IH.
  - rewrite classify_step_unknown by exact H. simpl. apply IH.
Qed.

(** C5. Keyword containment on the upper-cased status, resolved keywords
    first, then ambiguous, then failed; the four example statuses; and a
    status without keyword is unknown and leaves both lists of the
    unresolved view as they are. *)
Theorem classify_status_priority :
  (classify_status (lit "MULTI_MATCH_3") = AMBIGUOUS ∧
   classify_status (lit "NOT_FOUND_IN_LIB") = FAILED ∧
   classify_status (lit "done_ok") = RESOLVED ∧
   classify_status (lit "PENDING") = UNKNOWN) ∧
  (∀ st : str,
     let u := status_norm st in
     classify_status st =
       if any_in RESOLVED_KEYWORDS u then RESOLVED
       else if any_in AMBIGUOUS_KEYWORDS u then AMBIGUOUS
       else if any_in FAILED_KEYWORDS u then FAILED
       else UNKNOWN) ∧
  UNKNOWN ≠ FAILED ∧
  (∀ playlist pl_key acc r,
     classify_status (get_or_empty r "status") = UNKNOWN →
     classify_step path_name parse_int playlist pl_key acc r = acc) ∧
  (∀ rows playlist name,
     classify_for_ui path_name parse_int rows playlist name =
     classify_for_ui path_name parse_int (List.filter needs_action rows) playlist name).
Proof.
  split; [repeat split; vm_compute; reflexivity|].
  split.
  { intros st u. unfold classify_status. fold u.
    destruct (nonempty u) eqn:E; [reflexivity|].
    apply nonempty_false in E. rewrite E. reflexivity. }
  split; [discriminate|].
  split; [apply classify_step_unknown|].
  intros rows playlist name. unfold classify_for_ui. apply classify_fold_filter.
Qed.

End Classification.

Lemma classify_status_priority_witness :
  Runner.classify_status
    (Runner.get_or_empty (Runner.ReportDict {[ lit "status" := lit "PENDING" ]} 0) "status")
    = Runner.UNKNOWN ∧
  Runner.classify_step (fun p => p) (fun _ => None) (lit "a.m3u") (lit "a") ([], [])
    (Runner.ReportDict {[ lit "status" := lit "PENDING" ]} 0) = ([], []).
Proof.
  split; [vm_compute; reflexivity|].
  apply (proj1 (proj2 (proj2 (proj2
           (classify_status_priority (fun p => p) (fun _ => None)))))).
  vm_compute; reflexivity.
Defined.

(** ** Scan accounting *)
Section ScanAccounting.
Import Scanner.

Variable Audio : Type.
Variable File : str -> bool -> option Audio.
Variable audio_true : Audio -> bool.
Variable get_duration_seconds : Audio -> option Z.
Variable read_easy_tags read_raw_tags : Audio -> outcome (option str * option str).
Variable filename_title : str -> str.
Variable guess_artist_from_path : str -> option str.
Variable path_join : str -> str -> str.
Variable walk : str -> list (str * list str).
Variable resolve : str -> str.

Local Abbreviation open_audio := (open_audio Audio File audio_true).
Local Abbreviation easy_pass :=
  (easy_pass Audio File audio_true get_duration_seconds read_easy_tags).
Local Abbreviation raw_pass :=
  (raw_pass Audio File audio_true get_duration_seconds read_raw_tags).
Local Abbreviation scan_file :=
  (scan_file Audio File audio_true get_duration_seconds read_easy_tags
             read_raw_tags filename_title guess_artist_from_path).
Local Abbreviation file_step :=
  (file_step Audio File audio_true get_duration_seconds read_easy_tags
             read_raw_tags filename_title guess_artist_from_path path_join).
Local Abbreviation dir_step :=
  (dir_step Audio File audio_true get_duration_seconds read_easy_tags
            read_raw_tags filename_title guess_artist_from_path path_join).
Local Abbreviation scan_folder :=
  (scan_folder Audio File audio_true get_duration_seconds read_easy_tags
               read_raw_tags filename_title guess_artist_from_path path_join walk).
Local Abbreviation multi_step :=
  (multi_step Audio File audio_true get_duration_seconds read_easy_tags
              read_raw_tags filename_title guess_artist_from_path path_join walk
              resolve).
Local Abbreviation scan_multiple_roots :=
  (scan_multiple_roots Audio File audio_true get_duration_seconds read_easy_tags
                       read_raw_tags filename_title guess_artist_from_path
                       path_join walk resolve).
Local Abbreviation scan_index_loop :=
  (scan_index_loop Audio File audio_true get_duration_seconds read_easy_tags
                   read_raw_tags filename_title guess_artist_from_path path_join
                   walk).
Local Abbreviation scan_index :=
  (scan_index Audio File audio_true get_duration_seconds read_easy_tags
              read_raw_tags filename_title guess_artist_from_path path_join walk).

(** The files of supported extension under a root, in walk order. *)
Definition supported_in (d : str * list str) : list str :=
  map (path_join d.1) (List.filter supported d.2).
Definition supported_files (r : str) : list str :=
  concat (map supported_in (walk r)).

(** One of the two tag reads of the file raises. *)
Definition raises (p : str) : bool :=
  match scan_file p with
  | Raised => true
  | Returned _ => false
  end.

(** What the file gives to the index, and whether it is skipped for lack of
    a duration, when its tag reads return. *)
Definition item_of (p : str) : option index_item :=
  match scan_file p with
  | Returned o => o
  | Raised => None
  end.
Definition unreadable (p : str) : bool :=
  match scan_file p with
  | Returned None => true
  | _ => false
  end.

Lemma raises_true (p : str) : raises p = true ↔ scan_file p = Raised.
Proof. unfold raises. destruct (scan_file p); split; congruence. Qed.

Lemma existsb_raises (ps : list str) :
  existsb raises ps = true ↔ ∃ p, p ∈ ps ∧ scan_file p = Raised.
Proof.
  rewrite existsb_exists. split; intros (p & H1 & H2); exists p.
  - split; [apply list_elem_of_In, H1 | apply raises_true, H2].
  - split; [apply list_elem_of_In, H1 | apply raises_true, H2].
Qed.

Lemma fold_outcome_cons {A B : Type} (f : A → B → outcome A) acc b l :
  fold_outcome f acc (b :: l) =
  match f acc b with
  | Returned acc' => fold_outcome f acc' l
  | Raised => Raised
  end.
Proof. reflexivity. Qed.

(** A supported file is counted once, and either indexed or skipped, unless
    one of its tag reads raises. *)
Lemma file_step_cases d its scanned skipped fn :
  file_step d (its, scanned, skipped) fn =
  if supported fn then
    match scan_file (path_join d fn) with
    | Returned (Some it) => Returned (its ++ [it], S scanned, skipped)
    | Returned None => Returned (its, S scanned, S skipped)
    | Raised => Raised
    end
  else Returned (its, scanned, skipped).
Proof.
  unfold Scanner.file_step. destruct (supported fn); [|reflexivity]. cbn.
  destruct (scan_file (path_join d fn)) as [[it|]|]; reflexivity.
Qed.

(** The loop over the files of one directory: it raises as soon as one tag
    read does, and otherwise counts every supported file once. *)
Lemma file_fold d (fns : list str) its scanned skipped :
  fold_outcome (file_step d) (its, scanned, skipped) fns =
  if existsb raises (supported_in (d, fns)) then Raised
  else Returned
         (its ++ omap item_of (supported_in (d, fns)),
          (scanned + length (supported_in (d, fns)))%nat,
          (skipped + length (List.filter unreadable (supported_in (d, fns))))%nat).
Proof.
  revert its scanned skipped. unfold supported_in. cbn [fst snd].
  induction fns as [|fn fns IH]; intros its scanned skipped.
  - simpl. rewrite app_nil_r, !Nat.add_0_r. reflexivity.
  - rewrite fold_outcome_cons, file_step_cases. cbn [List.filter].
    destruct (supported fn) eqn:Es; [|apply IH].
    cbn [map existsb List.filter].
    change (omap item_of (path_join d fn :: ?l))
      with (match item_of (path_join d fn) with
            | Some y => y :: omap item_of l
            | None => omap item_of l
            end).
    assert (Hr : raises (path_join d fn) =
                 match scan_file (path_join d fn) with Raised => true | _ => false end)
      by reflexivity.
    assert (Hi : item_of (path_join d fn) =
                 match scan_file (path_join d fn) with Returned o => o | Raised => None end)
      by reflexivity.
    assert (Hu : unreadable (path_join d fn) =
                 match scan_file (path_join d fn) with Returned None => true | _ => false end)
      by reflexivity.
    rewrite Hr, Hi, Hu. clear Hr Hi Hu.
    destruct (scan_file (path_join d fn)) as [[it|]|]; [| |reflexivity].
    + rewrite IH. cbn [orb]. destruct (existsb raises _); [reflexivity|].
      rewrite <- app_assoc. cbn [app length]. repeat (f_equal; try lia).
    + rewrite IH. cbn [orb]. destruct (existsb raises _); [reflexivity|].
      cbn [length]. repeat (f_equal; try lia).
Qed.

Lemma dir_fold (ds : list (str * list str)) its scanned skipped :
  fold_outcome dir_step (its, scanned, skipped) ds =
  if existsb raises (concat (map supported_in ds)) then Raised
  else Returned
         (its ++ omap item_of (concat (map supported_in ds)),
          (scanned + length (concat (map supported_in ds)))%nat,
          (skipped + length (List.filter unreadable (concat (map supported_in ds))))%nat).
Proof.
  revert its scanned skipped. induction ds as [|[d fns] ds IH]; intros its scanned skipped.
  - simpl. rewrite app_nil_r, !Nat.add_0_r. reflexivity.
  - rewrite fold_outcome_cons. cbn [map concat].
    change (dir_step (its, scanned, skipped) (d, fns))
      with (fold_outcome (file_step d) (its, scanned, skipped) fns).
    rewrite file_fold, existsb_app.
    destruct (existsb raises (supported_in (d, fns))); [reflexivity|].
    cbn [orb]. rewrite IH. destruct (existsb raises _); [reflexivity|].
    rewrite omap_app, List.filter_app, !length_app, <- app_assoc.
    repeat (f_equal; try lia).
Qed.

(** [scan_folder] on a root: no result when a tag read raises; otherwise
    every supported file of the walk is counted once. *)
Lemma scan_folder_cases (r : str) :
  scan_folder r =
  if existsb raises (supported_files r) then Raised
  else Returned
         (ScanResult r (length (supported_files r))
            (length (List.filter unreadable (supported_files r)))
            (length (omap item_of (supported_files r)))
            (omap item_of (supported_files r))).
Proof.
  unfold Scanner.scan_folder, supported_files. rewrite dir_fold.
  destruct (existsb raises _); reflexivity.
Qed.

Lemma scan_folder_raised (r : str) :
  scan_folder r = Raised ↔ ∃ p, p ∈ supported_files r ∧ scan_file p = Raised.
Proof.
  rewrite <- existsb_raises, scan_folder_cases.
  destruct (existsb raises (supported_files r)); split; congruence.
Qed.

(** Each file that is not skipped gives one item. *)
Lemma indexed_or_skipped (ps : list str) :
  existsb raises ps = false →
  length ps = (length (omap item_of ps) + length (List.filter unreadable ps))%nat.
Proof.
  induction ps as [|p ps IH]; [reflexivity|].
  cbn [existsb List.filter].
  change (omap item_of (p :: ps))
    with (match item_of p with
          | Some y => y :: omap item_of ps
          | None => omap item_of ps
          end).
  unfold raises at 1, item_of at 1, unreadable at 1.
  destruct (scan_file p) as [[it|]|]; cbn [orb length]; [| |discriminate];
    intros H; rewrite (IH H); lia.
Qed.

Lemma easy_pass_source (p : str) dur t a ms :
  easy_pass p = Returned (dur, t, a, ms) →
  (ms = MetaNone ∧ t = None ∧ a = None) ∨ ms = EasyTag.
Proof.
  unfold Scanner.easy_pass. destruct (open_audio p true) as [au|]; cbn.
  - destruct (read_easy_tags au) as [[t0 a0]|]; cbn; [|discriminate].
    destruct (truthy t0 || truthy a0); intros [= <- <- <- <-]; auto.
  - intros [= <- <- <- <-]. auto.
Qed.

(** When the scan of one file raises: in the easy-tag read, or in the
    raw-tag read, which is made when the easy-tag read found neither a title
    nor an artist. *)
Lemma scan_file_raised (p : str) :
  scan_file p = Raised ↔
  (∃ au, open_audio p true = Some au ∧ read_easy_tags au = Raised) ∨
  (∃ dur au, easy_pass p = Returned (dur, None, None, MetaNone) ∧
             open_audio p false = Some au ∧ read_raw_tags au = Raised).
Proof.
  unfold Scanner.scan_file. split.
  - destruct (easy_pass p) as [[[[dur t] a] ms]|] eqn:Ee; cbn.
    + intros H. right. destruct (easy_pass_source _ _ _ _ _ Ee) as [(-> & -> & ->)| ->].
      * unfold Scanner.raw_pass in H. rewrite orb_true_r in H.
        destruct (open_audio p false) as [au|]; [|discriminate H].
        cbn in H. destruct (read_raw_tags au) as [[t0 a0]|] eqn:Er; [discriminate H|].
        exists dur, au. auto.
      * unfold Scanner.raw_pass in H.
        destruct (bool_decide (dur = None) || bool_decide (EasyTag = MetaNone));
          [|discriminate H].
        destruct (open_audio p false); discriminate H.
    + intros _. left. unfold Scanner.easy_pass in Ee.
      destruct (open_audio p true) as [au|]; [|discriminate Ee].
      exists au. split; [reflexivity|].
      destruct (read_easy_tags au) as [[t0 a0]|]; [discriminate Ee | reflexivity].
  - intros [(au & Ho & Hr)|(dur & au & He & Ho & Hr)].
    + unfold Scanner.easy_pass. rewrite Ho. cbn. rewrite Hr. reflexivity.
    + rewrite He. cbn. unfold Scanner.raw_pass. rewrite orb_true_r, Ho. cbn.
      rewrite Hr. reflexivity.
Qed.

(** A file that the tag library cannot open is counted and skipped: the
    exception of [File] is caught. *)
Lemma scan_file_unopened (p : str) :
  File p true = None → File p false = None → scan_file p = Returned None.
Proof.
  intros H1 H2. unfold Scanner.scan_file, Scanner.easy_pass, Scanner.raw_pass,
    Scanner.open_audio.
  rewrite H1. cbn. rewrite H2. reflexivity.
Qed.

Lemma multi_step_cases combined stats (r : str) :
  multi_step (combined, stats) r =
  match scan_folder (resolve r) with
  | Returned res =>
      Returned (combined ++ items res,
                ScanStats (roots stats ++ [root res])
                          (total_scanned_supported stats + scanned_supported res)
                          (total_skipped_no_duration stats + skipped_no_duration res)
                          (total_indexed stats))
  | Raised => Raised
  end.
Proof. unfold Scanner.multi_step. destruct (scan_folder (resolve r)); reflexivity. Qed.

Lemma scan_index_loop_cons cancel_flag i (r : str) rs its stats :
  scan_index_loop cancel_flag i (r :: rs) (its, stats) =
  if cancel_flag i then Returned None
  else
    match scan_folder r with
    | Returned res =>
        scan_index_loop cancel_flag (S i) rs
          (its ++ items res,
           ScanStats (roots stats ++ [root res])
                     (total_scanned_supported stats + scanned_supported res)
                     (total_skipped_no_duration stats + skipped_no_duration res)
                     (total_indexed stats))
    | Raised => Raised
    end.
Proof.
  cbn [Scanner.scan_index_loop]. destruct (cancel_flag i); [reflexivity|].
  destruct (scan_folder r); reflexivity.
Qed.

Lemma multi_fold_raised (rs : list str) acc :
  fold_outcome multi_step acc rs = Raised ↔
  ∃ r, r ∈ rs ∧ scan_folder (resolve r) = Raised.
Proof.
  revert acc. induction rs as [|r rs IH]; intros [combined stats].
  - simpl. split; [discriminate | intros (r & Hr & _); inversion Hr].
  - rewrite fold_outcome_cons, multi_step_cases.
    destruct (scan_folder (resolve r)) as [res|] eqn:E.
    + rewrite IH. split; intros (r' & Hr & H); exists r'.
      * split; [right; exact Hr | exact H].
      * apply elem_of_cons in Hr as [->|Hr]; [congruence | auto].
    + split; [|reflexivity]. intros _. exists r. split; [left | exact E].
Qed.

Lemma scan_index_loop_raised cancel_flag (rs : list str) i acc :
  (∀ j, cancel_flag j = false) →
  scan_index_loop cancel_flag i rs acc = Raised ↔
  ∃ r, r ∈ rs ∧ scan_folder r = Raised.
Proof.
  intros Hc. revert i acc. induction rs as [|r rs IH]; intros i [its stats].
  - simpl. split; [discriminate | intros (r & Hr & _); inversion Hr].
  - rewrite scan_index_loop_cons, Hc.
    destruct (scan_folder r) as [res|] eqn:E.
    + rewrite IH. split; intros (r' & Hr & H); exists r'.
      * split; [right; exact Hr | exact H].
      * apply elem_of_cons in Hr as [->|Hr]; [congruence | auto].
    + split; [|reflexivity]. intros _. exists r. split; [left | exact E].
Qed.

Lemma scan_multiple_roots_cases (rs : list str) :
  scan_multiple_roots rs =
  match fold_outcome multi_step ([], ScanStats [] 0 0 0) rs with
  | Returned (combined, stats) =>
      Returned (combined,
                ScanStats (roots stats) (total_scanned_supported stats)
                          (total_skipped_no_duration stats) (length combined))
  | Raised => Raised
  end.
Proof.
  unfold Scanner.scan_multiple_roots.
  destruct (fold_outcome _ _ rs) as [[combined stats]|]; reflexivity.
Qed.

Lemma scan_index_cases cancel_flag (rs : list str) :
  scan_index cancel_flag rs =
  match scan_index_loop cancel_flag 0 rs ([], ScanStats [] 0 0 0) with
  | Returned (Some (its, stats)) =>
      Returned (Some (its,
                      ScanStats (roots stats) (total_scanned_supported stats)
                                (total_skipped_no_duration stats) (length its)))
  | Returned None => Returned None
  | Raised => Raised
  end.
Proof.
  unfold Scanner.scan_index.
  destruct (Scanner.scan_index_loop _ _ _ _ _ _ _ _ _ _ _ _ _ _) as [[[its stats]|]|];
    reflexivity.
Qed.

(** C10. A tag read that raises is not caught: the scan of the file, of its
    root, of several roots and of the index all end in the exception, and
    no statistics are returned.  The scan of a file raises when the easy-tag
    read raises or when, the easy-tag read having found neither a title nor
    an artist, the raw-tag read raises; a file that [File] cannot open is
    counted and skipped, because that call alone is guarded. *)
Theorem tag_error_aborts_scan :
  (∀ p, scan_file p = Raised ↔
        (∃ au, open_audio p true = Some au ∧ read_easy_tags au = Raised) ∨
        (∃ dur au, easy_pass p = Returned (dur, None, None, MetaNone) ∧
                   open_audio p false = Some au ∧ read_raw_tags au = Raised)) ∧
  (∀ r, scan_folder r = Raised ↔ ∃ p, p ∈ supported_files r ∧ scan_file p = Raised) ∧
  (∀ rs, scan_multiple_roots rs = Raised ↔
         ∃ r, r ∈ rs ∧ scan_folder (resolve r) = Raised) ∧
  (∀ cancel_flag rs,
     (∀ i, cancel_flag i = false) →
     (scan_index cancel_flag rs = Raised ↔ ∃ r, r ∈ rs ∧ scan_folder r = Raised)) ∧
  (∀ p, File p true = None → File p false = None → scan_file p = Returned None).
Proof.
  split; [exact scan_file_raised|]. split; [exact scan_folder_raised|]. split.
  - intros rs. rewrite scan_multiple_roots_cases.
    rewrite <- (multi_fold_raised rs ([], ScanStats [] 0 0 0)).
    destruct (fold_outcome multi_step ([], ScanStats [] 0 0 0) rs) as [[combined stats]|];
      split; congruence.
  - split; [|exact scan_file_unopened].
    intros cancel_flag rs Hc. rewrite scan_index_cases.
    rewrite <- (scan_index_loop_raised cancel_flag rs 0 ([], ScanStats [] 0 0 0) Hc).
    destruct (scan_index_loop cancel_flag 0 rs ([], ScanStats [] 0 0 0))
      as [[[its stats]|]|]; split; congruence.
Qed.

(** *** What the scan indexes *)

Lemma no_file_raises (ps : list str) :
  (∀ p, p ∈ ps → scan_file p ≠ Raised) → existsb raises ps = false.
Proof.
  intros H. destruct (existsb raises ps) eqn:E; [|reflexivity].
  apply existsb_raises in E as (p & Hp & Hr). destruct (H p Hp Hr).
Qed.

(** X21. When no tag read raises, [scan_folder] returns, and the files of
    supported extension, in walk order, decide its result: the items are
    the results of the files that have a duration, in that order;
    [scanned_supported] counts the supported files, [skipped_no_duration]
    those without a duration, and the first is the sum of [indexed] and the
    second. *)
Theorem scan_folder_items (r : str) :
  (∀ p, p ∈ supported_files r → scan_file p ≠ Raised) →
  ∃ res, scan_folder r = Returned res ∧
         items res = omap item_of (supported_files r) ∧
         scanned_supported res = length (supported_files r) ∧
         skipped_no_duration res = length (List.filter unreadable (supported_files r)) ∧
         indexed res = length (items res) ∧
         scanned_supported res = (indexed res + skipped_no_duration res)%nat ∧
         root res = r.
Proof.
  intros H. apply no_file_raises in H. rewrite scan_folder_cases, H.
  eexists. split; [reflexivity|]. cbn [items scanned_supported skipped_no_duration indexed root].
  repeat split. apply indexed_or_skipped, H.
Qed.

(** The locals after the two tag reads: either no tag was found, or the
    source says which read found one. *)
Lemma passes_source (p : str) loc dur title artist ms :
  easy_pass p = Returned loc → raw_pass p loc = Returned (dur, title, artist, ms) →
  (ms = MetaNone ∧ title = None ∧ artist = None) ∨ ms = EasyTag ∨ ms = RawTag.
Proof.
  destruct loc as [[[dur0 t0] a0] ms0]. intros He Hr.
  apply easy_pass_source in He. unfold Scanner.raw_pass in Hr.
  destruct (bool_decide (dur0 = None) || bool_decide (ms0 = MetaNone)).
  - destruct (open_audio p false) as [au|].
    + destruct (bool_decide (ms0 = MetaNone)).
      * cbn in Hr. destruct (read_raw_tags au) as [[t1 a1]|]; [|discriminate Hr].
        cbn in Hr. destruct (truthy t1 || truthy a1).
        -- injection Hr as <- <- <- <-. auto.
        -- injection Hr as <- <- <- <-. destruct He as [(-> & -> & ->)| ->]; auto.
      * injection Hr as <- <- <- <-. destruct He as [(-> & -> & ->)| ->]; auto.
    + injection Hr as <- <- <- <-. destruct He as [(-> & -> & ->)| ->]; auto.
  - injection Hr as <- <- <- <-. destruct He as [(-> & -> & ->)| ->]; auto.
Qed.

Lemma truthy_some (o : option str) : truthy o = true → ∃ s, o = Some s ∧ s ≠ [].
Proof. destruct o as [[|c s]|]; simpl; try discriminate. intros _. eexists. split; [reflexivity | discriminate]. Qed.

(** X22. An index item tells where its metadata come from.  Its path is
    the path of the file.  Its source is never the value [none].  When the
    source is the file name or the path guess, no tag was read: the title is
    the one derived from the file name, and the artist is the non-empty
    guess made from the path (source path guess) or absent because the path
    gave no guess (source file name).  Whatever the source, the title is a
    non-empty tag or the one derived from the file name. *)
Theorem scan_file_source (p : str) (it : index_item) :
  scan_file p = Returned (Some it) →
  path it = p ∧ source it ≠ MetaNone ∧
  ((source it = Filename ∨ source it = PathGuess) → title it = filename_title p) ∧
  (source it = PathGuess →
     ∃ ag, guess_artist_from_path p = Some ag ∧ ag ≠ [] ∧ artist it = Some ag) ∧
  (source it = Filename →
     artist it = None ∧
     (guess_artist_from_path p = None ∨ guess_artist_from_path p = Some [])) ∧
  (title it = filename_title p ∨ title it ≠ []).
Proof.
  unfold Scanner.scan_file.
  destruct (easy_pass p) as [loc|] eqn:Ee; [|discriminate]. cbn.
  destruct (raw_pass p loc) as [[[[dur title] artist] ms]|] eqn:Er; [|discriminate]. cbn.
  pose proof (passes_source _ _ _ _ _ _ Ee Er) as Hs. clear Ee Er.
  destruct dur as [d|]; [|discriminate].
  assert (Ht : (if truthy title then default [] title else filename_title p) = filename_title p ∨
               (if truthy title then default [] title else filename_title p) ≠ []).
  { destruct (truthy title) eqn:Et; [|left; reflexivity].
    apply truthy_some in Et as (s & -> & Hs'). right. exact Hs'. }
  destruct Hs as [(-> & -> & ->)|[-> | ->]].
  - simpl. destruct (guess_artist_from_path p) as [[|c ag]|] eqn:Eg; intros [= <-]; simpl;
      repeat split; try discriminate; auto;
      try (intros _; eexists; split; [reflexivity | split; [discriminate | reflexivity]]).
  - destruct (truthy title), (truthy artist);
      try destruct (guess_artist_from_path p) as [[|c ag]|];
      intros [= <-]; simpl in *; repeat split; try discriminate; auto;
      intros [H|H]; discriminate H.
  - destruct (truthy title), (truthy artist);
      try destruct (guess_artist_from_path p) as [[|c ag]|];
      intros [= <-]; simpl in *; repeat split; try discriminate; auto;
      intros [H|H]; discriminate H.
Qed.

Lemma scan_index_loop_multi cancel_flag (rs : list str) i acc :
  (∀ j, (j < length rs)%nat → cancel_flag (i + j)%nat = false) →
  Forall (fun r => resolve r = r) rs →
  scan_index_loop cancel_flag i rs acc = (Some <$> fold_outcome multi_step acc rs).
Proof.
  revert i acc. induction rs as [|r rs IH]; intros i [its stats] Hc Hr; [reflexivity|].
  rewrite scan_index_loop_cons, fold_outcome_cons, multi_step_cases.
  rewrite <- (Nat.add_0_r i) at 1. rewrite (Hc 0%nat) by (simpl; lia).
  rewrite (Forall_inv Hr).
  destruct (scan_folder r) as [res|]; [|reflexivity].
  apply IH; [|exact (Forall_inv_tail Hr)].
  intros j Hj. replace (S i + j)%nat with (i + S j)%nat by lia. apply Hc. simpl. lia.
Qed.

Lemma scan_index_loop_cancelled cancel_flag (rs : list str) i acc :
  scan_index_loop cancel_flag i rs acc = Returned None ↔
  ∃ j, (j < length rs)%nat ∧ cancel_flag (i + j)%nat = true ∧
       (∀ k, (k < j)%nat → cancel_flag (i + k)%nat = false) ∧
       (∀ r, r ∈ take j rs → scan_folder r ≠ Raised).
Proof.
  revert i acc. induction rs as [|r rs IH]; intros i [its stats].
  - simpl. split; [discriminate | intros (j & Hj & _); lia].
  - rewrite scan_index_loop_cons. destruct (cancel_flag i) eqn:Ec.
    + split; [|reflexivity]. intros _. exists 0%nat. rewrite Nat.add_0_r.
      split; [simpl; lia|]. split; [exact Ec|]. split; [intros k Hk; lia|].
      intros r' Hr'. inversion Hr'.
    + destruct (scan_folder r) as [res|] eqn:Es.
      * rewrite IH. split.
        -- intros (j & Hj & Hc & Hk & Hr). exists (S j).
           split; [simpl; lia|].
           split; [replace (i + S j)%nat with (S i + j)%nat by lia; exact Hc|].
           split.
           ++ intros k Hk'. destruct k as [|k]; [rewrite Nat.add_0_r; exact Ec|].
              replace (i + S k)%nat with (S i + k)%nat by lia. apply Hk. lia.
           ++ intros r' Hr'. cbn [take] in Hr'.
              apply elem_of_cons in Hr' as [->|Hr']; [congruence | apply Hr, Hr'].
        -- intros (j & Hj & Hc & Hk & Hr). destruct j as [|j].
           { rewrite Nat.add_0_r in Hc. congruence. }
           exists j. split; [simpl in Hj; lia|].
           split; [replace (S i + j)%nat with (i + S j)%nat by lia; exact Hc|].
           split.
           ++ intros k Hk'. replace (S i + k)%nat with (i + S k)%nat by lia.
              apply Hk. lia.
           ++ intros r' Hr'. apply Hr. cbn [take]. right. exact Hr'.
      * split; [discriminate|]. intros (j & Hj & Hc & Hk & Hr). destruct j as [|j].
        { rewrite Nat.add_0_r in Hc. congruence. }
        exfalso. apply (Hr r); [cbn [take]; left | exact Es].
Qed.

(** X23. [TaskRunner.scan_index] and [scan_multiple_roots] are the same
    scan of roots that are already absolute and resolved: when the cancel
    predicate never answers yes and [resolve] leaves every root as it is,
    [scan_index] returns the items and the statistics that
    [scan_multiple_roots] returns, and raises when it raises.  [scan_index]
    returns the cancelled result exactly when the predicate first answers
    yes before a root that the scan reaches without an exception. *)
Theorem scan_index_is_multi_scan (cancel_flag : nat → bool) (rs : list str) :
  ((∀ i, (i < length rs)%nat → cancel_flag i = false) →
   Forall (fun r => resolve r = r) rs →
   scan_index cancel_flag rs = (Some <$> scan_multiple_roots rs)) ∧
  (scan_index cancel_flag rs = Returned None ↔
   ∃ i, (i < length rs)%nat ∧ cancel_flag i = true ∧
        (∀ j, (j < i)%nat → cancel_flag j = false) ∧
        (∀ r, r ∈ take i rs → scan_folder r ≠ Raised)).
Proof.
  split.
  - intros Hc Hr. rewrite scan_index_cases, scan_multiple_roots_cases.
    rewrite (scan_index_loop_multi cancel_flag rs 0 _ Hc Hr).
    destruct (fold_outcome multi_step ([], ScanStats [] 0 0 0) rs) as [[its stats]|];
      reflexivity.
  - rewrite <- (scan_index_loop_cancelled cancel_flag rs 0 ([], ScanStats [] 0 0 0)).
    rewrite scan_index_cases.
    destruct (scan_index_loop cancel_flag 0 rs ([], ScanStats [] 0 0 0))
      as [[[its stats]|]|]; split; congruence.
Qed.

End ScanAccounting.

(** A library of one file, an Ogg Vorbis file with a duration whose comments
    hold neither a title nor an artist: both calls of [File] return an audio
    object, the easy-tag read finds nothing, and the raw-tag read raises. *)
Definition vorbis_walk (r : str) : list (str * list str) := [(r, [lit "a.ogg"])].

Lemma tag_error_aborts_scan_witness :
  Scanner.scan_folder unit (fun _ _ => Some tt) (fun _ => true) (fun _ => Some 200%Z)
    (fun _ => Scanner.Returned (None, None)) (fun _ => Scanner.Raised) (fun p => p)
    (fun _ => None) (fun d f => d ++ f) vorbis_walk (lit "/m/")
  = Scanner.Raised ∧
  Scanner.scan_folder unit (fun _ _ => None) (fun _ => true) (fun _ => Some 200%Z)
    (fun _ => Scanner.Returned (None, None)) (fun _ => Scanner.Raised) (fun p => p)
    (fun _ => None) (fun d f => d ++ f) vorbis_walk (lit "/m/")
  = Scanner.Returned (Scanner.ScanResult (lit "/m/") 1 1 0 []).
Proof.
  split; [|vm_compute; reflexivity].
  apply (proj1 (proj2 (tag_error_aborts_scan unit (fun _ _ => Some tt) (fun _ => true)
                         (fun _ => Some 200%Z) (fun _ => Scanner.Returned (None, None))
                         (fun _ => Scanner.Raised) (fun p => p) (fun _ => None)
                         (fun d f => d ++ f) vorbis_walk (fun r => r)))).
  exists (lit "/m/a.ogg"). split; [vm_compute; left | reflexivity].
Defined.

(** A library of three files: one with tags and a duration, one that the
    tag library cannot open, and one that is no audio file. *)
Definition small_walk (r : str) : list (str * list str) :=
  [(r, [lit "a.mp3"; lit "b.mp3"; lit "notes.txt"])].
Definition opens_a (p : str) (easy : bool) : option unit :=
  if str_eqb p (lit "/m/a.mp3") then Some tt else None.

Lemma scan_folder_items_witness :
  ∃ res,
    Scanner.scan_folder unit opens_a (fun _ => true) (fun _ => Some 200%Z)
      (fun _ => Scanner.Returned (Some (lit "Song"), Some (lit "Art")))
      (fun _ => Scanner.Raised) (fun p => p) (fun _ => None) (fun d f => d ++ f)
      small_walk (lit "/m/") = Scanner.Returned res ∧
    Scanner.items res =
      [Scanner.IndexItem (lit "/m/a.mp3") 200 (lit "Song") (Some (lit "Art"))
                         Scanner.EasyTag] ∧
    Scanner.scanned_supported res = 2%nat ∧
    Scanner.scanned_supported res =
      (Scanner.indexed res + Scanner.skipped_no_duration res)%nat.
Proof.
  destruct (scan_folder_items unit opens_a (fun _ => true) (fun _ => Some 200%Z)
              (fun _ => Scanner.Returned (Some (lit "Song"), Some (lit "Art")))
              (fun _ => Scanner.Raised) (fun p => p) (fun _ => None) (fun d f => d ++ f)
              small_walk (lit "/m/"))
    as (res & E & Hi & Hn & _ & _ & Hb & _).
  - intros p Hp. vm_compute in Hp.
    apply elem_of_cons in Hp as [->|Hp]; [vm_compute; discriminate|].
    apply elem_of_cons in Hp as [->|Hp]; [vm_compute; discriminate|].
    inversion Hp.
  - exists res. split; [exact E|]. split; [rewrite Hi; vm_compute; reflexivity|].
    split; [rewrite Hn; vm_compute; reflexivity | exact Hb].
Defined.

Lemma scan_file_source_witness :
  let it := Scanner.IndexItem (lit "/m/Artist/01 Song.mp3") 200 (lit "Song")
                              (Some (lit "Artist")) Scanner.PathGuess in
  Scanner.scan_file unit (fun _ _ => Some tt) (fun _ => true) (fun _ => Some 200%Z)
    (fun _ => Scanner.Returned (None, None)) (fun _ => Scanner.Returned (None, None))
    (fun _ => lit "Song") (fun _ => Some (lit "Artist")) (lit "/m/Artist/01 Song.mp3")
  = Scanner.Returned (Some it) ∧
  Scanner.source it ≠ Scanner.MetaNone.
Proof.
  intros it. split; [reflexivity|].
  exact (proj1 (proj2 (scan_file_source unit (fun _ _ => Some tt) (fun _ => true)
                         (fun _ => Some 200%Z) (fun _ => Scanner.Returned (None, None))
                         (fun _ => Scanner.Returned (None, None))
                         (fun _ => lit "Song") (fun _ => Some (lit "Artist"))
                         (lit "/m/Artist/01 Song.mp3") it eq_refl))).
Defined.

Lemma scan_index_is_multi_scan_witness :
  Scanner.scan_index unit opens_a (fun _ => true) (fun _ => Some 200%Z)
    (fun _ => Scanner.Returned (Some (lit "Song"), Some (lit "Art")))
    (fun _ => Scanner.Raised) (fun p => p) (fun _ => None) (fun d f => d ++ f)
    small_walk (fun _ => false) [lit "/m/"]
  = Scanner.Returned
      (Some ([Scanner.IndexItem (lit "/m/a.mp3") 200 (lit "Song") (Some (lit "Art"))
                                Scanner.EasyTag],
             Scanner.ScanStats [lit "/m/"] 2 1 1)).
Proof.
  rewrite (proj1 (scan_index_is_multi_scan unit opens_a (fun _ => true)
                    (fun _ => Some 200%Z)
                    (fun _ => Scanner.Returned (Some (lit "Song"), Some (lit "Art")))
                    (fun _ => Scanner.Raised) (fun p => p) (fun _ => None)
                    (fun d f => d ++ f) small_walk (fun r => r) (fun _ => false)
                    [lit "/m/"])).
  - vm_compute. reflexivity.
  - intros i _. reflexivity.
  - repeat constructor.
Defined.

(** ** Stripping *)
Section Stripping.

Lemma drop_while_idem p (s : str) : drop_while p (drop_while p s) = drop_while p s.
Proof.
  induction s as [|c s IH]; simpl; [reflexivity|].
  destruct (p c) eqn:E; [exact IH|]. simpl. rewrite E. reflexivity.
Qed.

Lemma drop_while_app_stop p (l : str) c r :
  p c = false → drop_while p (l ++ c :: r) = drop_while p l ++ c :: r.
Proof.
  intros Hc. induction l as [|x l IH]; simpl.
  - rewrite Hc. reflexivity.
  - destruct (p x); [exact IH | reflexivity].
Qed.

Lemma drop_while_all p (s : str) :
  forallb p s = true → drop_while p s = [].
Proof.
  induction s as [|c s IH]; simpl; [reflexivity|].
  destruct (p c); simpl; [exact IH | discriminate].
Qed.

Lemma drop_while_stop p c (s : str) : p c = false → drop_while p (c :: s) = c :: s.
Proof. intros H. simpl. rewrite H. reflexivity. Qed.

(** The first character left by [drop_while] fails the test. *)
Lemma drop_while_head p (s : str) c t : drop_while p s = c :: t → p c = false.
Proof.
  induction s as [|x s IH]; simpl; [discriminate|].
  destruct (p x) eqn:E; [exact IH|]. intros [= <- _]. exact E.
Qed.

(** A string without whitespace at either end. *)
Definition trimmed (s : str) : Prop :=
  drop_while is_space s = s ∧ drop_while is_space (rev s) = rev s.

Lemma trimmed_strip (s : str) : trimmed s → strip s = s.
Proof.
  intros [H1 H2]. unfold strip, lstrip, rstrip. rewrite H1, H2. apply rev_involutive.
Qed.

Lemma strip_trimmed (s : str) : trimmed (strip s).
Proof.
  unfold trimmed, strip, lstrip, rstrip. rewrite rev_involutive, drop_while_idem.
  split; [|reflexivity].
  destruct (drop_while is_space s) as [|c t] eqn:E; [reflexivity|].
  pose proof (drop_while_head _ _ _ _ E) as Hc.
  simpl rev. rewrite drop_while_app_stop by exact Hc.
  rewrite rev_app_distr. simpl. rewrite Hc. reflexivity.
Qed.

Lemma strip_idem (s : str) : strip (strip s) = strip s.
Proof. apply trimmed_strip, strip_trimmed. Qed.

End Stripping.

(** ** Final path resolution *)
Section FinalPath.
Import Runner.






Lemma any_in_nil kws : existsb (fun k => negb (nonempty k)) kws = false → any_in kws [] = false.
Proof.
  unfold any_in. induction kws as [|k kws IH]; simpl; [reflexivity|].
  destruct k; simpl; [discriminate|]. exact IH.
Qed.








End FinalPath.




(** ** The final playlist *)
Section FinalPlaylist.
Import Runner.

Lemma export_lines_head (sel : gmap str str) rows :
  head (export_lines sel rows) = Some (lit "#EXTM3U").
Proof. reflexivity. Qed.

(** Every row contributes its EXTINF column, when it has one, and then
    exactly one path line. *)
Lemma export_row_shape (sel : gmap str str) r :
  let extinf_line := strip (get2_or_empty r "extinf_line" "extinf") in
  export_row sel r =
    if nonempty extinf_line then [extinf_line; export_path sel r]
    else [export_path sel r].
Proof. simpl. unfold export_row. destruct (nonempty _); reflexivity. Qed.

Ltac key_ne := let H := fresh in intros H; vm_compute in H; discriminate H.

(** A row written by [repair_playlist] has no column from which the export
    could take an EXTINF line. *)
Lemma repair_row_has_no_extinf i (row : Repair.report_row) :
  get2_or_empty (read_row i (csv_dict row)) "extinf_line" "extinf" = [].
Proof.
  assert (Hri : delete (lit "_i") (csv_dict row) !! lit "row_index" = None).
  { rewrite lookup_delete_ne by key_ne. unfold csv_dict. simpl.
    rewrite !lookup_insert_ne by key_ne. apply lookup_empty. }
  unfold read_row. rewrite Hri.
  unfold get2_or_empty, get_or_empty, get. simpl.
  rewrite !lookup_insert_ne by key_ne. rewrite !lookup_delete_ne by key_ne.
  unfold csv_dict. simpl. rewrite !lookup_insert_ne by key_ne.
  rewrite lookup_empty. reflexivity.
Qed.

(** Whatever the playlist and the index, the playlist exported from the
    report of [repair_playlist] is the header line followed by one path line
    per row: none of the EXTINF lines of the source playlist is written. *)
Lemma export_rows_without_extinf (sel : gmap str str) (f : nat → gmap str str → report_dict) rows :
  (∀ i row, get2_or_empty (f i (csv_dict row)) "extinf_line" "extinf" = []) →
  concat (map (export_row sel) (imap f (map csv_dict rows))) =
  map (export_path sel) (imap f (map csv_dict rows)).
Proof.
  revert f. induction rows as [|row rows IH]; intros f Hf; [reflexivity|].
  cbn [map imap concat].
  rewrite export_row_shape, Hf. change (strip []) with (@nil N). cbn [nonempty app].
  f_equal. apply IH. intros i r. apply Hf.
Qed.

Lemma export_of_repair_report (sel : gmap str str) (st : Repair.state) :
  export_lines sel (read_report_rows (report_file st)) =
  lit "#EXTM3U" :: map (export_path sel) (read_report_rows (report_file st)).
Proof.
  unfold export_lines, report_file, read_report_rows. f_equal.
  apply export_rows_without_extinf, repair_row_has_no_extinf.
Qed.

(** C9, at the failing input. A playlist with one EXTINF unit whose file is
    on disk: the report holds one KEPT row, and the exported playlist is the
    header line and the path line, without the EXTINF line of the unit. *)
Theorem export_after_repair_drops_extinf :
  let lines := [lit "#EXTM3U"; lit "#EXTINF:200,Art - Song"; lit "/music/a.mp3"] in
  let st := Repair.repair_playlist (fun _ => true) [] 2 lines in
  Repair.report_rows st =
    [Repair.Row Repair.KEPT (Some 200%Z) (Some (lit "Art - Song"))
                (lit "/music/a.mp3") (lit "/music/a.mp3") []] ∧
  export_lines ∅ (read_report_rows (report_file st)) =
    [lit "#EXTM3U"; lit "/music/a.mp3"].
Proof. split; vm_compute; reflexivity. Qed.

End FinalPlaylist.

(** ** Jaccard similarity *)
Section Jaccard.

Lemma tokens_none : tokens None = ∅.
Proof. reflexivity. Qed.

Lemma tokens_empty : tokens (Some []) = ∅.
Proof. reflexivity. Qed.

Lemma jaccard_comm (a b : option str) : jaccard a b = jaccard b a.
Proof.
  unfold jaccard.
  rewrite (orb_comm (bool_decide (tokens a = ∅))).
  assert (Hi : tokens b ∩ tokens a = tokens a ∩ tokens b) by set_solver.
  assert (Hu : tokens b ∪ tokens a = tokens a ∪ tokens b) by set_solver.
  rewrite Hi, Hu. reflexivity.
Qed.

Lemma ratio_diag (n : nat) : n ≠ 0%nat → ratio n n = 1%Q.
Proof.
  intros Hn. unfold ratio.
  change 1%Q with (Qred 1). apply Qred_complete.
  unfold Qeq. simpl. rewrite Z.mul_1_r, Z.mul_1_l.
  destruct n as [|n]; [congruence|].
  rewrite <- positive_nat_Z, Nat2Pos.id by discriminate. reflexivity.
Qed.

Lemma jaccard_diag (x : option str) : tokens x ≠ ∅ → jaccard x x = 1%Q.
Proof.
  intros Hx. unfold jaccard.
  rewrite (bool_decide_eq_false_2 _ Hx). simpl.
  assert (Hi : tokens x ∩ tokens x = tokens x) by set_solver.
  assert (Hu : tokens x ∪ tokens x = tokens x) by set_solver.
  rewrite Hi, Hu.
  assert (Hs : size (tokens x) ≠ 0%nat).
  { intros H. apply size_empty_iff in H. apply Hx. apply leibniz_equiv, H. }
  rewrite (bool_decide_eq_false_2 _ Hs). apply ratio_diag, Hs.
Qed.

Lemma jaccard_empty_l (a b : option str) : tokens a = ∅ → jaccard a b = 0%Q.
Proof. intros H. unfold jaccard. rewrite H, bool_decide_eq_true_2 by reflexivity. reflexivity. Qed.

(** C7 (as amended). [jaccard] is symmetric; it is [1.0] on the diagonal for
    every string that has at least one token; and it is [0.0] as soon as one
    argument is absent, empty, or without tokens. *)
Theorem jaccard_symmetric_diag_zero :
  (∀ a b, jaccard a b = jaccard b a) ∧
  (∀ x, tokens x ≠ ∅ → jaccard x x = 1%Q) ∧
  (∀ a b, (a = None ∨ a = Some [] ∨ b = None ∨ b = Some [] ∨
           tokens a = ∅ ∨ tokens b = ∅) → jaccard a b = 0%Q).
Proof.
  split; [exact jaccard_comm|]. split; [exact jaccard_diag|].
  intros a b H.
  assert (Hab : tokens a = ∅ ∨ tokens b = ∅).
  { destruct H as [->|[->|[->|[->|[H|H]]]]]; auto. }
  destruct Hab as [H'|H'].
  - apply jaccard_empty_l, H'.
  - rewrite jaccard_comm. apply jaccard_empty_l, H'.
Qed.

Lemma jaccard_symmetric_diag_zero_witness :
  tokens (Some (lit "loaded gun")) ≠ ∅ ∧
  jaccard (Some (lit "loaded gun")) (Some (lit "loaded gun")) = 1%Q.
Proof.
  assert (H : tokens (Some (lit "loaded gun")) ≠ ∅).
  { intros H. apply (f_equal size) in H. vm_compute in H. discriminate H. }
  split; [exact H|].
  apply (proj1 (proj2 jaccard_symmetric_diag_zero)). exact H.
Defined.

(** C7, counterexample. The string made of one hyphen is not empty, has no
    token, and its similarity with itself is [0.0]. *)
Lemma jaccard_diag_counterexample :
  lit "-" ≠ [] ∧
  jaccard (Some (lit "-")) (Some (lit "-")) = 0%Q ∧
  jaccard (Some (lit "-")) (Some (lit "-")) ≠ 1%Q.
Proof.
  split; [vm_compute; discriminate|].
  split; [vm_compute; reflexivity|].
  vm_compute. discriminate.
Qed.

End Jaccard.

(** ** The duration window *)
Section DurationWindow.

(** The bucket entries of an index, in index order. *)
Definition entries (music_index : list item) : list entry :=
  omap bucket_entry music_index.

Definition has_duration (d : Z) (e : entry) : bool := (duration e =? d)%Z.

Lemma bucket_fold_lookup music_index (m : gmap Z (list entry)) d :
  default [] (foldl bucket_add m music_index !! d) =
  default [] (m !! d) ++ List.filter (has_duration d) (entries music_index).
Proof.
  revert m. induction music_index as [|it idx IH]; intros m; simpl.
  - rewrite app_nil_r. reflexivity.
  - rewrite IH. unfold entries, bucket_add. simpl.
    destruct (bucket_entry it) as [e|]; simpl; [|reflexivity].
    unfold has_duration at 2. destruct (Z.eqb_spec (duration e) d) as [->|Hne].
    + rewrite lookup_insert_eq. simpl. rewrite <- app_assoc. reflexivity.
    + rewrite lookup_insert_ne by exact Hne. reflexivity.
Qed.

(** A bucket holds the entries of its duration, in index order. *)
Lemma by_dur_lookup music_index d :
  default [] (build_by_dur music_index !! d) =
  List.filter (has_duration d) (entries music_index).
Proof. unfold build_by_dur. rewrite bucket_fold_lookup, lookup_empty. reflexivity. Qed.

Lemma candidates_buckets music_index tol dur :
  candidates (build_by_dur music_index) tol dur =
  concat (map (fun d => List.filter (has_duration d) (entries music_index))
              (py_range (dur - tol) (dur + tol + 1))).
Proof.
  unfold candidates. f_equal. apply map_ext. intros d. apply by_dur_lookup.
Qed.

Lemma elem_of_filter_bool {A} (p : A → bool) (l : list A) (x : A) :
  x ∈ List.filter p l ↔ x ∈ l ∧ p x = true.
Proof. rewrite !list_elem_of_In. apply filter_In. Qed.

Lemma elem_of_seqZ (m n x : Z) : x ∈ seqZ m n ↔ (m ≤ x < m + n)%Z.
Proof.
  rewrite list_elem_of_lookup. split.
  - intros [i Hi]. apply lookup_seqZ in Hi. lia.
  - intros H. exists (Z.to_nat (x - m)). apply lookup_seqZ. lia.
Qed.

Lemma elem_of_candidates music_index tol dur e :
  e ∈ candidates (build_by_dur music_index) tol dur ↔
  e ∈ entries music_index ∧ (dur - tol ≤ duration e ≤ dur + tol)%Z.
Proof.
  rewrite candidates_buckets. unfold py_range.
  rewrite list_elem_of_In, in_concat. split.
  - intros (l & Hl & He). apply in_map_iff in Hl as (d & <- & Hd).
    apply list_elem_of_In, elem_of_filter_bool in He as [He Hdur].
    unfold has_duration in Hdur. apply Z.eqb_eq in Hdur. subst d.
    apply list_elem_of_In, elem_of_seqZ in Hd. split; [exact He | lia].
  - intros [He Hw]. eexists. split.
    + apply in_map_iff. exists (duration e). split; [reflexivity|].
      apply list_elem_of_In, elem_of_seqZ. lia.
    + apply list_elem_of_In, elem_of_filter_bool. split; [exact He|].
      unfold has_duration. apply Z.eqb_refl.
Qed.

(** An index with one entry at each of the durations 197, 198, 202, 203. *)
Definition boundary_index : list item :=
  [ Item (Some (lit "Low")) (Some (lit "A")) (Some 197%Z) (Some (lit "/m/197.mp3"));
    Item (Some (lit "Near")) (Some (lit "A")) (Some 198%Z) (Some (lit "/m/198.mp3"));
    Item (Some (lit "Far")) (Some (lit "A")) (Some 202%Z) (Some (lit "/m/202.mp3"));
    Item (Some (lit "High")) (Some (lit "A")) (Some 203%Z) (Some (lit "/m/203.mp3")) ].

(** C2 (as amended). The candidates are the index entries that pass the
    guard of the bucket loop (normalised title and artist both present, a
    duration, a non-empty path) and whose duration lies in the inclusive
    interval; none of these is left out; with tolerance 2 around 200 the
    entries at 198 and 202 are candidates and those at 197 and 203 are not. *)
Theorem candidates_window :
  (∀ music_index tol dur e,
     e ∈ candidates (build_by_dur music_index) tol dur ↔
     (∃ it, it ∈ music_index ∧ bucket_entry it = Some e) ∧
     (dur - tol ≤ duration e ≤ dur + tol)%Z) ∧
  candidates (build_by_dur boundary_index) DUR_TOL_DEFAULT 200 =
    [ Entry (lit "near") (lit "a") 198 (lit "/m/198.mp3");
      Entry (lit "far") (lit "a") 202 (lit "/m/202.mp3") ].
Proof.
  split; [|vm_compute; reflexivity].
  intros music_index tol dur e. rewrite elem_of_candidates. unfold entries.
  rewrite list_elem_of_omap. reflexivity.
Qed.

(** C2, counterexample. An index entry without artist, of duration 200: it
    lies in the window of the query 200 with tolerance 2, and the candidate
    list is empty. *)
Lemma candidates_skip_artistless_counterexample :
  let it := Item (Some (lit "Song")) None (Some 200%Z) (Some (lit "/m/song.flac")) in
  it ∈ [it] ∧ it_duration it = Some 200%Z ∧ (200 - 2 ≤ 200 ≤ 200 + 2)%Z ∧
  candidates (build_by_dur [it]) 2 200 = [].
Proof.
  simpl. split; [left|]. split; [reflexivity|]. split; [lia|]. vm_compute. reflexivity.
Qed.

End DurationWindow.

(** ** The tiers of [find_matches] *)
Section Tiers.

(** The exact tier in the words of the specification: normalised title equal
    to the query title and, when a query artist is given, normalised artist
    equal to it. *)
Definition exact_spec (cand : list entry) (title_n artist_n : option str) : list entry :=
  List.filter
    (fun s => bool_decide (Some (title s) = title_n) &&
              (bool_decide (artist_n = None) || bool_decide (Some (artist s) = artist_n)))
    cand.

(** The fuzzy tier in the words of the specification. *)
Definition fuzzy_spec (cand : list entry) (title_n artist_n : option str) : list entry :=
  List.filter
    (fun s =>
       match artist_n with
       | Some a => bool_decide (artist s = a) && ge_085 (jaccard title_n (Some (title s)))
       | None => ge_090 (jaccard title_n (Some (title s)))
       end)
    cand.

Lemma filter_ext_in_bool {A} (p q : A → bool) (l : list A) :
  (∀ x, x ∈ l → p x = q x) → List.filter p l = List.filter q l.
Proof.
  intros H. apply filter_ext_in. intros x Hx. apply H, list_elem_of_In, Hx.
Qed.

Lemma filter_none {A} (p : A → bool) (l : list A) :
  (∀ x, x ∈ l → p x = false) → List.filter p l = [].
Proof.
  induction l as [|x l IH]; intros H; simpl; [reflexivity|].
  rewrite (H x) by left. apply IH. intros y Hy. apply H. right. exact Hy.
Qed.

Lemma or_none_some (s t : str) : or_none s = Some t → t ≠ [] ∧ s = t.
Proof.
  unfold or_none. destruct s; simpl; [discriminate|]. intros [= <-]. split; [discriminate | reflexivity].
Qed.

Lemma norm_some_nonempty (s : option str) (t : str) : norm s = Some t → t ≠ [].
Proof.
  destruct s as [[|c s]|]; simpl; try discriminate.
  intros H. apply or_none_some in H. tauto.
Qed.

Lemma bucket_entry_title it e : bucket_entry it = Some e → title e ≠ [].
Proof.
  unfold bucket_entry.
  destruct (norm (it_title it)) as [t|] eqn:Et; [|discriminate].
  destruct (norm (it_artist it)), (it_duration it), (it_path it) as [p|]; try discriminate.
  destruct (nonempty p); [|discriminate].
  intros [= <-]. simpl. eapply norm_some_nonempty, Et.
Qed.

Lemma candidates_title music_index tol dur e :
  e ∈ candidates (build_by_dur music_index) tol dur → title e ≠ [].
Proof.
  intros H. apply elem_of_candidates in H as [H _]. unfold entries in H.
  apply list_elem_of_omap in H as (it & _ & H). eapply bucket_entry_title, H.
Qed.

Lemma ge_thresholds_zero : ge_085 0%Q = false ∧ ge_090 0%Q = false.
Proof. split; reflexivity. Qed.

Lemma exact_of_spec (t : str) artist_n cand :
  exact_of t artist_n cand = exact_spec cand (Some t) artist_n.
Proof.
  unfold exact_of, exact_spec. apply filter_ext_in_bool. intros s _.
  unfold str_eqb, artist_ok. f_equal.
  - apply bool_decide_ext. split; congruence.
  - destruct artist_n as [a|]; simpl; [|reflexivity].
    unfold str_eqb. apply bool_decide_ext. split; congruence.
Qed.

Lemma fuzzy_of_spec (t : str) artist_n cand :
  fuzzy_of t artist_n cand = fuzzy_spec cand (Some t) artist_n.
Proof.
  unfold fuzzy_of, fuzzy_spec. apply filter_ext_in_bool. intros s _.
  rewrite (jaccard_comm (Some t)).
  destruct artist_n as [a|]; [|reflexivity].
  unfold str_eqb. destruct (bool_decide (artist s = a)); reflexivity.
Qed.

Lemma fuzzy_spec_no_title cand title_n artist_n :
  tokens title_n = ∅ → fuzzy_spec cand title_n artist_n = [].
Proof.
  intros H. unfold fuzzy_spec. apply filter_none. intros s _.
  rewrite (jaccard_empty_l _ _ H).
  destruct artist_n; [apply andb_false_r | reflexivity].
Qed.

(** [find_matches] is the exact tier when it is not empty, and the fuzzy
    tier otherwise; the early return on an empty candidate list or an absent
    title agrees with this. *)
Lemma find_matches_spec music_index tol title_n artist_n dur :
  let cand := candidates (build_by_dur music_index) tol dur in
  find_matches (build_by_dur music_index) tol title_n artist_n dur =
  match exact_spec cand title_n artist_n with
  | [] => fuzzy_spec cand title_n artist_n
  | exact => exact
  end.
Proof.
  intros cand. unfold find_matches.
  change (candidates (build_by_dur music_index) tol dur) with cand.
  assert (Ht : ∀ s, s ∈ cand → title s ≠ []) by (intros s; apply candidates_title).
  clearbody cand.
  destruct title_n as [[|t0 t]|].
  - rewrite (fuzzy_spec_no_title cand (Some [])) by reflexivity.
    unfold exact_spec. rewrite filter_none; [destruct cand; reflexivity|].
    intros s Hs. apply andb_false_iff. left. apply bool_decide_eq_false.
    intros [= H]. exact (Ht s Hs H).
  - destruct cand as [|c cand']; [reflexivity|].
    rewrite exact_of_spec, fuzzy_of_spec.
    destruct (exact_spec (c :: cand') (Some (t0 :: t)) artist_n) as [|e1 [|e2 ex]];
      reflexivity.
  - rewrite (fuzzy_spec_no_title cand None) by reflexivity.
    unfold exact_spec. rewrite filter_none; [destruct cand; reflexivity|].
    intros s _. apply andb_false_iff. left. apply bool_decide_eq_false. discriminate.
Qed.

(** C3. Over the candidates of the duration window: a single exact match is
    returned alone; several exact matches are returned all together, without
    the fuzzy tier; and the fuzzy tier (same artist and title similarity at
    least 0.85 when an artist is given, title similarity at least 0.90 when
    none is) is the result exactly when the exact tier is empty. *)
Theorem find_matches_tiers music_index tol title_n artist_n dur :
  let cand := candidates (build_by_dur music_index) tol dur in
  let exact := exact_spec cand title_n artist_n in
  let result := find_matches (build_by_dur music_index) tol title_n artist_n dur in
  (∀ e, exact = [e] → result = [e]) ∧
  ((1 < length exact)%nat → result = exact) ∧
  (exact = [] → result = fuzzy_spec cand title_n artist_n) ∧
  (exact ≠ [] → result = exact).
Proof.
  intros cand exact result. unfold result. rewrite find_matches_spec. fold cand. fold exact.
  repeat split.
  - intros e ->. reflexivity.
  - destruct exact; simpl; [lia | reflexivity].
  - intros ->. reflexivity.
  - destruct exact; [congruence | reflexivity].
Qed.

(** An index with two tracks of the same normalised title and artist. *)
Definition twin_index : list item :=
  [ Item (Some (lit "Loaded Gun")) (Some (lit "6LACK")) (Some 200%Z) (Some (lit "/m/a.flac"));
    Item (Some (lit "Loaded Gun (Live)")) (Some (lit "6lack")) (Some 201%Z) (Some (lit "/m/b.flac")) ].

Lemma find_matches_tiers_witness :
  (exact_spec (candidates (build_by_dur (take 1 twin_index)) 2 200)
              (Some (lit "loaded gun")) (Some (lit "6lack"))
     = [Entry (lit "loaded gun") (lit "6lack") 200 (lit "/m/a.flac")] ∧
   find_matches (build_by_dur (take 1 twin_index)) 2
                (Some (lit "loaded gun")) (Some (lit "6lack")) 200
     = [Entry (lit "loaded gun") (lit "6lack") 200 (lit "/m/a.flac")]) ∧
  ((1 < length (exact_spec (candidates (build_by_dur twin_index) 2 200)
                           (Some (lit "loaded gun")) (Some (lit "6lack"))))%nat ∧
   length (find_matches (build_by_dur twin_index) 2
                        (Some (lit "loaded gun")) (Some (lit "6lack")) 200) = 2%nat).
Proof.
  split.
  - split; [vm_compute; reflexivity|].
    apply (proj1 (find_matches_tiers (take 1 twin_index) 2
                    (Some (lit "loaded gun")) (Some (lit "6lack")) 200)).
    vm_compute. reflexivity.
  - split; [vm_compute; lia|].
    rewrite (proj1 (proj2 (find_matches_tiers twin_index 2
                    (Some (lit "loaded gun")) (Some (lit "6lack")) 200))).
    + vm_compute. reflexivity.
    + vm_compute. lia.
Defined.

End Tiers.

(** ** The repair loop *)
Section RepairLoop.
Import Repair.

Variable path_exists : str -> bool.
Variable music_index : list item.
Variable dur_tol : Z.

Local Abbreviation repair_unit := (Repair.repair_unit path_exists music_index dur_tol).
Local Abbreviation repair_loop := (Repair.repair_loop path_exists music_index dur_tol).
Local Abbreviation repair_playlist := (Repair.repair_playlist path_exists music_index dur_tol).

(** The EXTINF units of a playlist, as the loop pairs the lines: an EXTINF
    line that has a line after it, with that line. *)
Fixpoint units (lines : list str) : list (str * str) :=
  match lines with
  | [] => []
  | l :: rest =>
      match rest with
      | nxt :: rest' =>
          if startswith (lit "#EXTINF") (rstrip_char 10 l)
          then (rstrip_char 10 l, rstrip_char 10 nxt) :: units rest'
          else units rest
      | [] => units rest
      end
  end.

(** Induction that follows the one-or-two-line steps of the loop. *)
Lemma lines_ind (P : list str → Prop) :
  P [] → (∀ l, P [l]) →
  (∀ l nxt rest, P rest → P (nxt :: rest) → P (l :: nxt :: rest)) →
  ∀ lines, P lines.
Proof.
  intros H0 H1 H2 lines.
  enough (P lines ∧ ∀ l, P (l :: lines)) by tauto.
  induction lines as [|x lines [IH1 IH2]]; [auto|].
  split; [apply IH2|]. intros l. apply H2; [exact IH1 | apply IH2].
Qed.

Lemma repair_loop_step l nxt rest st :
  repair_loop (l :: nxt :: rest) st =
  if startswith (lit "#EXTINF") (rstrip_char 10 l)
  then repair_loop rest (repair_unit (emit st (rstrip_char 10 l)) (rstrip_char 10 l)
                                     (rstrip_char 10 nxt))
  else repair_loop (nxt :: rest) (emit st (rstrip_char 10 l)).
Proof. reflexivity. Qed.

Lemma units_step l nxt rest :
  units (l :: nxt :: rest) =
  if startswith (lit "#EXTINF") (rstrip_char 10 l)
  then (rstrip_char 10 l, rstrip_char 10 nxt) :: units rest
  else units (nxt :: rest).
Proof. reflexivity. Qed.

(** A state in which every unit so far was kept. *)
Definition all_kept (st : state) : Prop :=
  kept st = total st ∧ repaired st = 0%nat ∧ ambiguous st = 0%nat ∧
  failed st = 0%nat ∧
  Forall (fun r => status r = KEPT ∧ written_path r = original_path r) (report_rows st).

Lemma emit_all_kept st line : all_kept st → all_kept (emit st line).
Proof. unfold all_kept, emit. simpl. tauto. Qed.

Lemma repair_unit_exists st line p :
  path_exists p = true →
  repair_unit st line p =
  count_kept (push st p (Row KEPT (parse_extinf line).1 (parse_extinf line).2 p p [])).
Proof.
  intros H. unfold Repair.repair_unit. destruct (parse_extinf line) as [dur disp].
  rewrite H. reflexivity.
Qed.

Lemma repair_unit_all_kept st line p :
  path_exists p = true → all_kept st → all_kept (repair_unit st line p).
Proof.
  intros H (H1 & H2 & H3 & H4 & H5). rewrite repair_unit_exists by exact H.
  unfold all_kept, count_kept, push. simpl. repeat split; try assumption; try lia.
  apply Forall_app. split; [exact H5|]. constructor; [|constructor]. simpl. auto.
Qed.

Lemma repair_loop_all_kept lines :
  Forall (fun u => path_exists u.2 = true) (units lines) →
  ∀ st, all_kept st → all_kept (repair_loop lines st).
Proof.
  induction lines as [| l | l nxt rest IH1 IH2] using lines_ind; intros Hu st Hst.
  - exact Hst.
  - simpl. apply emit_all_kept, Hst.
  - rewrite repair_loop_step. rewrite units_step in Hu.
    destruct (startswith (lit "#EXTINF") (rstrip_char 10 l)).
    + inversion Hu as [|u us Hp Hus]; subst. apply IH1; [exact Hus|].
      apply repair_unit_all_kept; [exact Hp | apply emit_all_kept, Hst].
    + apply IH2; [exact Hu | apply emit_all_kept, Hst].
Qed.

(** The number of rows and the counter [total] are the number of units. *)
Lemma repair_unit_counts st line p :
  length (report_rows (repair_unit st line p)) = S (length (report_rows st)) ∧
  total (repair_unit st line p) = S (total st).
Proof.
  unfold Repair.repair_unit. destruct (parse_extinf line) as [dur disp].
  destruct (path_exists p); [simpl; rewrite length_app; simpl; lia|].
  destruct dur as [d|]; [|simpl; rewrite length_app; simpl; lia].
  destruct disp as [[|c dp]|]; [simpl; rewrite length_app; simpl; lia| |simpl; rewrite length_app; simpl; lia].
  destruct (d <? 0)%Z; [simpl; rewrite length_app; simpl; lia|].
  destruct (all_matches_for music_index dur_tol (c :: dp) d) as [|m [|m' ms]];
    simpl; rewrite length_app; simpl; lia.
Qed.

Lemma repair_loop_counts lines :
  ∀ st, length (report_rows (repair_loop lines st)) =
          (length (report_rows st) + length (units lines))%nat ∧
        total (repair_loop lines st) = (total st + length (units lines))%nat.
Proof.
  induction lines as [| l | l nxt rest IH1 IH2] using lines_ind; intros st.
  - simpl. lia.
  - simpl. lia.
  - rewrite repair_loop_step, units_step.
    destruct (startswith (lit "#EXTINF") (rstrip_char 10 l)).
    + destruct (IH1 (repair_unit (emit st (rstrip_char 10 l)) (rstrip_char 10 l)
                                 (rstrip_char 10 nxt))) as [E1 E2].
      destruct (repair_unit_counts (emit st (rstrip_char 10 l)) (rstrip_char 10 l)
                                   (rstrip_char 10 nxt)) as [E3 E4].
      rewrite E1, E2, E3, E4. simpl. lia.
    + destruct (IH2 (emit st (rstrip_char 10 l))) as [E1 E2]. rewrite E1, E2. simpl. lia.
Qed.

(** A playlist whose units all point to existing files: one KEPT row per
    unit, each with its original path, and no unit counted as repaired,
    ambiguous or failed. *)
Lemma repair_playlist_all_kept lines :
  Forall (fun u => path_exists u.2 = true) (units lines) →
  let st := repair_playlist lines in
  length (report_rows st) = length (units lines) ∧
  total st = length (units lines) ∧ kept st = total st ∧
  repaired st = 0%nat ∧ ambiguous st = 0%nat ∧ failed st = 0%nat ∧
  Forall (fun r => status r = KEPT ∧ written_path r = original_path r) (report_rows st).
Proof.
  intros Hu st. unfold st, Repair.repair_playlist.
  destruct (repair_loop_counts lines init) as [E1 E2].
  assert (Hk : all_kept init) by (unfold all_kept, init; simpl; auto).
  destruct (repair_loop_all_kept lines Hu init Hk) as (H1 & H2 & H3 & H4 & H5).
  simpl in E1, E2. auto 10.
Qed.

End RepairLoop.

(** ** Accumulation of matches *)
Section Accumulation.
Import Repair.

(** De-duplication by path in the words of the specification: the first
    entry of each path is kept. *)
Fixpoint dedup_from (seen : gset str) (l : list entry) : list entry :=
  match l with
  | [] => []
  | m :: l' =>
      if bool_decide (path m ∈ seen) then dedup_from seen l'
      else m :: dedup_from ({[ path m ]} ∪ seen) l'
  end.

Definition dedup_by_path (l : list entry) : list entry := dedup_from ∅ l.

Definition paths_of (l : list entry) : gset str := list_to_set (map path l).

Arguments paths_of : simpl never.

(** Set reasoning with the path sets taken as atoms. *)
Ltac paths_solver :=
  repeat match goal with
         | |- context [paths_of ?l] =>
             let X := fresh "X" in
             let E := fresh "E" in
             remember (paths_of l) as X eqn:E; clear E
         end;
  set_solver.

Lemma paths_of_nil : paths_of [] = ∅.
Proof. reflexivity. Qed.

Lemma paths_of_cons m l : paths_of (m :: l) = {[ path m ]} ∪ paths_of l.
Proof. reflexivity. Qed.

Lemma paths_of_app l1 l2 : paths_of (l1 ++ l2) = paths_of l1 ∪ paths_of l2.
Proof.
  induction l1 as [|m l1 IH]; simpl.
  - rewrite paths_of_nil. set_solver.
  - rewrite !paths_of_cons, IH. paths_solver.
Qed.

Lemma elem_of_paths_of p l : p ∈ paths_of l ↔ ∃ m, m ∈ l ∧ path m = p.
Proof.
  unfold paths_of. rewrite elem_of_list_to_set, list_elem_of_In, in_map_iff.
  split; intros (m & H1 & H2); exists m; rewrite ?list_elem_of_In in *; auto.
Qed.

Lemma dedup_from_paths seen l :
  paths_of (dedup_from seen l) ∪ seen = paths_of l ∪ seen.
Proof.
  revert seen. induction l as [|m l IH]; intros seen; simpl; [reflexivity|].
  case_bool_decide as Hm.
  - rewrite IH, paths_of_cons. paths_solver.
  - rewrite !paths_of_cons.
    assert (E : ∀ X : gset str, {[ path m ]} ∪ X ∪ seen = X ∪ ({[ path m ]} ∪ seen))
      by (clear; intros; set_solver).
    rewrite !E. apply IH.
Qed.

Lemma dedup_from_app seen l1 l2 :
  dedup_from seen (l1 ++ l2) =
  dedup_from seen l1 ++ dedup_from (paths_of l1 ∪ seen) l2.
Proof.
  revert seen. induction l1 as [|m l1 IH]; intros seen; simpl.
  - f_equal. rewrite paths_of_nil. set_solver.
  - case_bool_decide as Hm.
    + rewrite IH. do 2 f_equal. rewrite paths_of_cons. paths_solver.
    + simpl. rewrite IH. do 3 f_equal. rewrite paths_of_cons. paths_solver.
Qed.

Lemma NoDup_map_cons {A B} (f : A → B) (x : A) (l : list A) :
  NoDup (map f (x :: l)) ↔ (∀ y, y ∈ l → f y ≠ f x) ∧ NoDup (map f l).
Proof.
  simpl. rewrite NoDup_cons, list_elem_of_In, in_map_iff. split.
  - intros [H1 H2]. split; [|exact H2]. intros y Hy Heq. apply H1.
    exists y. split; [exact Heq | apply list_elem_of_In, Hy].
  - intros [H1 H2]. split; [|exact H2]. intros (y & Heq & Hy).
    apply (H1 y); [apply list_elem_of_In, Hy | exact Heq].
Qed.

Lemma NoDup_map_filter {A B} (f : A → B) (p : A → bool) (l : list A) :
  NoDup (map f l) → NoDup (map f (List.filter p l)).
Proof.
  induction l as [|x l IH]; [trivial|].
  rewrite NoDup_map_cons. intros [H1 H2]. simpl.
  destruct (p x); [|apply IH, H2].
  apply NoDup_map_cons. split; [|apply IH, H2].
  intros y Hy. apply H1. apply elem_of_filter_bool in Hy. tauto.
Qed.

(** Equal images under a duplicate-free map come from the same element. *)
Lemma NoDup_map_inj {A B} (f : A → B) (l : list A) (x y : A) :
  NoDup (map f l) → x ∈ l → y ∈ l → f x = f y → x = y.
Proof.
  induction l as [|z l IH]; intros Hnd Hx Hy Heq.
  - inversion Hx.
  - apply NoDup_map_cons in Hnd as [H1 H2].
    apply elem_of_cons in Hx as [->|Hx]; apply elem_of_cons in Hy as [->|Hy].
    + reflexivity.
    + exfalso. apply (H1 y Hy). congruence.
    + exfalso. apply (H1 x Hx). congruence.
    + apply IH; assumption.
Qed.

(** On a list without repeated path, the loop with the frozen [seen] and the
    de-duplication agree. *)
Lemma dedup_from_nodup seen l :
  NoDup (map path l) →
  dedup_from seen l = List.filter (fun m => negb (bool_decide (path m ∈ seen))) l.
Proof.
  revert seen. induction l as [|m l IH]; intros seen Hnd; [reflexivity|].
  apply NoDup_map_cons in Hnd as [H1 H2]. simpl.
  case_bool_decide as Hm; simpl; [apply IH, H2|].
  f_equal. rewrite IH by exact H2. apply filter_ext_in_bool. intros y Hy.
  f_equal. apply bool_decide_ext. specialize (H1 y Hy). set_solver.
Qed.

Lemma add_unseen_spec acc ms :
  NoDup (map path ms) → add_unseen acc ms = acc ++ dedup_from (paths_of acc) ms.
Proof. intros H. unfold add_unseen. rewrite dedup_from_nodup by exact H. reflexivity. Qed.

Lemma collect_spec {A} (f : A → list entry) (xs : list A) (acc : list entry) :
  (∀ x, x ∈ xs → NoDup (map path (f x))) →
  foldl (fun acc x => add_unseen acc (f x)) acc xs =
  acc ++ dedup_from (paths_of acc) (concat (map f xs)).
Proof.
  revert acc. induction xs as [|x xs IH]; intros acc H; simpl.
  - rewrite app_nil_r. reflexivity.
  - rewrite IH by (intros y Hy; apply H; right; exact Hy).
    rewrite add_unseen_spec by (apply H; left).
    rewrite dedup_from_app, <- app_assoc. do 2 f_equal.
    rewrite paths_of_app.
    rewrite <- (dedup_from_paths (paths_of acc) (f x)). f_equal. clear. paths_solver.
Qed.

End Accumulation.

(** ** The decision for one EXTINF unit *)
Section UnitDecision.
Import Repair.

Variable path_exists : str -> bool.
Variable music_index : list item.
Variable dur_tol : Z.

Local Abbreviation find := (find_matches (build_by_dur music_index) dur_tol).

(** The accumulated matches in the words of the specification: the matches
    of every candidate pair, in generation order, de-duplicated by path; when
    there is none, the same with the artist of every pair forced absent. *)
Definition accumulated_spec (disp : str) (dur : Z) : list entry :=
  let pairs := candidate_pairs_from_display disp in
  match dedup_by_path (concat (map (fun p => find (Some p.1) p.2 dur) pairs)) with
  | [] => dedup_by_path (concat (map (fun p => find (Some p.1) None dur) pairs))
  | first => first
  end.

(** The row and the path line that the specification gives to a unit. *)
Definition unit_outcome (line original_path : str) : report_row * str :=
  let '(dur, disp) := parse_extinf line in
  let row st written note := Row st dur disp original_path written note in
  if path_exists original_path then (row KEPT original_path [], original_path)
  else
    match dur, disp with
    | Some d, Some ((_ :: _) as dp) =>
        if (d <? 0)%Z
        then (row FAILED_NO_EXTINF original_path (lit "no duration or display"),
              original_path)
        else
          match accumulated_spec dp d with
          | [] => (row FAILED original_path (lit "no match"), original_path)
          | [m] => (row REPAIRED (path m) [], path m)
          | ms => (row AMBIGUOUS original_path (join (lit " | ") (map path (take 5 ms))),
                   original_path)
          end
    | _, _ =>
        (row FAILED_NO_EXTINF original_path (lit "no duration or display"),
         original_path)
    end.

Hypothesis unique_paths : NoDup (map path (entries music_index)).

Lemma NoDup_map_concat_filter (ds : list Z) (es : list entry) :
  NoDup (map path es) → NoDup ds →
  NoDup (map path (concat (map (fun d => List.filter (has_duration d) es) ds))).
Proof.
  intros Hes. induction ds as [|d ds IH]; intros Hds; simpl; [constructor|].
  apply NoDup_cons in Hds as [Hd Hds].
  rewrite map_app. apply NoDup_app. split; [apply NoDup_map_filter, Hes|].
  split; [|apply IH, Hds].
  intros p Hp1 Hp2.
  apply list_elem_of_In, in_map_iff in Hp1 as (e1 & <- & He1).
  apply list_elem_of_In, in_map_iff in Hp2 as (e2 & Heq & He2).
  apply list_elem_of_In, elem_of_filter_bool in He1 as [He1 Hd1].
  apply in_concat in He2 as (l & Hl & He2).
  apply in_map_iff in Hl as (d' & <- & Hd').
  apply list_elem_of_In, elem_of_filter_bool in He2 as [He2 Hd2].
  assert (e2 = e1) by (eapply NoDup_map_inj; eauto). subst e2.
  unfold has_duration in *. apply Z.eqb_eq in Hd1, Hd2.
  apply Hd. rewrite <- Hd1, Hd2. apply list_elem_of_In, Hd'.
Qed.

Lemma candidates_unique dur :
  NoDup (map path (candidates (build_by_dur music_index) dur_tol dur)).
Proof.
  rewrite candidates_buckets. apply NoDup_map_concat_filter; [exact unique_paths|].
  apply NoDup_seqZ.
Qed.

Lemma find_matches_unique title_n artist_n dur :
  NoDup (map path (find title_n artist_n dur)).
Proof.
  rewrite find_matches_spec.
  destruct (exact_spec _ title_n artist_n) eqn:E.
  - apply NoDup_map_filter, candidates_unique.
  - rewrite <- E. apply NoDup_map_filter, candidates_unique.
Qed.

Lemma foldl_ext_fun {A B} (f g : A → B → A) (l : list B) (a : A) :
  (∀ a b, f a b = g a b) → foldl f a l = foldl g a l.
Proof.
  intros H. revert a. induction l as [|b l IH]; intros a; simpl; [reflexivity|].
  rewrite H. apply IH.
Qed.

Lemma collect_pairs_spec pairs dur :
  collect_pairs music_index dur_tol pairs dur =
  dedup_by_path (concat (map (fun p => find (Some p.1) p.2 dur) pairs)).
Proof.
  unfold collect_pairs, by_dur.
  rewrite (foldl_ext_fun _
             (fun acc p => add_unseen acc (find (Some p.1) p.2 dur)))
    by (intros a [t ar]; reflexivity).
  rewrite (collect_spec (fun p => find (Some p.1) p.2 dur))
    by (intros; apply find_matches_unique).
  reflexivity.
Qed.

Lemma collect_title_only_spec pairs dur :
  collect_title_only music_index dur_tol pairs dur =
  dedup_by_path (concat (map (fun p => find (Some p.1) None dur) pairs)).
Proof.
  unfold collect_title_only, by_dur.
  rewrite (foldl_ext_fun _
             (fun acc p => add_unseen acc (find (Some p.1) None dur)))
    by (intros a [t ar]; reflexivity).
  rewrite (collect_spec (fun p => find (Some p.1) None dur))
    by (intros; apply find_matches_unique).
  reflexivity.
Qed.

Lemma all_matches_for_spec disp dur :
  all_matches_for music_index dur_tol disp dur = accumulated_spec disp dur.
Proof.
  unfold all_matches_for, accumulated_spec.
  rewrite collect_pairs_spec, collect_title_only_spec.
  destruct (dedup_by_path _) eqn:E; [|reflexivity].
  destruct (candidate_pairs_from_display disp); reflexivity.
Qed.

(** With an index in which no path occurs twice, the loop body appends to the
    report and to the output exactly the row and the path line of
    [unit_outcome]. *)
Lemma repair_unit_outcome st line original_path :
  let st' := Repair.repair_unit path_exists music_index dur_tol st line original_path in
  report_rows st' = report_rows st ++ [(unit_outcome line original_path).1] ∧
  out_lines st' = out_lines st ++ [(unit_outcome line original_path).2] ∧
  total st' = S (total st).
Proof.
  unfold Repair.repair_unit, unit_outcome.
  destruct (parse_extinf line) as [dur disp].
  destruct (path_exists original_path); [simpl; auto|].
  destruct dur as [d|]; [|simpl; auto].
  destruct disp as [[|c dp]|]; [simpl; auto| |simpl; auto].
  destruct (d <? 0)%Z; [simpl; auto|].
  rewrite all_matches_for_spec.
  destruct (accumulated_spec (c :: dp) d) as [|m [|m' ms]]; simpl; auto.
Qed.

(** With such an index, the report of a playlist is the list of the outcomes
    of its units, in order. *)
Lemma repair_loop_outcomes lines : ∀ st,
  report_rows (Repair.repair_loop path_exists music_index dur_tol lines st) =
  report_rows st ++ map (fun u => (unit_outcome u.1 u.2).1) (units lines).
Proof.
  induction lines as [| l | l nxt rest IH1 IH2] using lines_ind; intros st.
  - simpl. rewrite app_nil_r. reflexivity.
  - simpl. rewrite app_nil_r. reflexivity.
  - rewrite repair_loop_step, units_step.
    destruct (startswith (lit "#EXTINF") (rstrip_char 10 l)).
    + rewrite IH1.
      destruct (repair_unit_outcome (emit st (rstrip_char 10 l)) (rstrip_char 10 l)
                                    (rstrip_char 10 nxt)) as (E & _ & _).
      rewrite E. simpl. rewrite <- app_assoc. reflexivity.
    + rewrite IH2. reflexivity.
Qed.

Lemma repair_playlist_outcomes lines :
  report_rows (Repair.repair_playlist path_exists music_index dur_tol lines) =
  map (fun u => (unit_outcome u.1 u.2).1) (units lines).
Proof. unfold Repair.repair_playlist. rewrite repair_loop_outcomes. reflexivity. Qed.

End UnitDecision.

(** An index that lists the same file twice, as a scan of two overlapping
    roots writes it. *)
Definition doubled_index : list item :=
  [ Item (Some (lit "Song")) (Some (lit "Art")) (Some 200%Z) (Some (lit "/m/a.flac"));
    Item (Some (lit "Song")) (Some (lit "Art")) (Some 200%Z) (Some (lit "/m/a.flac")) ].

(** C1, at the failing input. The only unit of the playlist points to a
    missing file; its title and artist match the two index entries of the one
    path.  De-duplicated by path there is exactly one match, and the row is
    AMBIGUOUS with that path noted twice, the original path being written. *)
Theorem repair_same_path_twice :
  let lines := [lit "#EXTM3U"; lit "#EXTINF:200,Art - Song"; lit "/old/a.flac"] in
  let st := Repair.repair_playlist (fun _ => false) doubled_index DUR_TOL_DEFAULT lines in
  accumulated_spec doubled_index DUR_TOL_DEFAULT (lit "Art - Song") 200 =
    [Entry (lit "song") (lit "art") 200 (lit "/m/a.flac")] ∧
  Repair.report_rows st =
    [Repair.Row Repair.AMBIGUOUS (Some 200%Z) (Some (lit "Art - Song"))
                (lit "/old/a.flac") (lit "/old/a.flac") (lit "/m/a.flac | /m/a.flac")] ∧
  Repair.out_lines st =
    [lit "#EXTM3U"; lit "#EXTINF:200,Art - Song"; lit "/old/a.flac"] ∧
  (Repair.repaired st, Repair.ambiguous st) = (0%nat, 1%nat).
Proof. repeat split; vm_compute; reflexivity. Qed.

(** ** Idempotence of the normaliser *)
Section NormStages.

(** The characters that the replacement steps of [norm] rewrite: dashes,
    the apostrophes and quotes that are deleted, and the characters that
    become a space. *)
Definition is_quote (c : N) : bool :=
  ((c =? 8217) || (c =? 8216) || (c =? 96) || (c =? 180) || (c =? 39))%N.
Definition is_blank (c : N) : bool :=
  is_bad_punct c || (c =? 95)%N || (c =? 12288)%N.
Definition special (c : N) : bool := is_dash c || is_quote c || is_blank c.

(** The replacement steps and the lower-casing of [norm], in source order. *)
Definition char_stage (s : str) : str :=
  lower
    (replace_char 12288 (lit " ")
       (replace_char 95 (lit " ")
          (sub_class is_bad_punct (lit " ")
             (replace_char 39 []
                (replace_char 180 (lit "'")
                   (replace_char 96 (lit "'")
                      (replace_char 8216 (lit "'")
                         (replace_char 8217 (lit "'")
                            (sub_class is_dash (lit "-") s))))))))).

Lemma norm_text_stages (s : str) :
  norm_text s = strip (collapse_spaces (remove_parens (feat_sub (char_stage (strip s))))).
Proof. reflexivity. Qed.

Lemma sub_class_app cls new (a b : str) :
  sub_class cls new (a ++ b) = sub_class cls new a ++ sub_class cls new b.
Proof. unfold sub_class. rewrite map_app, concat_app. reflexivity. Qed.

Lemma replace_char_app old new (a b : str) :
  replace_char old new (a ++ b) = replace_char old new a ++ replace_char old new b.
Proof. unfold replace_char. rewrite map_app, concat_app. reflexivity. Qed.

Lemma sub_class_one cls new c :
  sub_class cls new [c] = if cls c then new else [c].
Proof. unfold sub_class. simpl. apply app_nil_r. Qed.

Lemma replace_char_one old new c :
  replace_char old new [c] = if (c =? old)%N then new else [c].
Proof. unfold replace_char. simpl. apply app_nil_r. Qed.

Lemma lower_app (a b : str) : lower (a ++ b) = lower a ++ lower b.
Proof. apply map_app. Qed.

Lemma char_stage_app (a b : str) : char_stage (a ++ b) = char_stage a ++ char_stage b.
Proof.
  unfold char_stage.
  rewrite sub_class_app, !replace_char_app, sub_class_app, !replace_char_app, lower_app.
  reflexivity.
Qed.

Lemma char_stage_cons c (s : str) : char_stage (c :: s) = char_stage [c] ++ char_stage s.
Proof. apply (char_stage_app [c] s). Qed.

(** What the stage makes of one character. *)
Lemma char_stage_one c :
  char_stage [c] =
    if is_dash c then [45%N]
    else if is_quote c then []
    else if is_blank c then [32%N]
    else [lower_cp c].
Proof.
  unfold is_dash, is_quote, is_blank, is_bad_punct.
  destruct (N.eqb_spec c 8211) as [->|?]; [reflexivity|].
  destruct (N.eqb_spec c 8212) as [->|?]; [reflexivity|].
  destruct (N.eqb_spec c 8217) as [->|?]; [reflexivity|].
  destruct (N.eqb_spec c 8216) as [->|?]; [reflexivity|].
  destruct (N.eqb_spec c 96) as [->|?]; [reflexivity|].
  destruct (N.eqb_spec c 180) as [->|?]; [reflexivity|].
  destruct (N.eqb_spec c 39) as [->|?]; [reflexivity|].
  destruct (N.eqb_spec c 183) as [->|?]; [reflexivity|].
  destruct (N.eqb_spec c 8226) as [->|?]; [reflexivity|].
  destruct (N.eqb_spec c 124) as [->|?]; [reflexivity|].
  destruct (N.eqb_spec c 95) as [->|?]; [reflexivity|].
  destruct (N.eqb_spec c 12288) as [->|?]; [reflexivity|].
  unfold char_stage.
  repeat (first [rewrite sub_class_one | rewrite replace_char_one];
          unfold is_dash, is_bad_punct;
          repeat match goal with
                 | H : ?x ≠ ?y |- context [(?x =? ?y)%N] =>
                     rewrite (proj2 (N.eqb_neq x y) H)
                 end;
          cbn [orb]).
  reflexivity.
Qed.

Ltac split_orbs :=
  repeat match goal with
         | H : (_ || _) = false |- _ =>
             let H1 := fresh in
             let H2 := fresh in
             apply orb_false_iff in H as [H1 H2]
         end.

(** A character that the stage leaves alone. *)
Definition plain (c : N) : bool := negb (special c) && negb (is_upper_ascii c).

Lemma char_stage_plain c : plain c = true → char_stage [c] = [c].
Proof.
  unfold plain, special. rewrite char_stage_one. intros H.
  apply andb_true_iff in H as [H1 H2]. apply negb_true_iff in H1, H2.
  split_orbs.
  unfold lower_cp. rewrite H2.
  repeat match goal with H : _ = false |- _ => rewrite H; clear H end.
  reflexivity.
Qed.

Lemma plain_lower c : special c = false → plain (lower_cp c) = true.
Proof.
  unfold plain, special, lower_cp, is_dash, is_quote, is_blank, is_bad_punct,
    is_upper_ascii. intros H.
  split_orbs.
  repeat match goal with H : (_ =? _)%N = false |- _ => apply N.eqb_neq in H end.
  destruct ((65 <=? c)%N && (c <=? 90)%N) eqn:E.
  - apply andb_true_iff in E as [E1 E2]. apply N.leb_le in E1, E2.
    apply andb_true_iff. split; apply negb_true_iff.
    + repeat (apply orb_false_iff; split); apply N.eqb_neq; lia.
    + apply andb_false_iff. right. apply N.leb_gt. lia.
  - apply andb_true_iff. split; apply negb_true_iff; [|exact E].
    repeat (apply orb_false_iff; split); apply N.eqb_neq; assumption.
Qed.

Lemma char_stage_one_plain c : Forall (fun d => plain d = true) (char_stage [c]).
Proof.
  rewrite char_stage_one.
  destruct (is_dash c) eqn:E0; [repeat constructor|].
  destruct (is_quote c) eqn:E1; [constructor|].
  destruct (is_blank c) eqn:E2; [repeat constructor|].
  constructor; [|constructor]. apply plain_lower. unfold special.
  rewrite E0, E1, E2. reflexivity.
Qed.

Lemma char_stage_all_plain (s : str) : Forall (fun d => plain d = true) (char_stage s).
Proof.
  induction s as [|c s IH]; [constructor|].
  rewrite char_stage_cons. apply Forall_app. split; [apply char_stage_one_plain | exact IH].
Qed.

Lemma char_stage_fixed (s : str) :
  Forall (fun d => plain d = true) s → char_stage s = s.
Proof.
  induction 1 as [|c s Hc Hs IH]; [reflexivity|].
  rewrite char_stage_cons, IH, char_stage_plain by exact Hc. reflexivity.
Qed.

End NormStages.

(** *** Properties of characters that survive every stage *)
Section StagePreservation.
Variable P : N → Prop.

(** A property of characters that the stages cannot break: it holds of the
    characters the stages introduce and is kept by lower-casing. *)
Definition stable : Prop :=
  P 32%N ∧ P 45%N ∧ P 102%N ∧ P 101%N ∧ P 97%N ∧ P 116%N ∧ ∀ c, P c → P (lower_cp c).

Lemma Forall_drop_while p (s : str) : Forall P s → Forall P (drop_while p s).
Proof.
  induction 1 as [|c s Hc Hs IH]; simpl; [constructor|].
  destruct (p c); [exact IH | constructor; assumption].
Qed.

Lemma Forall_rev_str (s : str) : Forall P s → Forall P (rev s).
Proof.
  induction 1 as [|c s Hc Hs IH]; simpl; [constructor|].
  apply Forall_app. split; [exact IH | repeat constructor; exact Hc].
Qed.

Lemma Forall_strip (s : str) : Forall P s → Forall P (strip s).
Proof.
  intros H. unfold strip, rstrip, lstrip.
  apply Forall_rev_str, Forall_drop_while, Forall_rev_str, Forall_drop_while, H.
Qed.

Lemma Forall_collapse_go b (s : str) :
  P 32%N → Forall P s → Forall P (collapse_go b s).
Proof.
  intros H32 H. revert b. induction H as [|c s Hc Hs IH]; intros b; simpl; [constructor|].
  destruct (is_space c); [destruct b; [apply IH | constructor; [exact H32 | apply IH]]|].
  constructor; [exact Hc | apply IH].
Qed.

Lemma Forall_remove_parens_go k (s : str) :
  Forall P s → Forall P (remove_parens_go k s).
Proof.
  intros H. revert k. induction H as [|c s Hc Hs IH]; intros k; simpl; [constructor|].
  destruct k; [|apply IH].
  destruct (is_open c); [destruct (close_index s); [apply IH|]|];
    constructor; auto.
Qed.

Lemma Forall_feat_sub_go prev k (s : str) :
  P 102%N → P 101%N → P 97%N → P 116%N →
  Forall P s → Forall P (feat_sub_go prev k s).
Proof.
  intros Hf He Ha Ht H. revert prev k.
  induction H as [|c s Hc Hs IH]; intros prev k; simpl; [constructor|].
  destruct k; [|apply IH].
  destruct (feat_match prev (c :: s)).
  - repeat (constructor; [assumption|]). apply IH.
  - constructor; [exact Hc | apply IH].
Qed.

Lemma Forall_char_stage (s : str) :
  P 45%N → P 32%N → (∀ c, P c → P (lower_cp c)) →
  Forall P s → Forall P (char_stage s).
Proof.
  intros H45 H32 Hl. induction 1 as [|c s Hc Hs IH]; [constructor|].
  rewrite char_stage_cons. apply Forall_app. split; [|exact IH].
  rewrite char_stage_one.
  destruct (is_dash c); [repeat constructor; exact H45|].
  destruct (is_quote c); [constructor|].
  destruct (is_blank c); repeat constructor; auto.
Qed.

Lemma Forall_norm_text (s : str) : stable → Forall P s → Forall P (norm_text s).
Proof.
  intros (H32 & H45 & Hf & He & Ha & Ht & Hl) H. rewrite norm_text_stages.
  apply Forall_strip, Forall_collapse_go; [exact H32|].
  apply Forall_remove_parens_go, Forall_feat_sub_go; try assumption.
  apply Forall_char_stage; try assumption. apply Forall_strip, H.
Qed.

End StagePreservation.

(** *** Whitespace in normal form *)
Section Spacing.

(** Every whitespace character is a single space that does not follow
    another one; [prev_space] tells whether a space comes just before. *)
Fixpoint well_spaced (prev_space : bool) (s : str) : Prop :=
  match s with
  | [] => True
  | c :: s' =>
      if is_space c then c = 32%N ∧ prev_space = false ∧ well_spaced true s'
      else well_spaced false s'
  end.

Lemma well_spaced_weaken b (s : str) : well_spaced b s → well_spaced false s.
Proof. destruct s as [|c s]; simpl; [trivial|]. destruct (is_space c); tauto. Qed.

Lemma collapse_go_well_spaced b (s : str) : well_spaced b (collapse_go b s).
Proof.
  revert b. induction s as [|c s IH]; intros b; simpl; [trivial|].
  destruct (is_space c) eqn:E.
  - destruct b; [apply IH|]. simpl. auto.
  - simpl. rewrite E. apply IH.
Qed.

Lemma well_spaced_collapse b (s : str) : well_spaced b s → collapse_go b s = s.
Proof.
  revert b. induction s as [|c s IH]; intros b; simpl; [reflexivity|].
  destruct (is_space c).
  - intros (-> & -> & H). f_equal. apply IH, H.
  - intros H. f_equal. apply IH, H.
Qed.

Lemma well_spaced_drop_while b (s : str) :
  well_spaced b s → well_spaced false (drop_while is_space s).
Proof.
  revert b. induction s as [|c s IH]; intros b; simpl; [trivial|].
  destruct (is_space c) eqn:E.
  - intros (_ & _ & H). eapply IH, H.
  - intros H. simpl. rewrite E. exact H.
Qed.

Lemma well_spaced_prefix b (l1 l2 : str) : well_spaced b (l1 ++ l2) → well_spaced b l1.
Proof.
  revert b. induction l1 as [|c l1 IH]; intros b; simpl; [trivial|].
  destruct (is_space c).
  - intros (H1 & H2 & H3). repeat split; try assumption. eapply IH, H3.
  - apply IH.
Qed.

Lemma drop_while_suffix p (s : str) : ∃ l, s = l ++ drop_while p s.
Proof.
  induction s as [|c s [l IH]]; simpl; [exists []; reflexivity|].
  destruct (p c); [|exists []; reflexivity].
  exists (c :: l). simpl. f_equal. exact IH.
Qed.

Lemma rstrip_prefix (s : str) : ∃ l, s = rstrip s ++ l.
Proof.
  unfold rstrip. destruct (drop_while_suffix is_space (rev s)) as [l Hl].
  exists (rev l). rewrite <- rev_app_distr, <- Hl, rev_involutive. reflexivity.
Qed.

Lemma well_spaced_strip b (s : str) : well_spaced b s → well_spaced false (strip s).
Proof.
  intros H. unfold strip, lstrip.
  apply well_spaced_drop_while in H.
  destruct (rstrip_prefix (drop_while is_space s)) as [l Hl].
  rewrite Hl in H. eapply well_spaced_prefix, H.
Qed.

End Spacing.

(** *** Brackets *)
Section Brackets.

(** Fixed points of [remove_parens]: no opening bracket can reach a closing
    bracket. *)
Fixpoint unpaired (s : str) : Prop :=
  match s with
  | [] => True
  | c :: s' => (is_open c = true → close_index s' = None) ∧ unpaired s'
  end.

(** No closing bracket anywhere after an opening bracket. *)
Fixpoint closed_off (s : str) : Prop :=
  match s with
  | [] => True
  | c :: s' =>
      (is_open c = true → Forall (fun d => is_close d = false) s') ∧ closed_off s'
  end.

Lemma unpaired_fixed (s : str) : unpaired s → remove_parens_go 0 s = s.
Proof.
  induction s as [|c s IH]; simpl; [reflexivity|].
  intros [H1 H2]. destruct (is_open c).
  - rewrite H1 by reflexivity. f_equal. apply IH, H2.
  - f_equal. apply IH, H2.
Qed.

Lemma no_close_index (s : str) :
  Forall (fun d => is_close d = false) s → close_index s = None.
Proof.
  induction 1 as [|c s Hc Hs IH]; simpl; [reflexivity|].
  rewrite Hc, IH. destruct (c =? 10)%N; reflexivity.
Qed.

Lemma close_index_none (s : str) :
  Forall (fun d => d ≠ 10%N) s → close_index s = None →
  Forall (fun d => is_close d = false) s.
Proof.
  induction 1 as [|c s Hc Hs IH]; simpl; [constructor|].
  destruct (is_close c) eqn:E; [discriminate|].
  rewrite (proj2 (N.eqb_neq c 10) Hc).
  destruct (close_index s); [discriminate|]. intros _. constructor; auto.
Qed.

Lemma closed_off_unpaired (s : str) : closed_off s → unpaired s.
Proof.
  induction s as [|c s IH]; simpl; [trivial|].
  intros [H1 H2]. split; [|apply IH, H2]. intros H. apply no_close_index, H1, H.
Qed.

Lemma no_open_closed_off (s : str) :
  Forall (fun d => is_open d = false) s → closed_off s.
Proof.
  induction 1 as [|c s Hc Hs IH]; simpl; [trivial|].
  split; [rewrite Hc; discriminate | exact IH].
Qed.

(** Without line feeds, what [remove_parens] returns has no bracket pair left. *)
Lemma remove_parens_closed_off k (s : str) :
  Forall (fun d => d ≠ 10%N) s → closed_off (remove_parens_go k s).
Proof.
  intros H. revert k. induction H as [|c s Hc Hs IH]; intros k; simpl; [trivial|].
  destruct k; [|apply IH].
  destruct (is_open c) eqn:Eo.
  - destruct (close_index s) eqn:Ec; [apply IH|]. simpl. split; [|apply IH].
    intros _. apply Forall_remove_parens_go, close_index_none; assumption.
  - simpl. split; [rewrite Eo; discriminate | apply IH].
Qed.

Lemma closed_off_collapse_go b (s : str) : closed_off s → closed_off (collapse_go b s).
Proof.
  revert b. induction s as [|c s IH]; intros b; simpl; [trivial|].
  intros [H1 H2]. destruct (is_space c).
  - destruct b; [apply IH, H2|]. simpl. split; [discriminate | apply IH, H2].
  - simpl. split; [|apply IH, H2].
    intros H. apply Forall_collapse_go; [reflexivity | apply H1, H].
Qed.

Lemma closed_off_drop_while p (s : str) : closed_off s → closed_off (drop_while p s).
Proof.
  induction s as [|c s IH]; simpl; [trivial|].
  intros [H1 H2]. destruct (p c); [apply IH, H2 | simpl; auto].
Qed.

Lemma closed_off_prefix (l1 l2 : str) : closed_off (l1 ++ l2) → closed_off l1.
Proof.
  induction l1 as [|c l1 IH]; simpl; [trivial|].
  intros [H1 H2]. split; [|apply IH, H2].
  intros H. specialize (H1 H). apply Forall_app in H1. tauto.
Qed.

Lemma closed_off_strip (s : str) : closed_off s → closed_off (strip s).
Proof.
  intros H. unfold strip, lstrip.
  apply (closed_off_drop_while is_space) in H.
  destruct (rstrip_prefix (drop_while is_space s)) as [l Hl].
  rewrite Hl in H. eapply closed_off_prefix, H.
Qed.

End Brackets.

(** *** The pattern of [_FEAT] *)
Section FeatPattern.

(** The leading word boundary, seen from the character before the match. *)
Definition before_ok (prev : option N) : bool :=
  match prev with
  | None => true
  | Some p => negb (is_word p)
  end.

(** [s] begins with one of the two alternatives, in either case, followed
    by a word character. *)
Definition feat_at (s : str) : Prop :=
  ∃ p d r, s = p ++ d :: r ∧ is_word d = true ∧
           (lower p = lit "feat." ∨ lower p = lit "ft.").

Lemma startswith_app (p l : str) : startswith p l = true ↔ ∃ r, l = p ++ r.
Proof.
  revert l. induction p as [|a p IH]; intros l; simpl.
  - split; [intros _; exists l; reflexivity | reflexivity].
  - destruct l as [|b l]; [split; [discriminate | intros [r Hr]; discriminate]|].
    rewrite andb_true_iff, N.eqb_eq, IH. split.
    + intros [-> [r ->]]. exists r. reflexivity.
    + intros [r [= -> ->]]. split; [reflexivity | exists r; reflexivity].
Qed.

Lemma startswith_nocase_iff (pat s : str) :
  startswith_nocase pat s = true ↔ lower (take (length pat) s) = pat.
Proof.
  unfold startswith_nocase. rewrite startswith_app. split.
  - intros [r Hr]. assert (Hlen : r = []).
    { apply (f_equal length) in Hr. rewrite length_app in Hr.
      unfold lower in Hr. rewrite length_map, length_take in Hr.
      destruct r; [reflexivity | simpl in Hr; lia]. }
    subst r. rewrite app_nil_r in Hr. exact Hr.
  - intros H. exists []. rewrite app_nil_r. exact H.
Qed.

Lemma lower_length (s : str) : length (lower s) = length s.
Proof. apply length_map. Qed.

Lemma feat_match_some prev (s : str) n :
  feat_match prev s = Some n →
  before_ok prev = true ∧
  ∃ p d r, s = p ++ d :: r ∧ length p = n ∧ is_word d = true ∧
           (lower p = lit "feat." ∨ lower p = lit "ft.").
Proof.
  unfold feat_match. fold (before_ok prev).
  destruct (before_ok prev); [|discriminate]. simpl.
  destruct (startswith_nocase (lit "feat.") s) eqn:E5; simpl.
  - destruct (drop 5 s) as [|d r] eqn:Ed; [|destruct (is_word d) eqn:Ew].
    + destruct (startswith_nocase (lit "ft.") s) eqn:E3; [|discriminate]. simpl.
      destruct (drop 3 s) as [|d3 r3] eqn:Ed3; [discriminate|].
      destruct (is_word d3) eqn:Ew3; [|discriminate]. intros [= <-].
      split; [reflexivity|]. exists (take 3 s), d3, r3.
      apply startswith_nocase_iff in E3. rewrite <- Ed3, take_drop.
      split; [reflexivity|]. split; [|auto].
      apply (f_equal length) in E3. rewrite lower_length in E3. exact E3.
    + intros [= <-]. split; [reflexivity|]. exists (take 5 s), d, r.
      apply startswith_nocase_iff in E5. rewrite <- Ed, take_drop.
      split; [reflexivity|]. split; [|auto].
      apply (f_equal length) in E5. rewrite lower_length in E5. exact E5.
    + destruct (startswith_nocase (lit "ft.") s) eqn:E3; [|discriminate]. simpl.
      destruct (drop 3 s) as [|d3 r3] eqn:Ed3; [discriminate|].
      destruct (is_word d3) eqn:Ew3; [|discriminate]. intros [= <-].
      split; [reflexivity|]. exists (take 3 s), d3, r3.
      apply startswith_nocase_iff in E3. rewrite <- Ed3, take_drop.
      split; [reflexivity|]. split; [|auto].
      apply (f_equal length) in E3. rewrite lower_length in E3. exact E3.
  - destruct (startswith_nocase (lit "ft.") s) eqn:E3; [|discriminate]. simpl.
    destruct (drop 3 s) as [|d3 r3] eqn:Ed3; [discriminate|].
    destruct (is_word d3) eqn:Ew3; [|discriminate]. intros [= <-].
    split; [reflexivity|]. exists (take 3 s), d3, r3.
    apply startswith_nocase_iff in E3. rewrite <- Ed3, take_drop.
    split; [reflexivity|]. split; [|auto].
    apply (f_equal length) in E3. rewrite lower_length in E3. exact E3.
Qed.

Lemma feat_match_found prev (s : str) :
  before_ok prev = true → feat_at s → feat_match prev s ≠ None.
Proof.
  intros Hb (p & d & r & -> & Hd & Hp). unfold feat_match. fold (before_ok prev).
  rewrite Hb. simpl. destruct Hp as [Hp|Hp].
  - assert (Hl : length p = 5%nat)
      by (apply (f_equal length) in Hp; rewrite lower_length in Hp; exact Hp).
    assert (E : startswith_nocase (lit "feat.") (p ++ d :: r) = true).
    { apply startswith_nocase_iff. change (length (lit "feat.")) with 5%nat.
      rewrite <- Hl, take_app_length. exact Hp. }
    rewrite E. simpl. rewrite <- Hl, drop_app_length, Hd. discriminate.
  - assert (Hl : length p = 3%nat)
      by (apply (f_equal length) in Hp; rewrite lower_length in Hp; exact Hp).
    assert (E : startswith_nocase (lit "ft.") (p ++ d :: r) = true).
    { apply startswith_nocase_iff. change (length (lit "ft.")) with 3%nat.
      rewrite <- Hl, take_app_length. exact Hp. }
    rewrite E. simpl.
    assert (Hd3 : drop 3 (p ++ d :: r) = d :: r) by (rewrite <- Hl; apply drop_app_length).
    rewrite Hd3, Hd.
    destruct (startswith_nocase (lit "feat.") (p ++ d :: r) &&
              match drop 5 (p ++ d :: r) with c :: _ => is_word c | [] => false end);
      discriminate.
Qed.

Lemma feat_match_blocked prev (s : str) : before_ok prev = false → feat_match prev s = None.
Proof.
  intros H. destruct (feat_match prev s) eqn:E; [|reflexivity].
  apply feat_match_some in E as [E _]. congruence.
Qed.

Lemma feat_match_not_at prev (s : str) : ¬ feat_at s → feat_match prev s = None.
Proof.
  intros H. destruct (feat_match prev s) eqn:E; [|reflexivity].
  apply feat_match_some in E as [_ (p & d & r & E1 & _ & E2 & E3)].
  exfalso. apply H. exists p, d, r. auto.
Qed.

Lemma feat_match_none_inv prev (s : str) :
  feat_match prev s = None → before_ok prev = true → ¬ feat_at s.
Proof. intros H Hb Hat. exact (feat_match_found prev s Hb Hat H). Qed.

(** Strings fixed by [_FEAT.sub]: no position carries a match. *)
Fixpoint no_feat (prev : option N) (s : str) : Prop :=
  match s with
  | [] => True
  | c :: s' => feat_match prev s = None ∧ no_feat (Some c) s'
  end.

Lemma no_feat_fixed prev (s : str) : no_feat prev s → feat_sub_go prev 0 s = s.
Proof.
  revert prev. induction s as [|c s IH]; intros prev; [reflexivity|].
  intros [H1 H2]. cbn [feat_sub_go]. rewrite H1. f_equal. apply IH, H2.
Qed.

Lemma lower_cp_dot c : lower_cp c = 46%N → c = 46%N.
Proof.
  unfold lower_cp, is_upper_ascii.
  destruct ((65 <=? c)%N && (c <=? 90)%N) eqn:E; [|trivial].
  apply andb_true_iff in E as [E1 E2]. apply N.leb_le in E1, E2. lia.
Qed.

(** Both alternatives end with a full stop. *)
Lemma feat_at_dot (s : str) : feat_at s → (46%N : N) ∈ s.
Proof.
  intros (p & d & r & -> & _ & Hp).
  apply elem_of_app. left.
  destruct Hp as [Hp|Hp].
  - destruct p as [|c0 [|c1 [|c2 [|c3 [|c4 [|]]]]]]; try discriminate Hp.
    injection Hp as _ _ _ _ H4. apply lower_cp_dot in H4. subst c4. set_solver.
  - destruct p as [|c0 [|c1 [|c2 [|]]]]; try discriminate Hp.
    injection Hp as _ _ H2. apply lower_cp_dot in H2. subst c2. set_solver.
Qed.

Lemma no_dot_no_feat prev (s : str) : Forall (fun d => d ≠ 46%N) s → no_feat prev s.
Proof.
  intros H. revert prev. induction H as [|c s Hc Hs IH]; intros prev; simpl; [trivial|].
  split; [|apply IH]. apply feat_match_not_at. intros Hat.
  apply feat_at_dot in Hat. apply elem_of_cons in Hat as [Hat|Hat]; [congruence|].
  rewrite Forall_forall in Hs. exact (Hs _ Hat eq_refl).
Qed.

End FeatPattern.

(** *** Substitution of the pattern, once and for all *)
Section FeatFixed.

Lemma lower_cp_word c k :
  lower_cp c = k → is_lower_ascii k = true → is_word c = true.
Proof.
  unfold lower_cp, is_word, is_lower_ascii, is_upper_ascii, is_digit.
  destruct ((65 <=? c)%N && (c <=? 90)%N) eqn:E.
  - intros _ _. apply andb_true_iff in E as [E1 E2]. apply N.leb_le in E1, E2.
    assert (Hc : (c <? 128)%N = true) by (apply N.ltb_lt; lia).
    rewrite Hc. reflexivity.
  - intros <- H. apply andb_true_iff in H as [H1 H2].
    pose proof H1 as H1'. pose proof H2 as H2'. apply N.leb_le in H1', H2'.
    assert (Hc : (c <? 128)%N = true) by (apply N.ltb_lt; lia).
    rewrite Hc, H1, H2. reflexivity.
Qed.

Lemma word_not_space c : is_word c = true → is_space c = false.
Proof.
  unfold is_word. destruct (c <? 128)%N eqn:E; [|intros H; apply negb_true_iff, H].
  unfold is_upper_ascii, is_lower_ascii, is_digit, is_space. intros H.
  repeat (apply orb_true_iff in H as [H|H]);
    try (apply andb_true_iff in H as [H1 H2]; apply N.leb_le in H1, H2);
    try apply N.eqb_eq in H;
    repeat (apply orb_false_iff; split);
    first [apply N.eqb_neq; lia | apply andb_false_iff; (left + right); apply N.leb_gt; lia].
Qed.

Lemma word_not_dot c : is_word c = true → lower_cp c ≠ 46%N.
Proof. intros H E. apply lower_cp_dot in E. subst c. discriminate H. Qed.

(** The letters of a match are word characters; only its last character,
    the full stop, is not. *)
Lemma pattern_words (p : str) :
  lower p = lit "feat." ∨ lower p = lit "ft." →
  ∃ c q, p = c :: q ++ [46%N] ∧ Forall (fun x => is_word x = true) (c :: q).
Proof.
  intros [Hp|Hp].
  - destruct p as [|c0 [|c1 [|c2 [|c3 [|c4 [|]]]]]]; try discriminate Hp.
    injection Hp as H0 H1 H2 H3 H4. apply lower_cp_dot in H4. subst c4.
    exists c0, [c1; c2; c3]. split; [reflexivity|].
    repeat constructor; eapply lower_cp_word; eauto.
  - destruct p as [|c0 [|c1 [|c2 [|]]]]; try discriminate Hp.
    injection Hp as H0 H1 H2. apply lower_cp_dot in H2. subst c2.
    exists c0, [c1]. split; [reflexivity|].
    repeat constructor; eapply lower_cp_word; eauto.
Qed.

Lemma feat_at_head c (s : str) : feat_at (c :: s) → lower_cp c = 102%N.
Proof.
  intros (p & d & r & E & _ & [Hp|Hp]);
    destruct p as [|c0 p]; try discriminate Hp;
    injection E as -> _; injection Hp as H0 _; exact H0.
Qed.

(** Skipping: once [k] characters have been passed over, the scan resumes
    behind them. *)
Lemma last_cons_default (q : str) (x c : N) : List.last (x :: q) c = List.last q x.
Proof.
  revert x c. induction q as [|y q IH]; intros x c; [reflexivity|].
  change (List.last (x :: y :: q) c) with (List.last (y :: q) c).
  rewrite (IH y c), (IH y x). reflexivity.
Qed.

Lemma feat_sub_go_skip c (q s : str) :
  feat_sub_go (Some c) (length q) (q ++ s) = feat_sub_go (Some (List.last q c)) 0 s.
Proof.
  revert c. induction q as [|x q IH]; intros c; [reflexivity|].
  cbn [length app feat_sub_go]. rewrite IH, last_cons_default. reflexivity.
Qed.

(** The scan and its result begin alike, up to the word class. *)
Lemma feat_sub_head prev (s : str) :
  option_map is_word (head (feat_sub_go prev 0 s)) = option_map is_word (head s).
Proof.
  destruct s as [|c s]; [reflexivity|]. cbn [feat_sub_go].
  destruct (feat_match prev (c :: s)) eqn:E; [|reflexivity].
  apply feat_match_some in E as [_ (p & d & r & E1 & _ & E2 & E3)].
  assert (Hat : feat_at (c :: s)) by (exists p, d, r; auto).
  apply feat_at_head in Hat.
  change (option_map is_word (head (c :: s))) with (Some (is_word c)).
  rewrite (lower_cp_word c 102 Hat eq_refl). reflexivity.
Qed.

(** Behind word characters the scan copies. *)
Lemma feat_sub_peel (q : str) : ∀ c (s rest : str),
  Forall (fun x => is_word x = true) (c :: removelast q) →
  feat_sub_go (Some c) 0 s = q ++ rest →
  ∃ s', s = q ++ s' ∧ feat_sub_go (Some (List.last q c)) 0 s' = rest.
Proof.
  induction q as [|x q IH]; intros c s rest Hw Hs.
  - exists s. auto.
  - apply Forall_cons in Hw as [Hc Hw].
    destruct s as [|y s]; [discriminate Hs|].
    cbn [feat_sub_go] in Hs.
    rewrite feat_match_blocked in Hs by (simpl; rewrite Hc; reflexivity).
    injection Hs as -> Hs.
    destruct q as [|x' q].
    + exists s. auto.
    + destruct (IH x s rest) as (s' & -> & Hs'); [exact Hw | exact Hs|].
      exists s'. split; [reflexivity|]. rewrite last_cons_default. exact Hs'.
Qed.

(** A match in what the scan returns behind [c] is a match in what it read. *)
Lemma feat_sub_transfer c (s : str) :
  feat_at (c :: feat_sub_go (Some c) 0 s) → feat_at (c :: s).
Proof.
  intros (p & d & r & E & Hd & Hp).
  destruct (pattern_words p Hp) as (c0 & q & -> & Hw).
  injection E as <- E. rewrite <- app_assoc in E. simpl in E.
  destruct (feat_sub_peel (q ++ [46%N]) c s (d :: r)) as (s' & -> & Hs').
  { rewrite removelast_last. exact Hw. }
  { rewrite <- app_assoc. exact E. }
  pose proof (feat_sub_head (Some (List.last (q ++ [46%N]) c)) s') as Hh.
  rewrite Hs' in Hh. simpl in Hh.
  destruct s' as [|d' r']; [discriminate Hh|]. simpl in Hh. injection Hh as Hh.
  exists (c :: q ++ [46%N]), d', r'.
  split; [reflexivity|]. split; [congruence | exact Hp].
Qed.

Lemma no_feat_cons prev c (s : str) :
  no_feat prev (c :: s) ↔ feat_match prev (c :: s) = None ∧ no_feat (Some c) s.
Proof. reflexivity. Qed.

(** What [_FEAT.sub] returns carries no match: [p'] is the character before
    the result, [prev] the one before the subject; they are the same unless a
    replacement was just written or is being skipped. *)
Lemma feat_sub_go_no_feat (s : str) : ∀ prev k p',
  (before_ok p' = true → k = 0%nat ∧ p' = prev) →
  no_feat p' (feat_sub_go prev k s).
Proof.
  induction s as [|c s IH]; intros prev k p' Hc; [exact I|].
  cbn [feat_sub_go]. destruct k as [|k].
  - destruct (feat_match prev (c :: s)) as [n|] eqn:E.
    + apply feat_match_some in E as [_ (p & d & r & E1 & E2 & E3 & E4)].
      destruct (pattern_words p E4) as (c0 & q & -> & Hw).
      injection E1 as <- ->. subst n.
      assert (Hrest : feat_sub_go (Some c) (length (c :: q ++ [46%N]) - 1)
                                  ((q ++ [46%N]) ++ d :: r)
                      = feat_sub_go (Some 46%N) 0 (d :: r)).
      { cbn [length]. rewrite Nat.sub_1_r. cbn [Nat.pred].
        rewrite feat_sub_go_skip, last_last. reflexivity. }
      rewrite Hrest.
      pose proof (feat_sub_head (Some 46%N) (d :: r)) as Hh.
      assert (Hnf : no_feat (Some 116%N) (feat_sub_go (Some 46%N) 0 (d :: r))).
      { rewrite <- Hrest. apply IH. simpl. discriminate. }
      destruct (feat_sub_go (Some 46%N) 0 (d :: r)) as [|h t] eqn:Eo;
        [discriminate Hh|].
      simpl in Hh. injection Hh as Hh. rewrite E3 in Hh.
      change (lit "feat" ++ h :: t) with (102 :: 101 :: 97 :: 116 :: h :: t)%N.
      apply no_feat_cons. split.
      * apply feat_match_not_at. intros (p2 & d2 & r2 & F1 & _ & F3).
        destruct F3 as [F3|F3].
        -- destruct p2 as [|a0 [|a1 [|a2 [|a3 [|a4 [|]]]]]]; try discriminate F3.
           injection F1 as _ _ _ _ F1 _. subst a4.
           injection F3 as _ _ _ _ F3. exact (word_not_dot h Hh F3).
        -- destruct p2 as [|a0 [|a1 [|a2 [|]]]]; try discriminate F3.
           injection F1 as _ F1 _ _. subst a1. discriminate F3.
      * do 3 (apply no_feat_cons; split; [apply feat_match_blocked; reflexivity|]).
        exact Hnf.
    + cbn [no_feat]. split; [|apply IH; auto].
      destruct (before_ok p') eqn:Eb; [|apply feat_match_blocked, Eb].
      destruct (Hc eq_refl) as [_ ->].
      apply feat_match_not_at. intros Hat. apply feat_sub_transfer in Hat.
      exact (feat_match_found prev (c :: s) Eb Hat E).
  - apply IH. intros Hb. destruct (Hc Hb) as [Hk _]. discriminate Hk.
Qed.

Lemma feat_sub_no_feat (s : str) : no_feat None (feat_sub s).
Proof. apply feat_sub_go_no_feat. auto. Qed.

End FeatFixed.

(** *** The whitespace stages keep a string free of matches *)
Section FeatSpacing.

Lemma feat_match_weaken prev p' (s : str) :
  (before_ok p' = true → before_ok prev = true) →
  feat_match prev s = None → feat_match p' s = None.
Proof.
  intros Hb H. destruct (before_ok p') eqn:E; [|apply feat_match_blocked, E].
  apply feat_match_not_at. apply (feat_match_none_inv prev s H). auto.
Qed.

Lemma no_feat_weaken prev p' (s : str) :
  (before_ok p' = true → before_ok prev = true) → no_feat prev s → no_feat p' s.
Proof.
  destruct s as [|c s]; [trivial|]. intros Hb [H1 H2].
  split; [eapply feat_match_weaken; eauto | exact H2].
Qed.

Lemma space_before_ok c : is_space c = true → before_ok (Some c) = true.
Proof.
  intros H. simpl. apply negb_true_iff.
  destruct (is_word c) eqn:E; [|reflexivity].
  apply word_not_space in E. congruence.
Qed.

Lemma feat_at_no_space c (s : str) : is_space c = true → ¬ feat_at (c :: s).
Proof.
  intros Hs Hat. apply feat_at_head in Hat.
  assert (Hw : is_word c = true) by (eapply lower_cp_word; [exact Hat | reflexivity]).
  apply word_not_space in Hw. congruence.
Qed.

(** Behind characters that are not whitespace, [collapse_go] copies. *)
Lemma collapse_peel (q : str) : ∀ (s rest : str),
  Forall (fun x => is_space x = false) q →
  collapse_go false s = q ++ rest →
  ∃ s', s = q ++ s' ∧ collapse_go false s' = rest.
Proof.
  induction q as [|x q IH]; intros s rest Hq Hs.
  - exists s. auto.
  - apply Forall_cons in Hq as [Hx Hq].
    destruct s as [|y s]; [discriminate Hs|]. simpl in Hs.
    destruct (is_space y) eqn:Ey.
    + injection Hs as <- _. discriminate Hx.
    + injection Hs as -> Hs.
      destruct (IH s rest Hq Hs) as (s' & -> & Hs'). exists s'. auto.
Qed.

Lemma collapse_transfer c (s : str) :
  feat_at (c :: collapse_go false s) → feat_at (c :: s).
Proof.
  intros (p & d & r & E & Hd & Hp).
  destruct (pattern_words p Hp) as (c0 & q & -> & Hw).
  injection E as <- E.
  destruct (collapse_peel ((q ++ [46%N]) ++ [d]) s r) as (s' & -> & _).
  { apply Forall_app. split; [apply Forall_app; split|].
    - apply Forall_cons in Hw as [_ Hw].
      eapply Forall_impl; [exact Hw|]. intros x. apply word_not_space.
    - repeat constructor.
    - repeat constructor. apply word_not_space, Hd. }
  { rewrite <- app_assoc. exact E. }
  exists (c :: q ++ [46%N]), d, s'.
  split; [|auto]. simpl. rewrite <- !app_assoc. reflexivity.
Qed.

Lemma no_feat_collapse_go (s : str) : ∀ b prev p',
  (before_ok p' = true → before_ok prev = true) →
  no_feat prev s → no_feat p' (collapse_go b s).
Proof.
  induction s as [|c s IH]; intros b prev p' Hb H; [exact I|].
  destruct H as [H1 H2]. simpl.
  destruct (is_space c) eqn:Ec.
  - destruct b.
    + apply (IH true (Some c) p'); [intros _; apply space_before_ok, Ec | exact H2].
    + apply no_feat_cons. split.
      * apply feat_match_not_at, feat_at_no_space. reflexivity.
      * apply (IH true (Some c) (Some 32%N));
          [intros _; apply space_before_ok, Ec | exact H2].
  - apply no_feat_cons. split.
    + destruct (before_ok p') eqn:E; [|apply feat_match_blocked, E].
      apply feat_match_not_at. intros Hat. apply collapse_transfer in Hat.
      exact (feat_match_found prev (c :: s) (Hb eq_refl) Hat H1).
    + apply (IH false (Some c) (Some c)); [auto | exact H2].
Qed.

Lemma no_feat_drop_while (s : str) : ∀ prev p',
  (before_ok p' = true → before_ok prev = true) →
  no_feat prev s → no_feat p' (drop_while is_space s).
Proof.
  induction s as [|c s IH]; intros prev p' Hb H; [exact I|].
  simpl. destruct (is_space c) eqn:Ec.
  - destruct H as [_ H2].
    apply (IH (Some c) p'); [intros _; apply space_before_ok, Ec | exact H2].
  - eapply no_feat_weaken; eauto.
Qed.

Lemma feat_at_app (s l : str) : feat_at s → feat_at (s ++ l).
Proof.
  intros (p & d & r & -> & Hd & Hp). exists p, d, (r ++ l).
  rewrite <- app_assoc. auto.
Qed.

Lemma no_feat_prefix (l1 l2 : str) : ∀ prev, no_feat prev (l1 ++ l2) → no_feat prev l1.
Proof.
  induction l1 as [|c l1 IH]; intros prev H; [exact I|].
  destruct H as [H1 H2]. split; [|apply IH, H2].
  destruct (before_ok prev) eqn:E; [|apply feat_match_blocked, E].
  apply feat_match_not_at. intros Hat.
  apply (feat_match_found prev ((c :: l1) ++ l2) E); [|exact H1].
  apply feat_at_app, Hat.
Qed.

Lemma no_feat_strip (s : str) : no_feat None s → no_feat None (strip s).
Proof.
  intros H. unfold strip, lstrip.
  apply (no_feat_drop_while s None None) in H; [|auto].
  destruct (rstrip_prefix (drop_while is_space s)) as [l Hl].
  rewrite Hl in H. eapply no_feat_prefix, H.
Qed.

End FeatSpacing.

(** *** The fixed points of [norm] *)
Section NormFixed.

Lemma plain_stable : stable (fun d => plain d = true).
Proof.
  repeat split; try reflexivity.
  intros c H. unfold plain in *. apply andb_true_iff in H as [H1 H2].
  apply negb_true_iff in H2. unfold lower_cp. rewrite H2, H1, H2. reflexivity.
Qed.

(** A string in normal form is returned as it is. *)
Lemma norm_text_fixed (y : str) :
  trimmed y → Forall (fun d => plain d = true) y → no_feat None y →
  unpaired y → well_spaced false y → norm_text y = y.
Proof.
  intros Ht Hp Hf Hu Hw. rewrite norm_text_stages.
  rewrite (trimmed_strip y Ht), (char_stage_fixed y Hp).
  unfold feat_sub. rewrite (no_feat_fixed None y Hf).
  unfold remove_parens. rewrite (unpaired_fixed y Hu).
  unfold collapse_spaces. rewrite (well_spaced_collapse false y Hw).
  apply trimmed_strip, Ht.
Qed.

(** What [norm] returns is trimmed, made of plain characters and spaced by
    single spaces, whatever the input. *)
Lemma norm_text_shape (x : str) :
  trimmed (norm_text x) ∧ Forall (fun d => plain d = true) (norm_text x) ∧
  well_spaced false (norm_text x).
Proof.
  rewrite norm_text_stages. split; [apply strip_trimmed|]. split.
  - apply Forall_strip, Forall_collapse_go; [reflexivity|].
    apply Forall_remove_parens_go, Forall_feat_sub_go; try reflexivity.
    apply char_stage_all_plain.
  - eapply well_spaced_strip. apply collapse_go_well_spaced.
Qed.

Lemma norm_text_idem_from (x : str) :
  no_feat None (norm_text x) → unpaired (norm_text x) →
  norm_text (norm_text x) = norm_text x.
Proof.
  intros Hf Hu. destruct (norm_text_shape x) as (Ht & Hp & Hw).
  apply norm_text_fixed; assumption.
Qed.

Lemma norm_idem_from (x : option str) :
  (∀ s, x = Some s → norm_text (norm_text s) = norm_text s) →
  norm (norm x) = norm x.
Proof.
  intros H. destruct x as [[|c s]|]; [reflexivity| |reflexivity].
  specialize (H (c :: s) eq_refl).
  change (norm (Some (c :: s))) with (or_none (norm_text (c :: s))).
  destruct (norm_text (c :: s)) as [|d y] eqn:E; [reflexivity|].
  change (or_none (d :: y)) with (Some (d :: y)).
  change (norm (Some (d :: y))) with (or_none (norm_text (d :: y))).
  rewrite H. reflexivity.
Qed.

Definition no_open (s : str) : Prop := Forall (fun d => is_open d = false) s.
Definition no_dot (s : str) : Prop := Forall (fun d => d ≠ 46%N) s.
Definition no_line_feed (s : str) : Prop := Forall (fun d => d ≠ 10%N) s.

Lemma no_open_stable : stable (fun d => is_open d = false).
Proof.
  repeat split; try reflexivity.
  intros c H. unfold lower_cp, is_upper_ascii.
  destruct ((65 <=? c)%N && (c <=? 90)%N) eqn:E; [|exact H].
  apply andb_true_iff in E as [E1 E2]. apply N.leb_le in E1, E2.
  unfold is_open. repeat (apply orb_false_iff; split); apply N.eqb_neq; lia.
Qed.

Lemma neq_stable (k : N) :
  k ≠ 32%N → k ≠ 45%N → k ≠ 102%N → k ≠ 101%N → k ≠ 97%N → k ≠ 116%N →
  (k < 97 ∨ 122 < k)%N → stable (fun d => d ≠ k).
Proof.
  intros H1 H2 H3 H4 H5 H6 H7. repeat split; try congruence.
  intros c H. unfold lower_cp, is_upper_ascii.
  destruct ((65 <=? c)%N && (c <=? 90)%N) eqn:E; [|exact H].
  apply andb_true_iff in E as [E1 E2]. apply N.leb_le in E1, E2. lia.
Qed.

Lemma norm_text_idem_no_open (x : str) :
  no_open x → norm_text (norm_text x) = norm_text x.
Proof.
  intros Hx. apply norm_text_idem_from.
  - rewrite norm_text_stages.
    assert (Ho : no_open (feat_sub (char_stage (strip x)))).
    { destruct no_open_stable as (H32 & H45 & Hf & He & Ha & Ht & Hl).
      apply Forall_feat_sub_go; try assumption.
      apply Forall_char_stage; try assumption. apply Forall_strip, Hx. }
    unfold remove_parens.
    rewrite (unpaired_fixed _ (closed_off_unpaired _ (no_open_closed_off _ Ho))).
    apply no_feat_strip. unfold collapse_spaces.
    apply (no_feat_collapse_go _ false None None); [auto|]. apply feat_sub_no_feat.
  - apply closed_off_unpaired, no_open_closed_off.
    apply Forall_norm_text; [apply no_open_stable | exact Hx].
Qed.

Lemma norm_text_idem_no_dot (x : str) :
  no_dot x → no_line_feed x → norm_text (norm_text x) = norm_text x.
Proof.
  intros Hd Hn. apply norm_text_idem_from.
  - apply no_dot_no_feat. apply Forall_norm_text; [|exact Hd].
    apply neq_stable; lia.
  - apply closed_off_unpaired. rewrite norm_text_stages.
    apply closed_off_strip, closed_off_collapse_go, remove_parens_closed_off.
    assert (Hs : stable (fun d => d ≠ 10%N)) by (apply neq_stable; lia).
    destruct Hs as (H32 & H45 & Hf & He & Ha & Ht & Hl).
    apply Forall_feat_sub_go; try assumption.
    apply Forall_char_stage; try assumption. apply Forall_strip, Hn.
Qed.

End NormFixed.

(** *** Idempotence *)
Section NormIdempotent.

(** The alphabet on which the case mappings and the word class of the
    interpreter are reproduced: ASCII, the whitespace characters, and the
    characters that [norm] rewrites. *)
Definition modelled (c : N) : bool := (c <? 128)%N || is_space c || special c.
Definition in_alphabet (s : str) : Prop := Forall (fun c => modelled c = true) s.

(** **** Opening brackets are only ever removed *)

Definition count_open (s : str) : nat := length (List.filter is_open s).

Lemma count_open_cons c (s : str) :
  count_open (c :: s) = ((if is_open c then 1 else 0) + count_open s)%nat.
Proof. unfold count_open. simpl. destruct (is_open c); reflexivity. Qed.

Lemma count_open_app (a b : str) : count_open (a ++ b) = (count_open a + count_open b)%nat.
Proof. unfold count_open. rewrite List.filter_app, length_app. reflexivity. Qed.

Lemma count_open_rev (s : str) : count_open (rev s) = count_open s.
Proof.
  induction s as [|c s IH]; [reflexivity|].
  simpl rev. rewrite count_open_app, IH, !count_open_cons.
  unfold count_open at 2. simpl. lia.
Qed.

Lemma count_open_drop_while p (s : str) : (count_open (drop_while p s) ≤ count_open s)%nat.
Proof.
  induction s as [|c s IH]; simpl; [lia|].
  destruct (p c); [rewrite count_open_cons; lia | lia].
Qed.

Lemma count_open_strip (s : str) : (count_open (strip s) ≤ count_open s)%nat.
Proof.
  unfold strip, rstrip, lstrip. rewrite count_open_rev.
  etransitivity; [apply count_open_drop_while|]. rewrite count_open_rev.
  apply count_open_drop_while.
Qed.

Lemma space_not_open c : is_space c = true → is_open c = false.
Proof.
  intros H. destruct (is_open c) eqn:E; [|reflexivity]. unfold is_open in E.
  repeat (apply orb_true_iff in E as [E|E]); apply N.eqb_eq in E; subst c; discriminate H.
Qed.

Lemma count_open_collapse b (s : str) : count_open (collapse_go b s) = count_open s.
Proof.
  revert b. induction s as [|c s IH]; intros b; simpl; [reflexivity|].
  destruct (is_space c) eqn:Ec.
  - rewrite (count_open_cons c), (space_not_open c Ec).
    destruct b; [apply IH | rewrite count_open_cons, IH; reflexivity].
  - rewrite !count_open_cons, IH. reflexivity.
Qed.

Lemma count_open_remove k (s : str) :
  (count_open (remove_parens_go k s) ≤ count_open s)%nat.
Proof.
  revert k. induction s as [|c s IH]; intros k; simpl; [lia|].
  rewrite (count_open_cons c s). destruct k as [|k].
  - destruct (is_open c) eqn:Eo.
    + destruct (close_index s).
      * specialize (IH (S n)). lia.
      * rewrite count_open_cons, Eo. specialize (IH 0%nat). lia.
    + rewrite count_open_cons, Eo. specialize (IH 0%nat). lia.
  - specialize (IH k). lia.
Qed.

(** A string that loses no opening bracket has no bracket pair. *)
Lemma count_open_unpaired (s : str) :
  count_open (remove_parens_go 0 s) = count_open s → unpaired s.
Proof.
  induction s as [|c s IH]; simpl; [trivial|].
  rewrite (count_open_cons c s). destruct (is_open c) eqn:Eo.
  - destruct (close_index s) as [k|].
    + pose proof (count_open_remove (S k) s). lia.
    + rewrite count_open_cons, Eo. intros H. split; [reflexivity | apply IH; lia].
  - rewrite count_open_cons, Eo. intros H. split; [discriminate | apply IH; lia].
Qed.

(** A fixed point of [norm] without a match of [_FEAT] has no bracket pair. *)
Lemma norm_text_fixed_unpaired (y : str) :
  trimmed y → Forall (fun d => plain d = true) y → no_feat None y →
  norm_text y = y → unpaired y.
Proof.
  intros Ht Hp Hf H. rewrite norm_text_stages in H.
  rewrite (trimmed_strip y Ht), (char_stage_fixed y Hp) in H.
  unfold feat_sub in H. rewrite (no_feat_fixed None y Hf) in H.
  apply count_open_unpaired.
  pose proof (count_open_remove 0 y) as H1.
  pose proof (count_open_strip (collapse_spaces (remove_parens y))) as H2.
  rewrite H in H2. unfold collapse_spaces in H2. rewrite count_open_collapse in H2.
  unfold remove_parens in H2. lia.
Qed.

(** Without line feeds in the input, no bracket pair is left. *)
Lemma norm_text_unpaired (x : str) : no_line_feed x → unpaired (norm_text x).
Proof.
  intros Hn. apply closed_off_unpaired. rewrite norm_text_stages.
  apply closed_off_strip, closed_off_collapse_go, remove_parens_closed_off.
  assert (Hs : stable (fun d => d ≠ 10%N)) by (apply neq_stable; lia).
  destruct Hs as (H32 & H45 & Hf & He & Ha & Ht & Hl).
  apply Forall_feat_sub_go; try assumption.
  apply Forall_char_stage; try assumption. apply Forall_strip, Hn.
Qed.

(** **** Full stops followed by whitespace *)

Definition spaced_head (s : str) : Prop :=
  match s with
  | [] => True
  | d :: _ => is_space d = true
  end.

(** Every full stop of the string is followed by whitespace or ends it. *)
Fixpoint dots_spaced (s : str) : Prop :=
  match s with
  | [] => True
  | c :: s' => (c = 46%N → spaced_head s') ∧ dots_spaced s'
  end.

Lemma dots_spaced_drop_while p (s : str) : dots_spaced s → dots_spaced (drop_while p s).
Proof.
  induction s as [|c s IH]; simpl; [trivial|].
  intros [H1 H2]. destruct (p c); [apply IH, H2 | simpl; auto].
Qed.

Lemma spaced_head_prefix (l1 l2 : str) : spaced_head (l1 ++ l2) → spaced_head l1.
Proof. destruct l1; simpl; trivial. Qed.

Lemma dots_spaced_prefix (l1 l2 : str) : dots_spaced (l1 ++ l2) → dots_spaced l1.
Proof.
  induction l1 as [|c l1 IH]; simpl; [trivial|].
  intros [H1 H2]. split; [|apply IH, H2].
  intros Hc. eapply spaced_head_prefix, H1, Hc.
Qed.

Lemma dots_spaced_strip (s : str) : dots_spaced s → dots_spaced (strip s).
Proof.
  intros H. unfold strip, lstrip.
  apply (dots_spaced_drop_while is_space) in H.
  destruct (rstrip_prefix (drop_while is_space s)) as [l Hl].
  rewrite Hl in H. eapply dots_spaced_prefix, H.
Qed.

Lemma lower_cp_space c : is_space c = true → lower_cp c = c.
Proof.
  intros H. unfold lower_cp. destruct (is_upper_ascii c) eqn:E; [|reflexivity].
  unfold is_upper_ascii in E. apply andb_true_iff in E as [E1 E2].
  apply N.leb_le in E1, E2. unfold is_space in H.
  repeat (apply orb_true_iff in H as [H|H]);
    try (apply andb_true_iff in H as [H1 H2]; apply N.leb_le in H1, H2);
    try apply N.eqb_eq in H; lia.
Qed.

(** The replacement steps turn whitespace into whitespace. *)
Lemma char_stage_space c :
  is_space c = true → ∃ d, char_stage [c] = [d] ∧ is_space d = true.
Proof.
  intros H. rewrite char_stage_one.
  destruct (is_dash c) eqn:E0.
  { unfold is_dash in E0. apply orb_true_iff in E0 as [E0|E0];
      apply N.eqb_eq in E0; subst c; discriminate H. }
  destruct (is_quote c) eqn:E1.
  { unfold is_quote in E1. repeat (apply orb_true_iff in E1 as [E1|E1]);
      apply N.eqb_eq in E1; subst c; discriminate H. }
  destruct (is_blank c); [exists 32%N; split; reflexivity|].
  exists c. rewrite (lower_cp_space c H). auto.
Qed.

Lemma spaced_head_char_stage (s : str) : spaced_head s → spaced_head (char_stage s).
Proof.
  destruct s as [|d s]; [trivial|]. simpl. intros H.
  rewrite char_stage_cons. destruct (char_stage_space d H) as (d' & -> & Hd). exact Hd.
Qed.

(** The replacement steps make no full stop. *)
Lemma char_stage_dot c d : d ∈ char_stage [c] → d = 46%N → c = 46%N.
Proof.
  rewrite char_stage_one.
  destruct (is_dash c); [intros ->%list_elem_of_singleton; discriminate|].
  destruct (is_quote c); [intros H; inversion H|].
  destruct (is_blank c); [intros ->%list_elem_of_singleton; discriminate|].
  intros ->%list_elem_of_singleton. apply lower_cp_dot.
Qed.

Lemma dots_spaced_app_one (a b : str) :
  (length a ≤ 1)%nat → (∀ d, d ∈ a → d = 46%N → spaced_head b) → dots_spaced b →
  dots_spaced (a ++ b).
Proof.
  destruct a as [|d [|]]; simpl; intros Hl Ha Hb; [exact Hb | | lia].
  split; [|exact Hb]. intros Hd. apply (Ha d); [left | exact Hd].
Qed.

Lemma dots_spaced_char_stage (s : str) : dots_spaced s → dots_spaced (char_stage s).
Proof.
  induction s as [|c s IH]; [trivial|]. intros [H1 H2].
  rewrite char_stage_cons. apply dots_spaced_app_one; [| |apply IH, H2].
  - rewrite char_stage_one.
    destruct (is_dash c); [simpl; lia|]. destruct (is_quote c); [simpl; lia|].
    destruct (is_blank c); simpl; lia.
  - intros d Hd Hdot. apply spaced_head_char_stage, H1.
    eapply char_stage_dot; eassumption.
Qed.

Lemma dots_spaced_after (l r : str) d :
  dots_spaced (l ++ 46%N :: d :: r) → is_space d = true.
Proof.
  induction l as [|c l IH]; simpl; [|intros [_ H]; apply IH, H].
  intros [H _]. apply H. reflexivity.
Qed.

Lemma lower_last_dot (p q : str) : lower p = q ++ [46%N] → ∃ p', p = p' ++ [46%N].
Proof.
  intros H. destruct (rev p) as [|c t] eqn:E.
  - apply (f_equal (@rev N)) in E. rewrite rev_involutive in E. subst p.
    destruct q; discriminate H.
  - apply (f_equal (@rev N)) in E. rewrite rev_involutive in E. simpl in E. subst p.
    exists (rev t). unfold lower in H. rewrite map_app in H. simpl in H.
    apply app_inj_tail in H as [_ H]. apply lower_cp_dot in H. subst c. reflexivity.
Qed.

Lemma dots_spaced_not_feat_at (s : str) : dots_spaced s → ¬ feat_at s.
Proof.
  intros H (p & d & r & -> & Hd & Hp).
  assert (Hl : ∃ p', p = p' ++ [46%N]).
  { destruct Hp as [Hp|Hp].
    - apply (lower_last_dot p (lit "feat")). exact Hp.
    - apply (lower_last_dot p (lit "ft")). exact Hp. }
  destruct Hl as [p' ->]. rewrite <- app_assoc in H. simpl in H.
  apply dots_spaced_after in H. apply word_not_space in Hd. congruence.
Qed.

Lemma dots_spaced_no_feat prev (s : str) : dots_spaced s → no_feat prev s.
Proof.
  revert prev. induction s as [|c s IH]; intros prev H; [exact I|].
  split; [|apply IH, (proj2 H)].
  apply feat_match_not_at, dots_spaced_not_feat_at, H.
Qed.

Lemma spaced_head_remove (s : str) : spaced_head s → spaced_head (remove_parens_go 0 s).
Proof.
  destruct s as [|d s]; [trivial|]. simpl. intros H.
  rewrite (space_not_open d H). exact H.
Qed.

Lemma dots_spaced_remove k (s : str) : dots_spaced s → dots_spaced (remove_parens_go k s).
Proof.
  revert k. induction s as [|c s IH]; intros k; simpl; [trivial|].
  intros [H1 H2]. destruct k as [|k]; [|apply IH, H2].
  destruct (is_open c).
  - destruct (close_index s); [apply IH, H2|].
    simpl. split; [|apply IH, H2]. intros Hc. apply spaced_head_remove, H1, Hc.
  - simpl. split; [|apply IH, H2]. intros Hc. apply spaced_head_remove, H1, Hc.
Qed.

Lemma spaced_head_collapse (s : str) : spaced_head s → spaced_head (collapse_go false s).
Proof.
  destruct s as [|d s]; [trivial|]. simpl. intros H. rewrite H. reflexivity.
Qed.

Lemma dots_spaced_collapse b (s : str) : dots_spaced s → dots_spaced (collapse_go b s).
Proof.
  revert b. induction s as [|c s IH]; intros b; simpl; [trivial|].
  intros [H1 H2]. destruct (is_space c).
  - destruct b; [apply IH, H2|]. simpl. split; [discriminate | apply IH, H2].
  - simpl. split; [|apply IH, H2]. intros Hc. apply spaced_head_collapse, H1, Hc.
Qed.

Lemma norm_text_dots_spaced (x : str) : dots_spaced x → dots_spaced (norm_text x).
Proof.
  intros H. rewrite norm_text_stages.
  apply dots_spaced_strip, dots_spaced_collapse, dots_spaced_remove.
  assert (Hc : dots_spaced (char_stage (strip x)))
    by apply dots_spaced_char_stage, dots_spaced_strip, H.
  unfold feat_sub. rewrite (no_feat_fixed None _ (dots_spaced_no_feat None _ Hc)).
  exact Hc.
Qed.

(** **** Matches of [_FEAT], whatever the word class

    Whether a character beyond ASCII counts as a word character is the
    interpreter's table.  The leading word boundary of the pattern is
    certainly missing only after an ASCII word character, and the trailing
    one only before whitespace, before an ASCII character that is no word
    character, and at the end. *)
Definition may_start (prev : option N) : bool :=
  match prev with
  | None => true
  | Some p => negb ((p <? 128)%N && is_word p)
  end.

(** No position of [s] at which [feat.] or [ft.] could match, whatever the
    table says about the characters beyond ASCII. *)
Fixpoint no_token (prev : option N) (s : str) : Prop :=
  match s with
  | [] => True
  | c :: s' => (may_start prev = true → ¬ feat_at s) ∧ no_token (Some c) s'
  end.

Lemma before_ok_may_start prev : before_ok prev = true → may_start prev = true.
Proof.
  destruct prev as [p|]; [|reflexivity]. simpl. intros H.
  apply negb_true_iff in H. rewrite H, andb_false_r. reflexivity.
Qed.

Lemma no_token_no_feat prev (s : str) : no_token prev s → no_feat prev s.
Proof.
  revert prev. induction s as [|c s IH]; intros prev; [trivial|].
  intros [H1 H2]. split; [|apply IH, H2].
  destruct (before_ok prev) eqn:Eb; [|apply feat_match_blocked, Eb].
  apply feat_match_not_at, H1, before_ok_may_start, Eb.
Qed.

Lemma dots_spaced_no_token prev (s : str) : dots_spaced s → no_token prev s.
Proof.
  revert prev. induction s as [|c s IH]; intros prev H; [exact I|].
  split; [|apply IH, (proj2 H)]. intros _. apply dots_spaced_not_feat_at, H.
Qed.

Lemma no_dot_no_token prev (s : str) : no_dot s → no_token prev s.
Proof.
  intros H. revert prev. induction H as [|c s Hc Hs IH]; intros prev; [exact I|].
  split; [|apply IH]. intros _ Hat.
  apply feat_at_dot in Hat. apply elem_of_cons in Hat as [Hat|Hat]; [congruence|].
  rewrite Forall_forall in Hs. exact (Hs _ Hat eq_refl).
Qed.

(** The same, decided. *)
Fixpoint no_token_b (prev : option N) (s : str) : bool :=
  match s with
  | [] => true
  | c :: s' =>
      (negb (may_start prev) ||
       match feat_match None s with None => true | Some _ => false end) &&
      no_token_b (Some c) s'
  end.

Lemma no_token_literal prev (s : str) : no_token_b prev s = true → no_token prev s.
Proof.
  revert prev. induction s as [|c s IH]; intros prev; [intros _; exact I|].
  cbn [no_token_b no_token]. intros H. apply andb_true_iff in H as [H1 H2].
  split; [|apply IH, H2]. intros Hm. rewrite Hm in H1. cbn [negb orb] in H1.
  destruct (feat_match None (c :: s)) eqn:E; [discriminate|].
  apply (feat_match_none_inv None _ E). reflexivity.
Qed.

(** **** The amended claim *)

Lemma norm_some (x y : str) : norm (Some x) = Some y → y = norm_text x ∧ y ≠ [].
Proof.
  destruct x as [|c x]; [discriminate|].
  change (norm (Some (c :: x))) with (or_none (norm_text (c :: x))).
  unfold or_none. destruct (norm_text (c :: x)) as [|d t]; [discriminate|].
  intros [= <-]. split; [reflexivity | discriminate].
Qed.

Lemma norm_twice (x y : str) :
  norm (Some x) = Some y →
  (norm (norm (Some x)) = norm (Some x) ↔ norm_text y = y).
Proof.
  intros H. rewrite H. destruct (norm_some x y H) as [_ Hy].
  destruct y as [|d t]; [congruence|].
  change (norm (Some (d :: t))) with (or_none (norm_text (d :: t))).
  unfold or_none. destruct (norm_text (d :: t)); cbn [nonempty]; split; congruence.
Qed.

(** C6 (as amended). Take an input in whose normal form [feat.] and [ft.]
    nowhere stand where the pattern [_FEAT] could match.  [norm] is
    idempotent on it exactly when no opening bracket of the normal form can
    reach a closing bracket, and so whenever the input holds no line feed.
    The normal form is of that kind when the input has no full stop, or only
    full stops that are followed by whitespace or end the string.  Besides,
    [norm] is idempotent on every input without opening bracket, on every
    input it maps to the absent value, and on the absent value.  Nothing
    here depends on the case mappings or on the word class beyond ASCII. *)
Theorem norm_idempotent_on (x : str) :
  (∀ y, norm (Some x) = Some y → no_token None y →
        (norm (norm (Some x)) = norm (Some x) ↔ unpaired y) ∧
        (no_line_feed x → norm (norm (Some x)) = norm (Some x))) ∧
  (no_dot x ∨ dots_spaced x → ∀ y, norm (Some x) = Some y → no_token None y) ∧
  (no_open x → norm (norm (Some x)) = norm (Some x)) ∧
  (norm (Some x) = None → norm (norm (Some x)) = norm (Some x)) ∧
  norm (norm None) = norm None.
Proof.
  assert (Hiff : ∀ y, norm (Some x) = Some y → no_token None y →
                      (norm (norm (Some x)) = norm (Some x) ↔ unpaired y)).
  { intros y Hy Hf. apply no_token_no_feat in Hf. rewrite (norm_twice x y Hy).
    destruct (norm_some x y Hy) as [-> _].
    destruct (norm_text_shape x) as (Ht & Hp & Hw). split.
    - apply norm_text_fixed_unpaired; assumption.
    - intros Hu. apply norm_text_fixed; assumption. }
  split; [|split; [|split; [|split; [|reflexivity]]]].
  - intros y Hy Hf. split; [apply Hiff; assumption|].
    intros Hn. apply (Hiff y Hy Hf).
    destruct (norm_some x y Hy) as [-> _]. apply norm_text_unpaired, Hn.
  - intros H y Hy. destruct (norm_some x y Hy) as [-> _].
    destruct H as [H|H].
    + apply no_dot_no_token. apply Forall_norm_text; [|exact H]. apply neq_stable; lia.
    + apply dots_spaced_no_token, norm_text_dots_spaced, H.
  - intros H. apply norm_idem_from. intros s [= <-]. apply norm_text_idem_no_open, H.
  - intros H. rewrite H. reflexivity.
Qed.

Lemma norm_idempotent_on_witness :
  (norm (Some (lit "R.E.M. - Losing My Religion (Live) [2011 Remaster]")) =
     Some (lit "r.e.m. - losing my religion") ∧
   norm (norm (Some (lit "R.E.M. - Losing My Religion (Live) [2011 Remaster]"))) =
     norm (Some (lit "R.E.M. - Losing My Religion (Live) [2011 Remaster]"))) ∧
  (norm (Some (lit "Mr. Brightside (feat. Someone)")) = Some (lit "mr. brightside") ∧
   no_token None (lit "mr. brightside")).
Proof.
  split; (split; [vm_compute; reflexivity|]).
  - apply (proj1 (norm_idempotent_on
                    (lit "R.E.M. - Losing My Religion (Live) [2011 Remaster]"))
             (lit "r.e.m. - losing my religion")).
    + vm_compute. reflexivity.
    + apply no_token_literal. vm_compute. reflexivity.
    + repeat (constructor; [discriminate|]). constructor.
  - apply (proj1 (proj2 (norm_idempotent_on (lit "Mr. Brightside (feat. Someone)")))).
    + right. vm_compute. repeat split; discriminate.
    + vm_compute. reflexivity.
Defined.

(** C6, counterexample. A line feed between the brackets keeps the span in
    the first pass, because the dot of the pattern does not match it; the
    whitespace stage turns the line feed into a space, and the second pass
    removes the span. *)
Lemma norm_not_idempotent_counterexample :
  norm (Some (lit "Song (live" ++ 10%N :: lit "version)")) =
    Some (lit "song (live version)") ∧
  norm (norm (Some (lit "Song (live" ++ 10%N :: lit "version)"))) = Some (lit "song") ∧
  norm (norm (Some (lit "Song (live" ++ 10%N :: lit "version)"))) ≠
    norm (Some (lit "Song (live" ++ 10%N :: lit "version)")).
Proof.
  split; [vm_compute; reflexivity|]. split; [vm_compute; reflexivity|].
  vm_compute. discriminate.
Qed.

(** The inputs that the amended claim leaves aside: removing a bracketed
    span can bring the full stop of [feat.] next to a letter, where the
    pattern, whose trailing word boundary asks for a word character after
    the full stop, matches in the second pass; before a space, as in
    [feat. b], it never matches. *)
Lemma norm_feat_after_brackets :
  norm (Some (lit "feat.(a)b")) = Some (lit "feat.b") ∧
  norm (norm (Some (lit "feat.(a)b"))) = Some (lit "featb") ∧
  norm (Some (lit "feat. b")) = Some (lit "feat. b").
Proof. repeat split; vm_compute; reflexivity. Qed.

End NormIdempotent.

(** ** The shape of a normalised string *)
Section NormShape.

Lemma plain_lower_cp c : plain c = true → lower_cp c = c.
Proof.
  unfold plain, lower_cp. intros H. apply andb_true_iff in H as [_ H].
  apply negb_true_iff in H. rewrite H. reflexivity.
Qed.

Lemma plain_lower_fixed (s : str) : Forall (fun d => plain d = true) s → lower s = s.
Proof.
  induction 1 as [|c s Hc _ IH]; [reflexivity|].
  unfold lower in *. simpl. rewrite IH, plain_lower_cp by exact Hc. reflexivity.
Qed.

Lemma plain_not_special (s : str) :
  Forall (fun d => plain d = true) s → Forall (fun d => special d = false) s.
Proof.
  intros Hs. eapply Forall_impl; [exact Hs|]. intros c H. unfold plain in H.
  apply andb_true_iff in H as [H _]. apply negb_true_iff, H.
Qed.

(** X1. Over the alphabet on which the case mappings are reproduced,
    whatever [norm] returns is a non-empty string without whitespace at
    either end, in lower case, in which every run of whitespace is one
    space, and which holds none of the characters that the replacement
    steps rewrite (dashes, quotes and apostrophes, middle dot, bullet,
    vertical bar, underscore, ideographic space). *)
Theorem norm_result_shape (x t : str) :
  in_alphabet x → norm (Some x) = Some t →
  t ≠ [] ∧ strip t = t ∧ lower t = t ∧ collapse_spaces t = t ∧
  Forall (fun c => special c = false) t.
Proof.
  intros _ H. destruct x as [|c s]; try discriminate.
  change (norm (Some (c :: s))) with (or_none (norm_text (c :: s))) in H.
  apply or_none_some in H as [Hne <-].
  destruct (norm_text_shape (c :: s)) as (Ht & Hp & Hw).
  split; [exact Hne|]. split; [apply trimmed_strip, Ht|].
  split; [apply plain_lower_fixed, Hp|].
  split; [apply well_spaced_collapse, Hw | apply plain_not_special, Hp].
Qed.

Lemma norm_result_shape_witness :
  norm (Some (lit "  The_Song  (Live) ")) = Some (lit "the song") ∧
  (lit "the song" ≠ [] ∧ strip (lit "the song") = lit "the song" ∧
   lower (lit "the song") = lit "the song" ∧
   collapse_spaces (lit "the song") = lit "the song" ∧
   Forall (fun c => special c = false) (lit "the song")).
Proof.
  split; [vm_compute; reflexivity|].
  apply (norm_result_shape (lit "  The_Song  (Live) ")).
  - repeat (constructor; [reflexivity|]). constructor.
  - vm_compute. reflexivity.
Defined.

End NormShape.

(** ** Case of the input of the normaliser *)
Section NormCase.

(** Boolean range tests settled by linear arithmetic. *)
Ltac range_false :=
  apply not_true_iff_false; intros ?;
  repeat match goal with
         | H : _ |- _ =>
             first [ rewrite orb_true_iff in H | rewrite andb_true_iff in H
                   | rewrite N.leb_le in H | rewrite N.eqb_eq in H
                   | rewrite N.ltb_lt in H ]
         end;
  lia.

Lemma lower_range c : is_lower_ascii c = true → (97 ≤ c ≤ 122)%N.
Proof.
  unfold is_lower_ascii. intros H. apply andb_true_iff in H as [H1 H2].
  apply N.leb_le in H1, H2. lia.
Qed.

Lemma upper_range c : is_upper_ascii c = true → (65 ≤ c ≤ 90)%N.
Proof.
  unfold is_upper_ascii. intros H. apply andb_true_iff in H as [H1 H2].
  apply N.leb_le in H1, H2. lia.
Qed.

Lemma letter_not_space c : (65 ≤ c ≤ 122)%N → is_space c = false.
Proof. intros H. unfold is_space. range_false. Qed.

Lemma letter_not_special c : (65 ≤ c ≤ 90 ∨ 97 ≤ c ≤ 122)%N → special c = false.
Proof.
  intros H. unfold special, is_dash, is_quote, is_blank, is_bad_punct. range_false.
Qed.

Lemma is_space_upper_cp c : is_space (upper_cp c) = is_space c.
Proof.
  unfold upper_cp. destruct (is_lower_ascii c) eqn:E; [|reflexivity].
  apply lower_range in E. rewrite !letter_not_space by lia. reflexivity.
Qed.

Lemma is_space_lower_cp c : is_space (lower_cp c) = is_space c.
Proof.
  unfold lower_cp. destruct (is_upper_ascii c) eqn:E; [|reflexivity].
  apply upper_range in E. rewrite !letter_not_space by lia. reflexivity.
Qed.

Lemma drop_while_map (f : N → N) p (s : str) :
  (∀ c, p (f c) = p c) → drop_while p (map f s) = map f (drop_while p s).
Proof.
  intros H. induction s as [|c s IH]; [reflexivity|].
  simpl. rewrite H. destruct (p c); [exact IH | reflexivity].
Qed.

Lemma strip_map (f : N → N) (s : str) :
  (∀ c, is_space (f c) = is_space c) → strip (map f s) = map f (strip s).
Proof.
  intros H. unfold strip, lstrip, rstrip.
  rewrite drop_while_map, <- map_rev, drop_while_map, map_rev by exact H.
  reflexivity.
Qed.

Lemma special_split c :
  special c = false → is_dash c = false ∧ is_quote c = false ∧ is_blank c = false.
Proof.
  unfold special. intros H. apply orb_false_iff in H as [H H3].
  apply orb_false_iff in H as [H1 H2]. auto.
Qed.

Lemma char_stage_letter c :
  (65 ≤ c ≤ 90 ∨ 97 ≤ c ≤ 122)%N → char_stage [c] = [lower_cp c].
Proof.
  intros H. rewrite char_stage_one.
  destruct (special_split c (letter_not_special c H)) as (-> & -> & ->). reflexivity.
Qed.

Lemma lower_upper_cp c : lower_cp (upper_cp c) = lower_cp c.
Proof.
  unfold upper_cp. destruct (is_lower_ascii c) eqn:E; [|reflexivity].
  apply lower_range in E. unfold lower_cp, is_upper_ascii.
  replace ((65 <=? c - 32)%N && (c - 32 <=? 90)%N) with true
    by (symmetry; apply andb_true_iff; split; apply N.leb_le; lia).
  replace ((65 <=? c)%N && (c <=? 90)%N) with false
    by (symmetry; apply andb_false_iff; right; apply N.leb_gt; lia).
  lia.
Qed.

Lemma upper_lower_cp c : upper_cp (lower_cp c) = upper_cp c.
Proof.
  unfold lower_cp. destruct (is_upper_ascii c) eqn:E; [|reflexivity].
  apply upper_range in E. unfold upper_cp, is_lower_ascii.
  replace ((97 <=? c + 32)%N && (c + 32 <=? 122)%N) with true
    by (symmetry; apply andb_true_iff; split; apply N.leb_le; lia).
  replace ((97 <=? c)%N && (c <=? 122)%N) with false
    by (symmetry; apply andb_false_iff; left; apply N.leb_gt; lia).
  lia.
Qed.

Lemma lower_lower_cp c : lower_cp (lower_cp c) = lower_cp c.
Proof.
  unfold lower_cp at 2 3. destruct (is_upper_ascii c) eqn:E.
  - apply upper_range in E. unfold lower_cp, is_upper_ascii.
    replace ((65 <=? c + 32)%N && (c + 32 <=? 90)%N) with false
      by (symmetry; apply andb_false_iff; right; apply N.leb_gt; lia).
    reflexivity.
  - unfold lower_cp. rewrite E. reflexivity.
Qed.

Lemma char_stage_upper_cp c : char_stage [upper_cp c] = char_stage [c].
Proof.
  unfold upper_cp. destruct (is_lower_ascii c) eqn:E; [|reflexivity].
  pose proof (lower_range c E) as Hr.
  rewrite !char_stage_letter by lia.
  f_equal. rewrite <- (lower_upper_cp c). unfold upper_cp. rewrite E. reflexivity.
Qed.

Lemma char_stage_lower_cp c : char_stage [lower_cp c] = char_stage [c].
Proof.
  unfold lower_cp at 1. destruct (is_upper_ascii c) eqn:E; [|reflexivity].
  pose proof (upper_range c E) as Hr.
  rewrite !char_stage_letter by lia.
  f_equal. rewrite <- (lower_lower_cp c). unfold lower_cp at 3. rewrite E. reflexivity.
Qed.

Lemma char_stage_map (f : N → N) (s : str) :
  (∀ c, char_stage [f c] = char_stage [c]) → char_stage (map f s) = char_stage s.
Proof.
  intros H. induction s as [|c s IH]; [reflexivity|].
  simpl. rewrite (char_stage_cons (f c)), (char_stage_cons c), H, IH. reflexivity.
Qed.

Lemma norm_text_map (f : N → N) (s : str) :
  (∀ c, is_space (f c) = is_space c) →
  (∀ c, char_stage [f c] = char_stage [c]) →
  norm_text (map f s) = norm_text s.
Proof.
  intros H1 H2. rewrite !norm_text_stages, strip_map, char_stage_map by assumption.
  reflexivity.
Qed.

Lemma norm_map (f : N → N) (s : str) :
  (∀ c, is_space (f c) = is_space c) →
  (∀ c, char_stage [f c] = char_stage [c]) →
  norm (Some (map f s)) = norm (Some s).
Proof.
  intros H1 H2. destruct s as [|c s]; [reflexivity|].
  change (norm (Some (map f (c :: s)))) with (or_none (norm_text (map f (c :: s)))).
  rewrite norm_text_map by assumption. reflexivity.
Qed.

(** X2. Over the alphabet on which the case mappings are reproduced, the
    case of the input does not matter to [norm]: the upper-cased and the
    lower-cased string normalise to what the string itself normalises to. *)
Theorem norm_ignores_case (s : str) :
  in_alphabet s →
  norm (Some (upper s)) = norm (Some s) ∧ norm (Some (lower s)) = norm (Some s).
Proof.
  intros _. split.
  - apply norm_map; [apply is_space_upper_cp | apply char_stage_upper_cp].
  - apply norm_map; [apply is_space_lower_cp | apply char_stage_lower_cp].
Qed.

Lemma norm_ignores_case_witness :
  in_alphabet (lit "Loaded Gun") ∧
  upper (lit "Loaded Gun") = lit "LOADED GUN" ∧
  norm (Some (upper (lit "Loaded Gun"))) = norm (Some (lit "Loaded Gun")) ∧
  norm (Some (lower (lit "Loaded Gun"))) = norm (Some (lit "Loaded Gun")).
Proof.
  assert (H : in_alphabet (lit "Loaded Gun"))
    by (repeat (constructor; [reflexivity|]); constructor).
  split; [exact H|]. split; [vm_compute; reflexivity|].
  apply (norm_ignores_case (lit "Loaded Gun") H).
Defined.

End NormCase.

(** ** Range of the similarity *)
Section Similarity.

Lemma pos_of_nat_Z (u : nat) : u ≠ 0%nat → Z.pos (Pos.of_nat u) = Z.of_nat u.
Proof.
  intros H. destruct u as [|u]; [congruence|].
  rewrite <- positive_nat_Z, Nat2Pos.id by discriminate. reflexivity.
Qed.

Lemma ratio_le (x : Q) (i u : nat) :
  u ≠ 0%nat → (Qle x (ratio i u) ↔ (Qnum x * Z.of_nat u ≤ Z.of_nat i * Z.pos (Qden x))%Z).
Proof.
  intros Hu. unfold ratio.
  assert (E : Qeq (Qred (Z.of_nat i # Pos.of_nat u)) (Z.of_nat i # Pos.of_nat u))
    by apply Qred_correct.
  rewrite E. unfold Qle. simpl. rewrite pos_of_nat_Z by exact Hu. reflexivity.
Qed.

Lemma le_ratio (x : Q) (i u : nat) :
  u ≠ 0%nat → (Qle (ratio i u) x ↔ (Z.of_nat i * Z.pos (Qden x) ≤ Qnum x * Z.of_nat u)%Z).
Proof.
  intros Hu. unfold ratio.
  assert (E : Qeq (Qred (Z.of_nat i # Pos.of_nat u)) (Z.of_nat i # Pos.of_nat u))
    by apply Qred_correct.
  rewrite E. unfold Qle. simpl. rewrite pos_of_nat_Z by exact Hu. reflexivity.
Qed.

Lemma inter_union_size (A B : gset str) : (size (A ∩ B) ≤ size (A ∪ B))%nat.
Proof. apply subseteq_size. set_solver. Qed.

Lemma inter_union_full (A B : gset str) : size (A ∩ B) = size (A ∪ B) → A = B.
Proof.
  intros H.
  assert (E : A ∩ B = A ∪ B).
  { apply set_subseteq_size_eq; [set_solver | lia]. }
  apply leibniz_equiv. apply set_equiv. intros x. split; intros Hx.
  - assert (Hu : x ∈ A ∪ B) by (apply elem_of_union; left; exact Hx).
    rewrite <- E in Hu. apply elem_of_intersection in Hu. tauto.
  - assert (Hu : x ∈ A ∪ B) by (apply elem_of_union; right; exact Hx).
    rewrite <- E in Hu. apply elem_of_intersection in Hu. tauto.
Qed.

(** The two shapes of a value of [jaccard]. *)
Lemma jaccard_cases (a b : option str) :
  jaccard a b = 0%Q ∨
  (tokens a ≠ ∅ ∧ tokens b ≠ ∅ ∧ size (tokens a ∪ tokens b) ≠ 0%nat ∧
   jaccard a b = ratio (size (tokens a ∩ tokens b)) (size (tokens a ∪ tokens b))).
Proof.
  unfold jaccard.
  destruct (bool_decide (tokens a = ∅)) eqn:Ea; [left; reflexivity|].
  destruct (bool_decide (tokens b = ∅)) eqn:Eb; [left; reflexivity|].
  simpl. destruct (bool_decide (size (tokens a ∪ tokens b) = 0%nat)) eqn:Eu;
    [left; reflexivity|].
  right. apply bool_decide_eq_false in Ea, Eb, Eu. auto.
Qed.

(** X3. The similarity is a number between 0 and 1. *)
Theorem jaccard_bounds (a b : option str) :
  Qle 0 (jaccard a b) ∧ Qle (jaccard a b) 1.
Proof.
  destruct (jaccard_cases a b) as [->|(_ & _ & Hu & ->)].
  - split; discriminate.
  - pose proof (inter_union_size (tokens a) (tokens b)).
    split; [apply ratio_le | apply le_ratio]; try exact Hu; simpl; lia.
Qed.

(** X4. The similarity is exactly 1 when, and only when, the two strings
    have the same set of tokens and that set is not empty. *)
Theorem jaccard_one_iff (a b : option str) :
  jaccard a b = 1%Q ↔ tokens a ≠ ∅ ∧ tokens a = tokens b.
Proof.
  split.
  - intros H. destruct (jaccard_cases a b) as [E|(Ha & _ & Hu & E)].
    + rewrite E in H. discriminate H.
    + split; [exact Ha|]. apply inter_union_full.
      assert (Hle : Qle 1 (jaccard a b)) by (rewrite H; discriminate).
      rewrite E in Hle. apply ratio_le in Hle; [|exact Hu]. simpl in Hle.
      pose proof (inter_union_size (tokens a) (tokens b)). lia.
  - intros [Ha Hab].
    assert (Hb : tokens b ≠ ∅) by (rewrite <- Hab; exact Ha).
    unfold jaccard. rewrite <- Hab.
    rewrite (bool_decide_eq_false_2 _ Ha). simpl.
    assert (Hi : tokens a ∩ tokens a = tokens a) by set_solver.
    assert (Hu : tokens a ∪ tokens a = tokens a) by set_solver.
    rewrite Hi, Hu.
    assert (Hs : size (tokens a) ≠ 0%nat).
    { intros H. apply size_empty_iff in H. apply Ha. apply leibniz_equiv, H. }
    rewrite (bool_decide_eq_false_2 _ Hs). apply ratio_diag, Hs.
Qed.

(** X5. The two thresholds of the fuzzy tier leave room for a difference
    only between long titles: a similarity of at least 0.85 between strings
    with fewer than 7 distinct tokens in all, or of at least 0.90 with fewer
    than 10, is a similarity between equal token sets. *)
Theorem fuzzy_threshold_short_titles (a b : option str) :
  (ge_085 (jaccard a b) = true → (size (tokens a ∪ tokens b) < 7)%nat →
   tokens a = tokens b) ∧
  (ge_090 (jaccard a b) = true → (size (tokens a ∪ tokens b) < 10)%nat →
   tokens a = tokens b).
Proof.
  pose proof (inter_union_size (tokens a) (tokens b)) as Hle.
  split; intros H Hn; unfold ge_085, ge_090 in H; apply Qle_bool_iff in H;
    (destruct (jaccard_cases a b) as [E|(_ & _ & Hu & E)]; rewrite E in H;
     [exfalso; revert H; unfold Qle; simpl; lia|]);
    apply inter_union_full; apply ratio_le in H; try exact Hu; simpl in H; lia.
Qed.

Lemma fuzzy_threshold_short_titles_witness :
  ge_085 (jaccard (Some (lit "loaded gun")) (Some (lit "gun - loaded"))) = true ∧
  tokens (Some (lit "loaded gun")) = tokens (Some (lit "gun - loaded")).
Proof.
  assert (H : ge_085 (jaccard (Some (lit "loaded gun")) (Some (lit "gun - loaded"))) = true)
    by (vm_compute; reflexivity).
  split; [exact H|].
  apply (proj1 (fuzzy_threshold_short_titles (Some (lit "loaded gun"))
                  (Some (lit "gun - loaded")))); [exact H|].
  vm_compute. lia.
Defined.

End Similarity.

(** ** Tokens *)
Section Tokens.

Local Abbreviation split := (split_runs is_token_sep).
Local Abbreviation word := (fun p : str => p ≠ []).

(** Whether a separator run is open makes no difference to the words. *)
Lemma split_runs_in_run (s : str) :
  filter word (split [] true s) = filter word (split [] false s).
Proof.
  destruct s as [|c s]; [reflexivity|]. cbn [split_runs].
  destruct (is_token_sep c); [|reflexivity].
  rewrite filter_cons_False by (simpl; congruence). reflexivity.
Qed.

Lemma split_runs_app (a b : str) (c : N) (cur : str) (r : bool) :
  is_token_sep c = true → (r = true → cur = []) →
  filter word (split cur r (a ++ c :: b)) =
  filter word (split cur r a) ++ filter word (split [] false b).
Proof.
  intros Hc. revert cur r. induction a as [|x a IH]; intros cur r Hr.
  - cbn [app split_runs]. rewrite Hc. destruct r.
    + rewrite (Hr eq_refl). cbn [rev].
      rewrite filter_cons_False by (simpl; congruence). rewrite filter_nil.
      apply split_runs_in_run.
    + rewrite !filter_cons, filter_nil.
      destruct (decide (rev cur ≠ [])); cbn [app]; [f_equal|]; apply split_runs_in_run.
  - cbn [app split_runs]. destruct (is_token_sep x).
    + destruct r.
      * apply IH. reflexivity.
      * rewrite !filter_cons.
        destruct (decide (rev cur ≠ [])); cbn [app]; [f_equal|]; apply IH; reflexivity.
    + apply IH. discriminate.
Qed.

Lemma tokens_words (s : str) : tokens (Some s) = list_to_set (filter word (split [] false s)).
Proof.
  destruct s; [|reflexivity]. cbn [tokens split_runs rev].
  rewrite filter_cons_False by (simpl; congruence). reflexivity.
Qed.

Lemma tokens_app (a b : str) (c : N) :
  is_token_sep c = true →
  tokens (Some (a ++ c :: b)) = tokens (Some a) ∪ tokens (Some b).
Proof.
  intros Hc. rewrite !tokens_words, split_runs_app by (exact Hc || discriminate).
  apply list_to_set_app_L.
Qed.

(** Every part returned by the splitter is free of separators and is a
    contiguous piece of the text. *)
Lemma split_runs_parts (s cur : str) (r : bool) (t : str) :
  Forall (fun c => is_token_sep c = false) cur →
  t ∈ split cur r s →
  Forall (fun c => is_token_sep c = false) t ∧ ∃ l1 l2, rev cur ++ s = l1 ++ t ++ l2.
Proof.
  revert cur r. induction s as [|c s IH]; intros cur r Hcur Ht.
  - simpl in Ht. apply list_elem_of_singleton in Ht as ->.
    split; [apply Forall_rev, Hcur|]. exists [], []. rewrite !app_nil_r. reflexivity.
  - simpl in Ht. destruct (is_token_sep c) eqn:Ec.
    + assert (Hrest : t ∈ split [] true s →
                Forall (fun c => is_token_sep c = false) t ∧
                ∃ l1 l2, rev cur ++ c :: s = l1 ++ t ++ l2).
      { intros H. destruct (IH [] true (List.Forall_nil _) H) as (H1 & l1 & l2 & E).
        split; [exact H1|]. exists (rev cur ++ c :: l1), l2.
        simpl in E. rewrite E, <- app_assoc. reflexivity. }
      destruct r; [exact (Hrest Ht)|].
      apply elem_of_cons in Ht as [->|Ht]; [|exact (Hrest Ht)].
      split; [apply Forall_rev, Hcur|]. exists [], (c :: s). reflexivity.
    + destruct (IH (c :: cur) false) with (2 := Ht) as (H1 & l1 & l2 & E).
      { constructor; assumption. }
      split; [exact H1|]. exists l1, l2. rewrite <- E. simpl.
      rewrite <- app_assoc. reflexivity.
Qed.

(** X6. A token is a non-empty piece of the text in which no separator
    occurs. *)
Theorem tokens_are_words (s : option str) (t : str) :
  t ∈ tokens s →
  t ≠ [] ∧ Forall (fun c => is_token_sep c = false) t ∧
  ∃ s0 l1 l2, s = Some s0 ∧ s0 = l1 ++ t ++ l2.
Proof.
  intros H. destruct s as [s0|]; [|set_solver].
  rewrite tokens_words in H. apply elem_of_list_to_set, list_elem_of_filter in H as [Hne Ht].
  destruct (split_runs_parts s0 [] false t (List.Forall_nil _) Ht) as (H1 & l1 & l2 & E).
  split; [exact Hne|]. split; [exact H1|]. exists s0, l1, l2. auto.
Qed.

Lemma tokens_are_words_witness :
  lit "gun" ∈ tokens (Some (lit "loaded gun")) ∧
  lit "gun" ≠ [] ∧ Forall (fun c => is_token_sep c = false) (lit "gun").
Proof.
  assert (H : lit "gun" ∈ tokens (Some (lit "loaded gun"))).
  { refine (bool_decide_unpack _ _). vm_compute. exact I. }
  split; [exact H|].
  destruct (tokens_are_words (Some (lit "loaded gun")) (lit "gun") H) as (H1 & H2 & _).
  split; assumption.
Defined.

(** X7. The tokens of two texts joined by a separator are the tokens of the
    one and of the other; so the similarity does not see in which order the
    words of a title come. *)
Theorem tokens_of_joined (a b : str) (c : N) :
  is_token_sep c = true →
  tokens (Some (a ++ c :: b)) = tokens (Some a) ∪ tokens (Some b) ∧
  ∀ x, jaccard (Some (a ++ c :: b)) x = jaccard (Some (b ++ c :: a)) x.
Proof.
  intros Hc.
  assert (E : tokens (Some (a ++ c :: b)) = tokens (Some (b ++ c :: a))).
  { rewrite !tokens_app by exact Hc. set_solver. }
  split; [apply tokens_app, Hc|].
  intros x. unfold jaccard. rewrite E. reflexivity.
Qed.

Lemma tokens_of_joined_witness :
  is_token_sep 32 = true ∧
  tokens (Some (lit "loaded" ++ 32%N :: lit "gun")) =
    tokens (Some (lit "loaded")) ∪ tokens (Some (lit "gun")).
Proof.
  split; [reflexivity|].
  apply (proj1 (tokens_of_joined (lit "loaded") (lit "gun") 32 eq_refl)).
Defined.

End Tokens.

(** ** Limits of the interpreter

    [int] refuses a numeral of more than 4300 digits, the CSV reader a field
    of more than 131072 characters (and, before version 3.11, a line with a
    NUL character), and the UTF-8 encoder a surrogate code point.  The
    statements about parsed lines, whole playlists and reports are made for
    texts within these limits; a report field holds one line, one path, or
    at most five paths of the index. *)
Definition encodable (s : str) : Prop :=
  (length s ≤ 4300)%nat ∧
  Forall (fun c => (0 < c < 55296 ∨ 57343 < c ≤ 1114111)%N) s.

Definition within_limits (lines : list str) (music_index : list item) : Prop :=
  Forall encodable lines ∧
  Forall (fun it => ∀ p, it_path it = Some p → encodable p) music_index.

(** An ASCII literal of moderate length is within the limits. *)
Ltac encodable_lit :=
  split; [simpl; lia | repeat (constructor; [left; split; reflexivity|]); constructor].
Ltac within_limits_lit :=
  split;
  [ repeat (constructor; [encodable_lit|]); constructor
  | repeat (constructor; [intros ? [= <-]; encodable_lit|]); constructor ].

(** ** EXTINF lines *)
Section ExtinfLines.

Lemma match_comma {A} (l : str) (f : str → A) (d : A) :
  match l with 44%N :: r => f r | _ => d end =
  match l with
  | c :: r => if (c =? 44)%N then f r else d
  | [] => d
  end.
Proof.
  destruct l as [|c r]; [reflexivity|].
  destruct (N.eqb_spec c 44) as [->|H]; [reflexivity|].
  destruct c as [|p]; [reflexivity|].
  do 6 (try destruct p as [p|p|]; try reflexivity); congruence.
Qed.

Lemma match_minus {A} (l : str) (f : str → A) (d : A) :
  match l with 45%N :: r => f r | _ => d end =
  match l with
  | c :: r => if (c =? 45)%N then f r else d
  | [] => d
  end.
Proof.
  destruct l as [|c r]; [reflexivity|].
  destruct (N.eqb_spec c 45) as [->|H]; [reflexivity|].
  destruct c as [|p]; [reflexivity|].
  do 6 (try destruct p as [p|p|]; try reflexivity); congruence.
Qed.

Lemma existsb_line_feed (s : str) :
  existsb (N.eqb 10) s = false → Forall (fun c => c ≠ 10%N) s.
Proof.
  induction s as [|c s IH]; cbn [existsb]; [constructor|].
  intros H. apply orb_false_iff in H as [H1 H2].
  constructor; [|apply IH, H2]. apply N.eqb_neq in H1. congruence.
Qed.

Lemma line_feed_existsb (s : str) :
  Forall (fun c => c ≠ 10%N) s → existsb (N.eqb 10) s = false.
Proof.
  induction 1 as [|c s Hc _ IH]; cbn [existsb]; [reflexivity|].
  rewrite IH, orb_false_r. apply N.eqb_neq. congruence.
Qed.

(** X8. On a line within the limits of the interpreter, [parse_extinf]
    returns a duration and a display together or not at all; it returns
    them only for a line that, once trimmed, begins with [#EXTINF:]; and the
    display it returns is trimmed and holds no line feed. *)
Theorem parse_extinf_result (line : str) :
  encodable line →
  match parse_extinf line with
  | (None, None) => True
  | (Some _, Some disp) =>
      startswith (lit "#EXTINF:") (strip line) = true ∧
      strip disp = disp ∧ Forall (fun c => c ≠ 10%N) disp
  | _ => False
  end.
Proof.
  intros _. unfold parse_extinf.
  destruct (startswith (lit "#EXTINF:") (strip line)) eqn:E; [|exact I].
  destruct (match drop 8 (strip line) with
            | 45%N :: r' => ((-1)%Z, r')
            | _ => (1%Z, drop 8 (strip line))
            end) as [sign r1].
  destruct (run_length is_digit r1) as [|n]; [exact I|].
  rewrite match_comma.
  destruct (drop_while is_space (drop (S n) r1)) as [|c r3]; [exact I|].
  destruct (c =? 44)%N; [|exact I].
  destruct (existsb (N.eqb 10) (drop_while is_space r3)) eqn:El; [exact I|].
  split; [reflexivity|]. split; [apply strip_idem|].
  apply Forall_strip, existsb_line_feed, El.
Qed.

Lemma parse_extinf_result_witness :
  parse_extinf (lit "#EXTINF:215, Art - Song ") = (Some 215%Z, Some (lit "Art - Song")) ∧
  strip (lit "Art - Song") = lit "Art - Song".
Proof.
  split; [vm_compute; reflexivity|].
  assert (H : encodable (lit "#EXTINF:215, Art - Song ")) by encodable_lit.
  pose proof (parse_extinf_result (lit "#EXTINF:215, Art - Song ") H) as R.
  change (parse_extinf (lit "#EXTINF:215, Art - Song "))
    with (Some 215%Z, Some (lit "Art - Song")) in R.
  exact (proj1 (proj2 R)).
Defined.

Lemma drop_while_app_all p (l r : str) :
  forallb p l = true → drop_while p (l ++ r) = drop_while p r.
Proof.
  induction l as [|c l IH]; simpl; [reflexivity|].
  destruct (p c); simpl; [exact IH | discriminate].
Qed.

(** Whitespace around a trimmed text is what [strip] takes away. *)
Lemma strip_padded (ws0 body ws3 : str) :
  forallb is_space ws0 = true → forallb is_space ws3 = true → trimmed body →
  strip (ws0 ++ body ++ ws3) = body.
Proof.
  intros H0 H3 [Hl Hr]. unfold strip, lstrip, rstrip.
  rewrite drop_while_app_all by exact H0.
  destruct body as [|c body].
  - simpl. rewrite (drop_while_all _ ws3 H3). reflexivity.
  - pose proof (drop_while_head _ _ _ _ Hl) as Hc.
    cbn [app drop_while]. rewrite Hc.
    change (c :: body ++ ws3) with ((c :: body) ++ ws3).
    rewrite rev_app_distr, drop_while_app_all, Hr, rev_involutive; [reflexivity|].
    rewrite forallb_forall in *. intros x Hx. apply H3, in_rev, Hx.
Qed.

Lemma run_length_app p (ds rest : str) :
  Forall (fun c => p c = true) ds →
  match rest with c :: _ => p c = false | [] => True end →
  run_length p (ds ++ rest) = length ds.
Proof.
  intros Hd Hr. induction Hd as [|c ds Hc _ IH]; simpl.
  - destruct rest as [|c rest]; [reflexivity|]. simpl. rewrite Hr. reflexivity.
  - rewrite Hc, IH. reflexivity.
Qed.

Lemma space_not_digit c : is_space c = true → is_digit c = false.
Proof.
  intros H. unfold is_digit. apply not_true_iff_false. intros Hd.
  apply andb_true_iff in Hd as [H1 H2]. apply N.leb_le in H1, H2.
  assert (E : is_space c = false); [|congruence].
  unfold is_space. apply not_true_iff_false. intros Hs.
  repeat match goal with
         | H : _ |- _ =>
             first [ rewrite orb_true_iff in H | rewrite andb_true_iff in H
                   | rewrite N.leb_le in H | rewrite N.eqb_eq in H ]
         end.
  lia.
Qed.

Lemma trimmed_wrap (h : N) (mid body : str) :
  is_space h = false → body ≠ [] → trimmed body → trimmed (h :: mid ++ body).
Proof.
  intros Hh Hne [_ Hr]. split; [simpl; rewrite Hh; reflexivity|].
  change (h :: mid ++ body) with ((h :: mid) ++ body). rewrite rev_app_distr.
  destruct (rev body) as [|c rd] eqn:Erd.
  - apply (f_equal (@rev N)) in Erd. rewrite rev_involutive in Erd. contradiction.
  - pose proof (drop_while_head _ _ _ _ Hr) as Hc. simpl. rewrite Hc. reflexivity.
Qed.

(** X9. A line made of [#EXTINF:], an optional minus sign, at most 4300
    ASCII digits, a comma and a display, with any whitespace around the
    comma and around the whole line, parses to the number and to the
    display. *)
Theorem parse_extinf_well_formed (neg : bool) (ws0 ds ws1 ws2 disp ws3 : str) :
  forallb is_space ws0 = true → forallb is_space ws1 = true →
  forallb is_space ws2 = true → forallb is_space ws3 = true →
  ds ≠ [] → (length ds ≤ 4300)%nat → Forall (fun c => is_digit c = true) ds →
  disp ≠ [] → strip disp = disp → Forall (fun c => c ≠ 10%N) disp →
  parse_extinf (ws0 ++ (lit "#EXTINF:" ++ (if neg then lit "-" else []) ++ ds ++
                        ws1 ++ lit "," ++ ws2 ++ disp) ++ ws3)
  = (Some (if neg then - Z_of_digits ds else Z_of_digits ds)%Z, Some disp).
Proof.
  intros H0 H1 H2 H3 Hds _ Hdig Hdisp Hstrip Hlf.
  assert (Htr : trimmed disp) by (rewrite <- Hstrip; apply strip_trimmed).
  unfold parse_extinf. rewrite strip_padded; try assumption.
  2:{ set (sign := if neg then lit "-" else []).
      replace (lit "#EXTINF:" ++ sign ++ ds ++ ws1 ++ lit "," ++ ws2 ++ disp)
        with (35%N :: (lit "EXTINF:" ++ sign ++ ds ++ ws1 ++ lit "," ++ ws2) ++ disp)
        by (rewrite <- !app_assoc; reflexivity).
      apply trimmed_wrap; [reflexivity | exact Hdisp | exact Htr]. }
  set (tail := ws1 ++ lit "," ++ ws2 ++ disp).
  assert (Htail : match tail with c :: _ => is_digit c = false | [] => True end).
  { unfold tail. destruct ws1 as [|w ws1]; [reflexivity|]. simpl in H1 |- *.
    apply andb_true_iff in H1 as [H1 _]. apply space_not_digit, H1. }
  change (startswith (lit "#EXTINF:") (lit "#EXTINF:" ++ ?x)) with true.
  cbn match. change (drop 8 (lit "#EXTINF:" ++ ?x)) with x.
  assert (Hrun : run_length is_digit (ds ++ tail) = length ds)
    by (apply run_length_app; assumption).
  assert (Hdrop : drop_while is_space tail = 44%N :: ws2 ++ disp).
  { unfold tail. rewrite drop_while_app_all by exact H1. reflexivity. }
  assert (Hrest : drop_while is_space (ws2 ++ disp) = disp).
  { rewrite drop_while_app_all by exact H2. apply Htr. }
  assert (Hlen : length ds ≠ 0%nat) by (destruct ds; simpl; congruence).
  destruct neg.
  - change (lit "-" ++ ds ++ tail) with (45%N :: ds ++ tail). cbn match.
    rewrite Hrun. destruct (length ds) as [|n] eqn:En; [congruence|].
    rewrite <- En, drop_app_length, Hdrop, Hrest, (line_feed_existsb _ Hlf),
      take_app_length, Hstrip.
    repeat f_equal; try lia.
  - change ([] ++ ds ++ tail) with (ds ++ tail).
    rewrite match_minus.
    destruct ds as [|d ds']; [congruence|].
    change ((d :: ds') ++ tail) with (d :: ds' ++ tail).
    assert (Hd : (d =? 45)%N = false).
    { inversion Hdig as [|? ? Hd _]; subst. unfold is_digit in Hd.
      apply andb_true_iff in Hd as [Hd _]. apply N.leb_le in Hd. apply N.eqb_neq. lia. }
    cbv beta iota. rewrite Hd. change (d :: ds' ++ tail) with ((d :: ds') ++ tail).
    rewrite Hrun. destruct (length (d :: ds')) as [|n] eqn:En; [congruence|].
    rewrite <- En, drop_app_length, Hdrop, Hrest, (line_feed_existsb _ Hlf),
      take_app_length, Hstrip.
    repeat f_equal; try lia.
Qed.

Lemma parse_extinf_well_formed_witness :
  parse_extinf (lit "  " ++ (lit "#EXTINF:" ++ [] ++ lit "215" ++ lit " " ++ lit "," ++
                             lit " " ++ lit "Art - Song") ++ lit " ")
  = (Some 215%Z, Some (lit "Art - Song")).
Proof.
  apply (parse_extinf_well_formed false (lit "  ") (lit "215") (lit " ") (lit " ")
           (lit "Art - Song") (lit " "));
    try reflexivity; try discriminate.
  - simpl. lia.
  - repeat (constructor; [reflexivity|]). constructor.
  - repeat (constructor; [discriminate|]). constructor.
Defined.

End ExtinfLines.

(** ** Candidate pairs *)
Section CandidatePairs.

Lemma dedup_pairs_spec (seen : gset (str * option str)) pairs :
  NoDup (dedup_pairs seen pairs) ∧
  ∀ x, x ∈ dedup_pairs seen pairs → (x ∉ seen) ∧ x ∈ pairs ∧ x.1 ≠ [].
Proof.
  revert seen. induction pairs as [|[t a] ps IH]; intros seen; simpl.
  - split; [constructor|]. intros x Hx. inversion Hx.
  - destruct (nonempty t) eqn:Et; simpl.
    + case_bool_decide as Hs.
      * destruct (IH seen) as [H1 H2]. split; [exact H1|].
        intros x Hx. destruct (H2 x Hx) as (? & ? & ?).
        repeat split; try assumption. right. assumption.
      * destruct (IH ({[(t, a)]} ∪ seen)) as [H1 H2]. split.
        -- constructor; [|exact H1]. intros Hin. apply H2 in Hin as [Hin _].
           apply Hin. apply elem_of_union. left. apply elem_of_singleton. reflexivity.
        -- intros x Hx. apply elem_of_cons in Hx as [->|Hx].
           ++ split; [exact Hs|]. split; [left|]. simpl. apply nonempty_true, Et.
           ++ destruct (H2 x Hx) as (Hn & ? & ?).
              split; [|split; [right|]; assumption].
              intros Hin. apply Hn. apply elem_of_union. right. exact Hin.
    + destruct (IH seen) as [H1 H2]. split; [exact H1|].
      intros x Hx. destruct (H2 x Hx) as (? & ? & ?).
      repeat split; try assumption. right. assumption.
Qed.

Lemma dedup_pairs_length (seen : gset (str * option str)) pairs :
  (length (dedup_pairs seen pairs) ≤ length pairs)%nat.
Proof.
  revert seen. induction pairs as [|[t a] ps IH]; intros seen; simpl; [lia|].
  destruct (negb (nonempty t) || bool_decide ((t, a) ∈ seen)); simpl.
  - specialize (IH seen). lia.
  - specialize (IH ({[(t, a)]} ∪ seen)). lia.
Qed.

Lemma raw_pairs_length parts : (length (raw_pairs parts) ≤ 6)%nat.
Proof. destruct parts as [|p0 [|p1 [|p2 ps]]]; simpl; lia. Qed.

Lemma last_elem_of (l : list str) d : l ≠ [] → List.last l d ∈ l.
Proof.
  induction l as [|x l IH]; [congruence|]. intros _.
  destruct l as [|y l]; [left|]. right. apply IH. discriminate.
Qed.

(** The artist of a raw pair, when there is one, is one of the parts. *)
Lemma raw_pairs_artist parts x a :
  x ∈ raw_pairs parts → x.2 = Some a → a ∈ parts.
Proof.
  intros Hx Ha.
  destruct parts as [|p0 [|p1 [|p2 ps]]].
  - inversion Hx.
  - apply list_elem_of_singleton in Hx as ->. discriminate.
  - cbn [raw_pairs] in Hx.
    repeat (apply elem_of_cons in Hx as [->|Hx]; [simpl in Ha; injection Ha as <-|]);
      [right; left | left | inversion Hx].
  - remember (p0 :: p1 :: p2 :: ps) as l eqn:El.
    assert (Hl : List.last l [] ∈ l) by (apply last_elem_of; subst l; discriminate).
    assert (H0 : p0 ∈ l) by (subst l; left).
    assert (Hx' : x ∈ [ (p1, Some p0); (join SEP (tail l), Some p0);
                         (join SEP (removelast l), Some (List.last l []));
                         (join SEP l, None); (join SEP (removelast l), None);
                         (p1, None) ]) by (subst l; exact Hx).
    clear Hx El.
    repeat (apply elem_of_cons in Hx' as [->|Hx']; [simpl in Ha; try discriminate Ha;
                                                     injection Ha as <-; assumption|]).
    inversion Hx'.
Qed.

(** X10. The candidate pairs of a display: no pair occurs twice, there are
    at most six, every title is non-empty, and an artist is either absent
    or the non-empty normal form of a part of the display. *)
Theorem candidate_pairs_shape (disp : str) :
  let pairs := candidate_pairs_from_display disp in
  NoDup pairs ∧ (length pairs ≤ 6)%nat ∧
  Forall (fun p => p.1 ≠ [] ∧
                   ∀ a, p.2 = Some a → a ≠ [] ∧ ∃ part, norm (Some part) = Some a) pairs.
Proof.
  unfold candidate_pairs_from_display.
  destruct disp as [|c disp]; [simpl; repeat split; try constructor; lia|].
  set (parts := omap _ _).
  destruct (dedup_pairs_spec ∅ (raw_pairs parts)) as [H1 H2].
  split; [exact H1|]. split.
  - etransitivity; [apply dedup_pairs_length | apply raw_pairs_length].
  - apply Forall_forall. intros x Hx.
    destruct (H2 x Hx) as (_ & Hraw & Ht). split; [exact Ht|].
    intros a Ha. pose proof (raw_pairs_artist parts x a Hraw Ha) as Hin.
    unfold parts in Hin. apply list_elem_of_omap in Hin as (part & _ & Hn).
    pose proof (norm_some_nonempty _ _ Hn) as Hne.
    split; [exact Hne | exists part; exact Hn].
Qed.

End CandidatePairs.

(** ** What [find_matches] can return *)
Section MatchSoundness.

Lemma find_matches_candidates music_index tol title_n artist_n dur e :
  e ∈ find_matches (build_by_dur music_index) tol title_n artist_n dur →
  e ∈ candidates (build_by_dur music_index) tol dur.
Proof.
  rewrite find_matches_spec.
  destruct (exact_spec _ title_n artist_n) eqn:E.
  - unfold fuzzy_spec. rewrite elem_of_filter_bool. tauto.
  - rewrite <- E. unfold exact_spec. rewrite elem_of_filter_bool. tauto.
Qed.

(** X11. Every entry returned by [find_matches] comes from an index item
    that passes the guard of the bucket loop, has its duration within the
    tolerance of the queried one, has the queried artist when one is given,
    and has either the queried title or a title whose similarity with it
    reaches the threshold (0.85 with an artist, 0.90 without). *)
Theorem find_matches_sound music_index tol title_n artist_n dur e :
  e ∈ find_matches (build_by_dur music_index) tol title_n artist_n dur →
  (∃ it, it ∈ music_index ∧ bucket_entry it = Some e) ∧
  (dur - tol ≤ duration e ≤ dur + tol)%Z ∧
  (∀ a, artist_n = Some a → artist e = a) ∧
  ∃ t, title_n = Some t ∧
       (title e = t ∨
        Qle (match artist_n with Some _ => 85 # 100 | None => 90 # 100 end)
            (jaccard (Some t) (Some (title e)))).
Proof.
  intros H. pose proof (find_matches_candidates _ _ _ _ _ _ H) as Hc.
  apply elem_of_candidates in Hc as [Hin Hw].
  split; [unfold entries in Hin; apply list_elem_of_omap in Hin; exact Hin|].
  split; [exact Hw|].
  rewrite find_matches_spec in H.
  destruct (exact_spec _ title_n artist_n) eqn:E.
  - destruct title_n as [t|]; [|rewrite fuzzy_spec_no_title in H by reflexivity; inversion H].
    unfold fuzzy_spec in H. apply elem_of_filter_bool in H as [_ H].
    destruct artist_n as [a|].
    + apply andb_true_iff in H as [H1 H2]. apply bool_decide_eq_true in H1.
      split; [intros a' [= <-]; exact H1|]. exists t. split; [reflexivity|].
      right. apply Qle_bool_iff, H2.
    + split; [discriminate|]. exists t. split; [reflexivity|].
      right. apply Qle_bool_iff, H.
  - rewrite <- E in H. unfold exact_spec in H. apply elem_of_filter_bool in H as [_ H].
    apply andb_true_iff in H as [H1 H2]. apply bool_decide_eq_true in H1.
    split.
    + intros a ->. apply orb_true_iff in H2 as [H2|H2].
      * apply bool_decide_eq_true in H2. discriminate.
      * apply bool_decide_eq_true in H2. congruence.
    + exists (title e). split; [congruence | left; reflexivity].
Qed.

Lemma find_matches_sound_witness :
  let e := Entry (lit "near") (lit "a") 198 (lit "/m/198.mp3") in
  e ∈ find_matches (build_by_dur boundary_index) 2 (Some (lit "near")) (Some (lit "a")) 200 ∧
  (200 - 2 ≤ duration e ≤ 200 + 2)%Z.
Proof.
  intros e.
  assert (H : e ∈ find_matches (build_by_dur boundary_index) 2
                    (Some (lit "near")) (Some (lit "a")) 200).
  { refine (bool_decide_unpack _ _). vm_compute. exact I. }
  split; [exact H|].
  exact (proj1 (proj2 (find_matches_sound boundary_index 2 (Some (lit "near"))
                         (Some (lit "a")) 200 e H))).
Defined.

End MatchSoundness.

(** ** The report and the output of [repair_playlist] *)
Section RepairReport.
Import Repair.

Variable path_exists : str -> bool.
Variable music_index : list item.
Variable dur_tol : Z.

Local Abbreviation repair_unit := (Repair.repair_unit path_exists music_index dur_tol).
Local Abbreviation repair_loop := (Repair.repair_loop path_exists music_index dur_tol).
Local Abbreviation repair_playlist := (Repair.repair_playlist path_exists music_index dur_tol).
Local Abbreviation find := (find_matches (build_by_dur music_index) dur_tol).

(** How a unit was settled, as its row tells. *)
Inductive settled (p : str) (row : report_row) : Prop :=
  | settled_kept :
      status row = KEPT → path_exists p = true → written_path row = p →
      notes row = [] → settled p row
  | settled_repaired d dp m :
      status row = REPAIRED → path_exists p = false →
      extinf_duration row = Some d → extinf_display row = Some dp → (0 ≤ d)%Z →
      all_matches_for music_index dur_tol dp d = [m] → written_path row = path m →
      notes row = [] → settled p row
  | settled_ambiguous d dp ms :
      status row = AMBIGUOUS → path_exists p = false →
      extinf_duration row = Some d → extinf_display row = Some dp → (0 ≤ d)%Z →
      all_matches_for music_index dur_tol dp d = ms → (2 ≤ length ms)%nat →
      written_path row = p →
      notes row = join (lit " | ") (map path (take 5 ms)) → settled p row
  | settled_failed d dp :
      status row = FAILED → path_exists p = false →
      extinf_duration row = Some d → extinf_display row = Some dp → (0 ≤ d)%Z →
      all_matches_for music_index dur_tol dp d = [] → written_path row = p →
      notes row = lit "no match" → settled p row
  | settled_no_extinf :
      status row = FAILED_NO_EXTINF → path_exists p = false →
      (extinf_duration row = None ∨ (∃ d, extinf_duration row = Some d ∧ (d < 0)%Z) ∨
       extinf_display row = None ∨ extinf_display row = Some []) →
      written_path row = p → notes row = lit "no duration or display" → settled p row.

(** The counter that a status feeds. *)
Definition counted (st st' : state) (row : report_row) : Prop :=
  kept st' = (kept st + if str_eqb (status row) KEPT then 1 else 0)%nat ∧
  repaired st' = (repaired st + if str_eqb (status row) REPAIRED then 1 else 0)%nat ∧
  ambiguous st' = (ambiguous st + if str_eqb (status row) AMBIGUOUS then 1 else 0)%nat ∧
  failed st' = (failed st + if str_eqb (status row) FAILED || str_eqb (status row) FAILED_NO_EXTINF
                            then 1 else 0)%nat.

(** One unit adds one row and one output line, the written path of the row. *)
Lemma repair_unit_row st line p :
  ∃ row,
    report_rows (repair_unit st line p) = report_rows st ++ [row] ∧
    out_lines (repair_unit st line p) = out_lines st ++ [written_path row] ∧
    total (repair_unit st line p) = S (total st) ∧
    counted st (repair_unit st line p) row ∧
    original_path row = p ∧
    parse_extinf line = (extinf_duration row, extinf_display row) ∧
    settled p row.
Proof.
  unfold Repair.repair_unit. destruct (parse_extinf line) as [dur disp].
  destruct (path_exists p) eqn:Ep.
  { eexists. repeat split; try reflexivity; simpl; try lia.
    apply settled_kept; auto. }
  destruct dur as [d|].
  2:{ eexists. repeat split; try reflexivity; simpl; try lia.
      apply settled_no_extinf; auto. }
  destruct disp as [[|c dp]|].
  1,3: eexists; (repeat split; try reflexivity; simpl; try lia);
       apply settled_no_extinf; auto.
  destruct (d <? 0)%Z eqn:Ed.
  { eexists. repeat split; try reflexivity; simpl; try lia.
    apply settled_no_extinf; auto. right. left. exists d. split; [reflexivity|].
    apply Z.ltb_lt, Ed. }
  apply Z.ltb_ge in Ed.
  destruct (all_matches_for music_index dur_tol (c :: dp) d) as [|m [|m' ms]] eqn:Em.
  - eexists. repeat split; try reflexivity; simpl; try lia.
    eapply settled_failed; eauto.
  - eexists. repeat split; try reflexivity; simpl; try lia.
    eapply settled_repaired; eauto.
  - eexists. repeat split; try reflexivity; simpl; try lia.
    eapply settled_ambiguous; eauto. simpl. lia.
Qed.

(** The output in the words of a line-by-line rewrite: every line is kept
    without its line feed, except the line after an EXTINF line, which is
    replaced by the next of [paths]. *)
Fixpoint weave (lines paths : list str) : list str :=
  match lines with
  | [] => []
  | l :: rest =>
      rstrip_char 10 l ::
      match rest with
      | nxt :: rest' =>
          if startswith (lit "#EXTINF") (rstrip_char 10 l)
          then match paths with
               | p :: ps => p :: weave rest' ps
               | [] => rstrip_char 10 nxt :: weave rest' []
               end
          else weave rest paths
      | [] => []
      end
  end.

Lemma weave_step l nxt rest paths :
  weave (l :: nxt :: rest) paths =
  rstrip_char 10 l ::
  if startswith (lit "#EXTINF") (rstrip_char 10 l)
  then match paths with
       | p :: ps => p :: weave rest ps
       | [] => rstrip_char 10 nxt :: weave rest []
       end
  else weave (nxt :: rest) paths.
Proof. reflexivity. Qed.

Lemma weave_length lines paths : length (weave lines paths) = length lines.
Proof.
  revert paths. induction lines as [| l | l nxt rest IH1 IH2] using lines_ind; intros paths.
  - reflexivity.
  - reflexivity.
  - rewrite weave_step. destruct (startswith _ _).
    + destruct paths; cbn [length]; rewrite IH1; reflexivity.
    + cbn [length]. rewrite IH2. reflexivity.
Qed.

(** What the loop adds to a state. *)
Record added (lines : list str) (st st' : state) (rows : list report_row) : Prop := {
  added_rows : report_rows st' = report_rows st ++ rows;
  added_lines : out_lines st' = out_lines st ++ weave lines (map written_path rows);
  added_units : Forall2 (fun u row => original_path row = u.2 ∧
                                      parse_extinf u.1 = (extinf_duration row, extinf_display row) ∧
                                      settled u.2 row) (units lines) rows;
  added_total : total st' = (total st + length rows)%nat;
  added_kept :
    kept st' = (kept st + length (List.filter (fun r => str_eqb (status r) KEPT) rows))%nat;
  added_repaired :
    repaired st' =
    (repaired st + length (List.filter (fun r => str_eqb (status r) REPAIRED) rows))%nat;
  added_ambiguous :
    ambiguous st' =
    (ambiguous st + length (List.filter (fun r => str_eqb (status r) AMBIGUOUS) rows))%nat;
  added_failed :
    failed st' =
    (failed st + length (List.filter (fun r => str_eqb (status r) FAILED ||
                                               str_eqb (status r) FAILED_NO_EXTINF) rows))%nat
}.

Lemma repair_loop_added lines : ∀ st, ∃ rows, added lines st (repair_loop lines st) rows.
Proof.
  induction lines as [| l | l nxt rest IH1 IH2] using lines_ind; intros st.
  - exists []. split; simpl; rewrite ?app_nil_r; try reflexivity; try lia. constructor.
  - exists []. split; simpl; rewrite ?app_nil_r; try reflexivity; try lia. constructor.
  - rewrite repair_loop_step.
    destruct (startswith (lit "#EXTINF") (rstrip_char 10 l)) eqn:E.
    + destruct (repair_unit_row (emit st (rstrip_char 10 l)) (rstrip_char 10 l)
                                (rstrip_char 10 nxt))
        as (row & R1 & R2 & R3 & (C1 & C2 & C3 & C4) & R5 & R6 & R7).
      destruct (IH1 (repair_unit (emit st (rstrip_char 10 l)) (rstrip_char 10 l)
                                 (rstrip_char 10 nxt))) as [rows [A1 A2 A3 A4 A5 A6 A7 A8]].
      exists (row :: rows). split.
      * rewrite A1, R1. simpl. rewrite <- app_assoc. reflexivity.
      * rewrite A2, R2, weave_step, E. simpl. rewrite <- !app_assoc. reflexivity.
      * rewrite units_step, E. constructor; [|exact A3]. simpl. auto.
      * rewrite A4, R3. simpl. lia.
      * rewrite A5, C1. simpl. destruct (str_eqb (status row) KEPT); simpl; lia.
      * rewrite A6, C2. simpl. destruct (str_eqb (status row) REPAIRED); simpl; lia.
      * rewrite A7, C3. simpl. destruct (str_eqb (status row) AMBIGUOUS); simpl; lia.
      * rewrite A8, C4. simpl.
        destruct (str_eqb (status row) FAILED || str_eqb (status row) FAILED_NO_EXTINF);
          simpl; lia.
    + destruct (IH2 (emit st (rstrip_char 10 l))) as [rows [A1 A2 A3 A4 A5 A6 A7 A8]].
      exists rows. split; try assumption.
      * rewrite A2, weave_step, E. simpl. rewrite <- app_assoc. reflexivity.
      * rewrite units_step, E. exact A3.
Qed.

Lemma repair_playlist_added lines :
  added lines init (repair_playlist lines) (report_rows (repair_playlist lines)).
Proof.
  destruct (repair_loop_added lines init) as [rows H].
  pose proof (added_rows _ _ _ _ H) as E. simpl in E.
  unfold Repair.repair_playlist. rewrite E. exact H.
Qed.

Lemma settled_status p row :
  settled p row →
  status row ∈ [KEPT; REPAIRED; AMBIGUOUS; FAILED; FAILED_NO_EXTINF].
Proof.
  intros [H|? ? ? H|? ? ? H|? ? H|H]; rewrite H; set_solver.
Qed.

Lemma status_partition (rows : list report_row) :
  Forall (fun r => status r ∈ [KEPT; REPAIRED; AMBIGUOUS; FAILED; FAILED_NO_EXTINF]) rows →
  (length (List.filter (fun r => str_eqb (status r) KEPT) rows) +
   length (List.filter (fun r => str_eqb (status r) REPAIRED) rows) +
   length (List.filter (fun r => str_eqb (status r) AMBIGUOUS) rows) +
   length (List.filter (fun r => str_eqb (status r) FAILED ||
                                 str_eqb (status r) FAILED_NO_EXTINF) rows))%nat
  = length rows.
Proof.
  induction 1 as [|r rows Hr _ IH]; [reflexivity|].
  cbn [List.filter length].
  repeat (apply elem_of_cons in Hr as [Hr|Hr]);
    [rewrite Hr;
     repeat match goal with
            | |- context [str_eqb ?a ?b] =>
                let v := eval vm_compute in (str_eqb a b) in
                change (str_eqb a b) with v
            end; simpl; lia ..| inversion Hr].
Qed.

Lemma report_statuses (lines : list str) :
  Forall (fun r => status r ∈ [KEPT; REPAIRED; AMBIGUOUS; FAILED; FAILED_NO_EXTINF])
         (report_rows (repair_playlist lines)).
Proof.
  destruct (repair_playlist_added lines) as [_ _ A3 _ _ _ _ _].
  induction A3 as [|u row us rows (_ & _ & H) _ IH]; constructor.
  - eapply settled_status, H.
  - exact IH.
Qed.

(** The four outcome counters add up to the total. *)
Lemma repair_counters_sum (lines : list str) :
  let st := repair_playlist lines in
  (kept st + repaired st + ambiguous st + failed st = total st)%nat.
Proof.
  intros st. destruct (repair_playlist_added lines) as [_ _ _ A4 A5 A6 A7 A8].
  fold st in A4, A5, A6, A7, A8. simpl in A4, A5, A6, A7, A8.
  rewrite A4, A5, A6, A7, A8. apply status_partition, report_statuses.
Qed.

(** X12. Within the limits of the interpreter, the summary of
    [repair_playlist] agrees with its report and with the playlist: there
    is one row per EXTINF unit, [total] counts the rows, each of the four
    other counters counts the rows of its status, the four add up to
    [total], and the output has as many lines as the playlist. *)
Theorem repair_playlist_accounting (lines : list str) :
  within_limits lines music_index →
  let st := repair_playlist lines in
  let n (p : str → bool) := length (List.filter (fun r => p (status r)) (report_rows st)) in
  length (report_rows st) = length (units lines) ∧
  total st = length (report_rows st) ∧
  kept st = n (fun s => str_eqb s KEPT) ∧
  repaired st = n (fun s => str_eqb s REPAIRED) ∧
  ambiguous st = n (fun s => str_eqb s AMBIGUOUS) ∧
  failed st = n (fun s => str_eqb s FAILED || str_eqb s FAILED_NO_EXTINF) ∧
  (kept st + repaired st + ambiguous st + failed st = total st)%nat ∧
  length (out_lines st) = length lines.
Proof.
  intros _ st n. destruct (repair_playlist_added lines) as [A1 A2 A3 A4 A5 A6 A7 A8].
  fold st in A1, A2, A3, A4, A5, A6, A7, A8. simpl in A4, A5, A6, A7, A8.
  split; [symmetry; eapply Forall2_length, A3|].
  split; [exact A4|]. split; [exact A5|]. split; [exact A6|]. split; [exact A7|].
  split; [exact A8|].
  split; [apply repair_counters_sum|].
  rewrite A2. simpl. apply weave_length.
Qed.

(** Where the accumulated matches come from. *)
Lemma add_unseen_elem acc ms m :
  m ∈ add_unseen acc ms → m ∈ acc ∨ m ∈ ms.
Proof.
  unfold add_unseen. rewrite elem_of_app, elem_of_filter_bool. tauto.
Qed.

Lemma collect_elem {A} (f : A → list entry) (xs : list A) acc m :
  m ∈ foldl (fun acc x => add_unseen acc (f x)) acc xs →
  m ∈ acc ∨ ∃ x, x ∈ xs ∧ m ∈ f x.
Proof.
  revert acc. induction xs as [|x xs IH]; intros acc; simpl; [auto|].
  intros H. apply IH in H as [H|(y & Hy & H)].
  - apply add_unseen_elem in H as [H|H]; [auto|]. right. exists x. split; [left | exact H].
  - right. exists y. split; [right; exact Hy | exact H].
Qed.

Lemma all_matches_for_elem disp dur m :
  m ∈ all_matches_for music_index dur_tol disp dur →
  ∃ t a, m ∈ find (Some t) a dur.
Proof.
  unfold all_matches_for, collect_pairs, collect_title_only, by_dur.
  rewrite (foldl_ext_fun _ (fun acc p => add_unseen acc (find (Some p.1) p.2 dur)))
    by (intros a [t ar]; reflexivity).
  rewrite (foldl_ext_fun (fun acc '(t, _) => _)
             (fun acc p => add_unseen acc (find (Some p.1) None dur)))
    by (intros a [t ar]; reflexivity).
  intros H.
  assert (H' : m ∈ foldl (fun acc p => add_unseen acc (find (Some p.1) p.2 dur)) []
                     (candidate_pairs_from_display disp) ∨
               m ∈ foldl (fun acc p => add_unseen acc (find (Some p.1) None dur)) []
                     (candidate_pairs_from_display disp)).
  { destruct (foldl (fun acc p => add_unseen acc (find (Some p.1) p.2 dur)) [] _);
      [destruct (candidate_pairs_from_display disp); [inversion H | right; exact H]
      | left; exact H]. }
  destruct H' as [H'|H']; apply collect_elem in H' as [H'|(x & _ & H')];
    try (inversion H'; fail); eauto.
Qed.

(** X13. What a row of the report says about its unit, within the limits
    of the interpreter.  The row belongs to an EXTINF unit of the playlist,
    whose second line is its original path.  A KEPT row is a unit whose file
    exists.  A REPAIRED row is a unit whose file is missing and whose
    written path is the path of an index entry with a duration within the
    tolerance of the EXTINF duration: the repair never writes a path that is
    not in the index.  Every other row is a unit whose file is missing, and
    its written path is the original one. *)
Theorem repair_report_sound (lines : list str) (row : report_row) :
  within_limits lines music_index →
  row ∈ report_rows (repair_playlist lines) →
  (∃ u, u ∈ units lines ∧ original_path row = u.2 ∧
        parse_extinf u.1 = (extinf_duration row, extinf_display row)) ∧
  ((status row = KEPT ∧ path_exists (original_path row) = true ∧
    written_path row = original_path row) ∨
   (status row = REPAIRED ∧ path_exists (original_path row) = false ∧
    ∃ d it e, extinf_duration row = Some d ∧ (0 ≤ d)%Z ∧
              it ∈ music_index ∧ bucket_entry it = Some e ∧
              (d - dur_tol ≤ duration e ≤ d + dur_tol)%Z ∧
              written_path row = path e) ∨
   (status row ∈ [AMBIGUOUS; FAILED; FAILED_NO_EXTINF] ∧
    path_exists (original_path row) = false ∧
    written_path row = original_path row)).
Proof.
  intros _ Hrow. destruct (repair_playlist_added lines) as [_ _ A3 _ _ _ _ _].
  destruct (proj1 (list_elem_of_lookup _ _) Hrow) as [i Hi].
  destruct (Forall2_lookup_r _ _ _ _ _ A3 Hi) as (u & Hu & Ho & Hp & Hs).
  split.
  { exists u. split; [eapply list_elem_of_lookup_2, Hu | auto]. }
  rewrite Ho.
  destruct Hs as [H1 H2 H3 H4|d dp m H1 H2 H3 H4 H5 H6 H7 H8|d dp ms H1 H2 H3 H4 H5 H6 H7 H8 H9
                 |d dp H1 H2 H3 H4 H5 H6 H7 H8|H1 H2 H3 H4 H5].
  - left. auto.
  - right. left. split; [exact H1|]. split; [exact H2|].
    assert (Hm : m ∈ all_matches_for music_index dur_tol dp d) by (rewrite H6; left).
    apply all_matches_for_elem in Hm as (t & a & Hm).
    apply find_matches_candidates, elem_of_candidates in Hm as [Hin Hw].
    unfold entries in Hin. apply list_elem_of_omap in Hin as (it & Hit & He).
    exists d, it, m. auto 10.
  - right. right. split; [rewrite H1; set_solver | auto].
  - right. right. split; [rewrite H1; set_solver | auto].
  - right. right. split; [rewrite H1; set_solver | auto].
Qed.

(** X14. Within the limits of the interpreter, the output playlist is the
    input rewritten line by line: every line is kept, without its line
    feed, except the second line of each EXTINF unit, in place of which the
    written path of the unit's row stands. *)
Theorem repair_playlist_output (lines : list str) :
  within_limits lines music_index →
  let st := repair_playlist lines in
  out_lines st = weave lines (map written_path (report_rows st)) ∧
  length (report_rows st) = length (units lines).
Proof.
  intros _ st. destruct (repair_playlist_added lines) as [_ A2 A3 _ _ _ _ _].
  split; [exact A2 | symmetry; eapply Forall2_length, A3].
Qed.

End RepairReport.

(** A playlist of two units, one to repair and one that is on disk. *)
Definition mixed_playlist : list str :=
  [lit "#EXTM3U"; lit "#EXTINF:200,a - near"; lit "/old/near.mp3";
   lit "#EXTINF:100,x - y"; lit "/m/here.mp3"].

Definition on_disk (p : str) : bool := str_eqb p (lit "/m/here.mp3").

Lemma mixed_playlist_within_limits : within_limits mixed_playlist boundary_index.
Proof. within_limits_lit. Qed.

Lemma repair_playlist_accounting_witness :
  let st := Repair.repair_playlist on_disk boundary_index 2 mixed_playlist in
  (Repair.total st, Repair.kept st, Repair.repaired st) = (2, 1, 1)%nat ∧
  (Repair.kept st + Repair.repaired st + Repair.ambiguous st + Repair.failed st)%nat
    = Repair.total st.
Proof.
  intros st. split; [vm_compute; reflexivity|].
  pose proof (repair_playlist_accounting on_disk boundary_index 2 mixed_playlist
                mixed_playlist_within_limits) as H.
  exact (proj1 (proj2 (proj2 (proj2 (proj2 (proj2 (proj2 H))))))).
Defined.

Lemma repair_report_sound_witness :
  let row := Repair.Row Repair.REPAIRED (Some 200%Z) (Some (lit "a - near"))
                        (lit "/old/near.mp3") (lit "/m/198.mp3") [] in
  row ∈ Repair.report_rows (Repair.repair_playlist on_disk boundary_index 2 mixed_playlist) ∧
  ∃ u, u ∈ units mixed_playlist ∧ Repair.original_path row = u.2.
Proof.
  intros row.
  assert (H : row ∈ Repair.report_rows
                      (Repair.repair_playlist on_disk boundary_index 2 mixed_playlist)).
  { vm_compute. left. }
  split; [exact H|].
  destruct (proj1 (repair_report_sound on_disk boundary_index 2 mixed_playlist row
                     mixed_playlist_within_limits H))
    as (u & Hu & Ho & _).
  exists u. auto.
Defined.

Lemma repair_playlist_output_witness :
  Repair.out_lines (Repair.repair_playlist on_disk boundary_index 2 mixed_playlist) =
  [lit "#EXTM3U"; lit "#EXTINF:200,a - near"; lit "/m/198.mp3";
   lit "#EXTINF:100,x - y"; lit "/m/here.mp3"].
Proof.
  rewrite (proj1 (repair_playlist_output on_disk boundary_index 2 mixed_playlist
                    mixed_playlist_within_limits)).
  vm_compute. reflexivity.
Defined.

(** ** The unresolved view *)
Section UnresolvedView.
Import Runner.

Variable path_name : str -> str.
Variable parse_int : str -> option Z.

(** The kind that [_classify_for_ui] gives to a row. *)
Definition kind_of (r : report_dict) : str := classify_status (get_or_empty r "status").

Lemma classify_fold_partition playlist pl_key rows acc :
  foldl (classify_step path_name parse_int playlist pl_key) acc rows =
  (acc.1 ++ map (ui_row_of path_name parse_int playlist pl_key)
                (List.filter (fun r => str_eqb (kind_of r) AMBIGUOUS) rows),
   acc.2 ++ map (ui_row_of path_name parse_int playlist pl_key)
                (List.filter (fun r => str_eqb (kind_of r) FAILED) rows)).
Proof.
  revert acc. induction rows as [|r rows IH]; intros [amb fail].
  - simpl. rewrite !app_nil_r. reflexivity.
  - cbn [foldl List.filter]. rewrite IH. unfold classify_step, kind_of.
    destruct (classify_status_cases (get_or_empty r "status")) as [H|[H|[H|H]]];
      rewrite H; simpl; rewrite <- ?app_assoc; reflexivity.
Qed.

(** X15. The unresolved view of a report is made of two lists: the rows
    whose status classifies as ambiguous and the rows whose status
    classifies as failed, each in report order; a row of any other kind is
    in neither list, and no row is in both. *)
Theorem classify_for_ui_partition (rows : list report_dict) (playlist name : str) :
  classify_for_ui path_name parse_int rows playlist name =
  (map (ui_row_of path_name parse_int playlist (canonical_key name))
       (List.filter (fun r => str_eqb (kind_of r) AMBIGUOUS) rows),
   map (ui_row_of path_name parse_int playlist (canonical_key name))
       (List.filter (fun r => str_eqb (kind_of r) FAILED) rows)).
Proof. unfold classify_for_ui. rewrite classify_fold_partition. reflexivity. Qed.

End UnresolvedView.

(** ** The report file, read back *)
Section ReportReadBack.
Import Runner.

Ltac key_ne := let H := fresh in intros H; vm_compute in H; discriminate H.

(** A row written by [repair_playlist] and read back by [_read_report_rows]:
    the six columns, and the position as the row index. *)
Lemma read_row_csv i (row : Repair.report_row) :
  cols (read_row i (csv_dict row)) =
    <[lit "row_index" := str_of_Z (Z.of_nat i)]> (csv_dict row) ∧
  row_i (read_row i (csv_dict row)) = i.
Proof.
  assert (Hd : delete (lit "_i") (csv_dict row) = csv_dict row).
  { apply delete_id. unfold csv_dict. simpl.
    rewrite !lookup_insert_ne by key_ne. apply lookup_empty. }
  assert (Hri : csv_dict row !! lit "row_index" = None).
  { unfold csv_dict. simpl. rewrite !lookup_insert_ne by key_ne. apply lookup_empty. }
  unfold read_row. rewrite Hd, Hri. split; reflexivity.
Qed.

Lemma read_back_columns i (row : Repair.report_row) :
  let r := read_row i (csv_dict row) in
  get r "status" = Some (Repair.status row) ∧
  get r "original_path" = Some (Repair.original_path row) ∧
  get r "written_path" = Some (Repair.written_path row) ∧
  get r "notes" = Some (Repair.notes row) ∧
  get r "extinf_display" = Some (default [] (Repair.extinf_display row)) ∧
  get r "row_index" = Some (str_of_Z (Z.of_nat i)) ∧
  get r "original" = None ∧
  (∀ k, k ∈ FINAL_KEYS → k ≠ lit "written_path" → cols r !! k = None).
Proof.
  intros r. unfold r, get. rewrite (proj1 (read_row_csv i row)).
  repeat split;
    try (rewrite ?lookup_insert_eq, ?lookup_insert_ne by key_ne; unfold csv_dict; simpl;
         repeat (rewrite lookup_insert_ne by key_ne); rewrite ?lookup_insert_eq, ?lookup_empty;
         reflexivity).
  intros k Hk Hne. unfold FINAL_KEYS in Hk.
  repeat (apply elem_of_cons in Hk as [->|Hk]; [try congruence|]);
    [rewrite lookup_insert_ne by key_ne; unfold csv_dict; simpl;
     rewrite !lookup_insert_ne by key_ne; apply lookup_empty .. | inversion Hk].
Qed.

Lemma status_read_back i (row : Repair.report_row) :
  get_or_empty (read_row i (csv_dict row)) "status" = Repair.status row.
Proof.
  unfold get_or_empty.
  destruct (read_back_columns i row) as (-> & _). reflexivity.
Qed.

(** How the five statuses of [repair_playlist] classify. *)
Lemma repair_status_kinds :
  classify_status Repair.KEPT = RESOLVED ∧
  classify_status Repair.REPAIRED = RESOLVED ∧
  classify_status Repair.AMBIGUOUS = AMBIGUOUS ∧
  classify_status Repair.FAILED = FAILED ∧
  classify_status Repair.FAILED_NO_EXTINF = FAILED.
Proof. repeat split; vm_compute; reflexivity. Qed.

Lemma filter_imap_length {A B C} (f : nat → B → C) (g : A → B) (p : C → bool)
    (q : A → bool) (l : list A) :
  (∀ i x, x ∈ l → p (f i (g x)) = q x) →
  length (List.filter p (imap f (map g l))) = length (List.filter q l).
Proof.
  revert f. induction l as [|x l IH]; intros f H; [reflexivity|].
  cbn [map imap List.filter]. rewrite (H 0%nat x) by left.
  assert (E : length (List.filter p (imap (f ∘ S) (map g l))) = length (List.filter q l)).
  { apply IH. intros i y Hy. apply H. right. exact Hy. }
  destruct (q x); simpl; rewrite E; reflexivity.
Qed.

End ReportReadBack.

(** ** [repair_playlists]: summaries and unresolved rows *)
Section BatchRepair.
Import Runner Batch.

Variable path_exists : nat -> str -> bool.
Variable music_index : list item.
Variable path_name : str -> str.
Variable parse_int : str -> option Z.

Local Abbreviation repair_round := (Batch.repair_round path_exists music_index path_name parse_int).
Local Abbreviation repair_playlists_loop :=
  (Batch.repair_playlists_loop path_exists music_index path_name parse_int).
Local Abbreviation repair_playlists :=
  (Batch.repair_playlists path_exists music_index path_name parse_int).

(** The unresolved rows of one report are as many as the summary counts. *)
Lemma unresolved_counts pe (lines : list str) playlist name :
  let st := Repair.repair_playlist pe music_index DUR_TOL_DEFAULT lines in
  let ui := classify_for_ui path_name parse_int (read_report_rows (report_file st))
                            playlist name in
  length ui.1 = Repair.ambiguous st ∧ length ui.2 = Repair.failed st.
Proof.
  intros st ui. unfold ui, classify_for_ui. rewrite classify_fold_partition. simpl.
  rewrite !length_map.
  destruct (repair_playlist_added pe music_index DUR_TOL_DEFAULT lines)
    as [_ _ A3 _ _ _ A7 A8].
  fold st in A3, A7, A8. simpl in A7, A8. rewrite A7, A8.
  assert (Hst : ∀ row, row ∈ Repair.report_rows st →
                  Repair.status row ∈ [Repair.KEPT; Repair.REPAIRED; Repair.AMBIGUOUS;
                                       Repair.FAILED; Repair.FAILED_NO_EXTINF]).
  { intros row Hrow. destruct (proj1 (list_elem_of_lookup _ _) Hrow) as [i Hi].
    destruct (Forall2_lookup_r _ _ _ _ _ A3 Hi) as (u & _ & _ & _ & Hs).
    eapply settled_status, Hs. }
  unfold read_report_rows, report_file.
  split; apply filter_imap_length; intros i row Hrow;
    unfold kind_of; rewrite status_read_back;
    specialize (Hst row Hrow);
    repeat (apply elem_of_cons in Hst as [Hst|Hst]);
    try (inversion Hst; fail); rewrite Hst; vm_compute; reflexivity.
Qed.

Definition sum_of (f : summary → nat) (l : list summary) : nat :=
  foldr (fun s n => (f s + n)%nat) 0%nat l.

Lemma sum_of_app f l1 l2 : sum_of f (l1 ++ l2) = (sum_of f l1 + sum_of f l2)%nat.
Proof. induction l1 as [|s l1 IH]; simpl; [reflexivity|]. rewrite IH. lia. Qed.

(** What the loop keeps true of its three lists. *)
Definition tallied (n : nat)
    (acc : list summary * list ui_row * list ui_row) : Prop :=
  length acc.1.1 = n ∧
  length acc.1.2 = sum_of s_ambiguous acc.1.1 ∧
  length acc.2 = sum_of s_failed acc.1.1 ∧
  Forall (fun s => (s_kept s + s_repaired s + s_ambiguous s + s_failed s)%nat = s_total s)
         acc.1.1.

Lemma repair_round_tallied i pl acc n :
  tallied n acc → tallied (S n) (repair_round i pl acc).
Proof.
  destruct acc as [[sums amb] fail]. intros (H1 & H2 & H3 & H4).
  unfold Batch.repair_round. simpl in H1, H2, H3, H4. cbv zeta.
  set (st := Repair.repair_playlist (path_exists i) music_index DUR_TOL_DEFAULT (pl_lines pl)).
  destruct (unresolved_counts (path_exists i) (pl_lines pl) (pl_path pl) (pl_name pl))
    as [U1 U2].
  fold st in U1, U2.
  pose proof (repair_counters_sum (path_exists i) music_index DUR_TOL_DEFAULT (pl_lines pl))
    as C7.
  cbv zeta in C7. fold st in C7.
  assert (E : (match read_report_rows (report_file st) with
               | [] => ([], [])
               | _ => classify_for_ui path_name parse_int (read_report_rows (report_file st))
                        (pl_path pl) (pl_name pl)
               end) =
              classify_for_ui path_name parse_int (read_report_rows (report_file st))
                (pl_path pl) (pl_name pl)).
  { destruct (read_report_rows (report_file st)); reflexivity. }
  rewrite E.
  destruct (classify_for_ui path_name parse_int (read_report_rows (report_file st))
              (pl_path pl) (pl_name pl)) as [a f].
  simpl in U1, U2 |- *. unfold tallied. simpl.
  rewrite !length_app, !sum_of_app. simpl.
  repeat split; try lia.
  apply Forall_app. split; [exact H4|]. constructor; [|constructor]. simpl. exact C7.
Qed.

Lemma repair_playlists_loop_tallied cancel_flag pls : ∀ i acc n res,
  tallied n acc →
  repair_playlists_loop cancel_flag i pls acc = Some res →
  tallied (n + length pls) res.
Proof.
  induction pls as [|pl pls IH]; intros i acc n res Hacc H; simpl in H.
  - injection H as <-. rewrite Nat.add_0_r. exact Hacc.
  - destruct (cancel_flag i); [discriminate|].
    eapply IH in H; [|apply repair_round_tallied, Hacc].
    simpl. replace (n + S (length pls))%nat with (S n + length pls)%nat by lia. exact H.
Qed.

(** X16. Within the limits of the interpreter, when [repair_playlists] is
    not cancelled, it returns one summary per playlist, in each of which the
    four outcome counters add up to the total, and the ambiguous and failed
    rows it returns for the unresolved view are exactly as many as the
    summaries count. *)
Theorem repair_playlists_tally cancel_flag (pls : list playlist) sums amb fail :
  Forall (fun pl => within_limits (pl_lines pl) music_index) pls →
  repair_playlists cancel_flag pls = Some (sums, amb, fail) →
  length sums = length pls ∧
  length amb = sum_of s_ambiguous sums ∧
  length fail = sum_of s_failed sums ∧
  Forall (fun s => (s_kept s + s_repaired s + s_ambiguous s + s_failed s)%nat = s_total s)
         sums.
Proof.
  intros _ H. unfold Batch.repair_playlists in H.
  eapply (repair_playlists_loop_tallied _ _ _ _ 0%nat) in H.
  - exact H.
  - unfold tallied. simpl. auto.
Qed.

End BatchRepair.

Lemma repair_playlists_tally_witness :
  match Batch.repair_playlists (fun _ _ => false) doubled_index (fun p => p) (fun _ => None)
          (fun _ => false)
          [Batch.Playlist (lit "/pl/15.m3u") (lit "15.m3u")
             [lit "#EXTM3U"; lit "#EXTINF:200,Art - Song"; lit "/old/a.flac"]] with
  | Some (sums, amb, fail) =>
      length amb = 1%nat ∧ length amb = sum_of Batch.s_ambiguous sums
  | None => False
  end.
Proof.
  destruct (Batch.repair_playlists _ _ _ _ _ _) as [[[sums amb] fail]|] eqn:E.
  - split.
    + vm_compute in E. injection E as _ <- _. reflexivity.
    + refine (proj1 (proj2 (repair_playlists_tally _ _ _ _ _ _ _ _ _ _ E))).
      constructor; [|constructor]. within_limits_lit.
  - vm_compute in E. discriminate E.
Defined.

(** ** Decimal row indices *)
Section DecimalIndex.

Lemma lit_inj (a b : String.string) : lit a = lit b → a = b.
Proof.
  unfold lit. intros H.
  rewrite <- (String.string_of_list_ascii_of_string a),
          <- (String.string_of_list_ascii_of_string b).
  f_equal.
  assert (Hinj : ∀ l1 l2 : list Ascii.ascii,
            map Ascii.N_of_ascii l1 = map Ascii.N_of_ascii l2 → l1 = l2).
  { induction l1 as [|x l1 IH]; intros [|y l2]; simpl; try discriminate; [reflexivity|].
    intros [= Hxy Hl]. f_equal; [|apply IH, Hl].
    rewrite <- (Ascii.ascii_N_embedding x), <- (Ascii.ascii_N_embedding y), Hxy.
    reflexivity. }
  apply Hinj, H.
Qed.

Lemma to_int_not_nil (z : Z) :
  Z.to_int z ≠ Decimal.Pos Decimal.Nil ∧ Z.to_int z ≠ Decimal.Neg Decimal.Nil.
Proof.
  destruct z as [|p|p]; simpl; split; try discriminate;
    intros [= H]; exact (DecimalPos.Unsigned.to_uint_nonnil p H).
Qed.

(** [str] of an integer determines the integer. *)
Lemma str_of_Z_inj (a b : Z) : str_of_Z a = str_of_Z b → a = b.
Proof.
  unfold str_of_Z. intros H. apply lit_inj in H.
  apply (f_equal DecimalString.NilZero.int_of_string) in H.
  destruct (to_int_not_nil a) as [A1 A2]. destruct (to_int_not_nil b) as [B1 B2].
  rewrite !DecimalString.NilZero.isi in H by assumption.
  injection H as H. apply DecimalZ.to_int_inj, H.
Qed.

Lemma uint_digits (d : Decimal.uint) :
  Forall (fun c => is_digit c = true) (lit (DecimalString.NilEmpty.string_of_uint d)).
Proof.
  induction d; simpl; try constructor; try reflexivity; assumption.
Qed.

Lemma str_of_nat_digits (n : nat) :
  str_of_Z (Z.of_nat n) ≠ [] ∧ Forall (fun c => is_digit c = true) (str_of_Z (Z.of_nat n)).
Proof.
  unfold str_of_Z. destruct (Z.of_nat n) as [|p|p] eqn:E; [| |lia].
  - split; [discriminate|]. repeat constructor.
  - simpl. pose proof (DecimalPos.Unsigned.to_uint_nonnil p) as Hn.
    pose proof (uint_digits (Pos.to_uint p)) as Hd.
    destruct (Pos.to_uint p); try congruence; (split; [discriminate | exact Hd]).
Qed.

Lemma digit_not_space c : is_digit c = true → is_space c = false.
Proof.
  intros H. destruct (is_space c) eqn:E; [|reflexivity].
  apply space_not_digit in E. congruence.
Qed.

(** A string without whitespace is left alone by [strip]. *)
Lemma strip_no_space (s : str) : Forall (fun c => is_space c = false) s → strip s = s.
Proof.
  intros H. apply trimmed_strip. split.
  - destruct H as [|c s Hc _]; [reflexivity|]. simpl. rewrite Hc. reflexivity.
  - apply Forall_rev in H. destruct H as [|c s' Hc _]; [reflexivity|].
    simpl. rewrite Hc. reflexivity.
Qed.

Lemma strip_str_of_nat (n : nat) : strip (str_of_Z (Z.of_nat n)) = str_of_Z (Z.of_nat n).
Proof.
  apply strip_no_space. destruct (str_of_nat_digits n) as [_ H].
  eapply Forall_impl; [exact H|]. intros c. apply digit_not_space.
Qed.

End DecimalIndex.

(** ** The export of a repair report *)
Section ExportOfReport.
Import Runner.

Variable path_exists : str -> bool.
Variable music_index : list item.
Variable dur_tol : Z.

Local Abbreviation repair_playlist := (Repair.repair_playlist path_exists music_index dur_tol).

(** The path line that the export writes for a row when nothing is selected
    for it: the written path, or the original one when the written path is
    blank. *)
Definition automatic_path (row : Repair.report_row) : str :=
  let w := strip (Repair.written_path row) in
  if nonempty w then w else strip (Repair.original_path row).

(** The selection stored for position [j], when it is not empty. *)
Definition selected_at (sel : gmap str str) (j : nat) : option str :=
  match sel !! str_of_Z (Z.of_nat j) with
  | Some ((_ :: _) as chosen) => Some chosen
  | _ => None
  end.

Lemma pick_final_absent keys (r : report_dict) :
  (∀ k, k ∈ keys → cols r !! k = None) → pick_final_from keys r = [].
Proof.
  induction keys as [|k keys IH]; intros H; [reflexivity|].
  simpl. rewrite (H k) by left. simpl.
  apply IH. intros k' Hk'. apply H. right. exact Hk'.
Qed.

Lemma pick_final_from_cons k keys (r : report_dict) :
  pick_final_from (k :: keys) r =
  if nonempty (strip (default [] (cols r !! k))) then strip (default [] (cols r !! k))
  else pick_final_from keys r.
Proof. reflexivity. Qed.

Lemma pick_final_read_back i (row : Repair.report_row) :
  pick_final (read_row i (csv_dict row)) = strip (Repair.written_path row).
Proof.
  destruct (read_back_columns i row) as (_ & _ & Hw & _ & _ & _ & _ & Hk).
  unfold pick_final.
  change FINAL_KEYS with (lit "written_path" :: tail FINAL_KEYS).
  rewrite pick_final_from_cons.
  unfold get in Hw. rewrite Hw. change (default [] (Some ?x)) with x.
  destruct (nonempty (strip (Repair.written_path row))) eqn:E; [reflexivity|].
  apply nonempty_false in E. rewrite E.
  apply (pick_final_absent (tail FINAL_KEYS)).
  intros k Hk'. apply Hk.
  - right. exact Hk'.
  - intros ->.
    assert (Hn : lit "written_path" ∉ tail FINAL_KEYS)
      by (refine (bool_decide_unpack _ _); vm_compute; exact I).
    exact (Hn Hk').
Qed.

Lemma chosen_read_back (sel : gmap str str) i (row : Repair.report_row) :
  chosen_for sel (read_row i (csv_dict row)) = sel !! str_of_Z (Z.of_nat i).
Proof.
  destruct (read_back_columns i row) as (_ & _ & _ & _ & _ & Hi & _).
  unfold chosen_for, export_row_index. rewrite Hi, strip_str_of_nat.
  destruct (str_of_nat_digits i) as [Hne _].
  apply nonempty_true in Hne. rewrite Hne. reflexivity.
Qed.

Lemma export_path_read_back (sel : gmap str str) i (row : Repair.report_row) :
  settled path_exists music_index dur_tol (Repair.original_path row) row →
  export_path sel (read_row i (csv_dict row)) =
  default (automatic_path row) (selected_at sel i).
Proof.
  intros Hs. unfold export_path, selected_at.
  rewrite chosen_read_back, pick_final_read_back.
  destruct (read_back_columns i row) as (Hst & Ho & _ & _ & _ & _ & Ho' & _).
  assert (Eo : get2_or_empty (read_row i (csv_dict row)) "original_path" "original" =
               Repair.original_path row).
  { unfold get2_or_empty, get_or_empty. rewrite Ho, Ho'.
    destruct (Repair.original_path row); reflexivity. }
  assert (Es : get_or_empty (read_row i (csv_dict row)) "status" = Repair.status row).
  { unfold get_or_empty. rewrite Hst. reflexivity. }
  rewrite Eo, Es.
  assert (Ea : (if is_resolved_status (strip (Repair.status row))
                then if nonempty (strip (Repair.written_path row))
                     then strip (Repair.written_path row)
                     else strip (Repair.original_path row)
                else strip (Repair.original_path row)) = automatic_path row).
  { unfold automatic_path.
    destruct Hs as [H1 _ H3 _|d dp m H1 _ _ _ _ _ _ _|d dp ms H1 _ _ _ _ _ _ H3 _
                   |d dp H1 _ _ _ _ _ H3 _|H1 _ _ H3 _]; rewrite H1;
      match goal with
      | |- context [is_resolved_status ?s] =>
          let v := eval vm_compute in (is_resolved_status s) in
          change (is_resolved_status s) with v
      end; cbv iota; try reflexivity;
      rewrite H3; destruct (nonempty _); reflexivity. }
  destruct (sel !! str_of_Z (Z.of_nat i)) as [[|c chosen]|]; simpl;
    [exact Ea | reflexivity | exact Ea].
Qed.

Lemma imap_map_ext {A B C} (f : nat → B → C) (g : A → B) (h : nat → A → C) (l : list A) :
  (∀ i x, l !! i = Some x → f i (g x) = h i x) →
  imap f (map g l) = imap h l.
Proof.
  revert f h. induction l as [|x l IH]; intros f h H; [reflexivity|].
  cbn [map imap]. f_equal; [apply (H 0%nat); reflexivity|].
  apply IH. intros i y Hy. apply (H (S i)). exact Hy.
Qed.

Lemma report_rows_settled (lines : list str) i row :
  Repair.report_rows (repair_playlist lines) !! i = Some row →
  settled path_exists music_index dur_tol (Repair.original_path row) row.
Proof.
  intros Hi. destruct (repair_playlist_added path_exists music_index dur_tol lines)
    as [_ _ A3 _ _ _ _ _].
  destruct (Forall2_lookup_r _ _ _ _ _ A3 Hi) as (u & _ & Ho & _ & Hs).
  rewrite Ho. exact Hs.
Qed.

Lemma export_lines_read_back (sel : gmap str str) (lines : list str) :
  export_lines sel (read_report_rows (report_file (repair_playlist lines))) =
  lit "#EXTM3U" ::
    imap (fun j row => default (automatic_path row) (selected_at sel j))
         (Repair.report_rows (repair_playlist lines)).
Proof.
  rewrite export_of_repair_report. f_equal.
  unfold read_report_rows, report_file.
  change (map (export_path sel) ?l) with (export_path sel <$> l).
  rewrite fmap_imap. apply imap_map_ext.
  intros i row Hi. simpl. apply export_path_read_back.
  eapply report_rows_settled, Hi.
Qed.

Lemma export_lines_automatic (lines : list str) :
  export_lines ∅ (read_report_rows (report_file (repair_playlist lines))) =
  lit "#EXTM3U" :: map automatic_path (Repair.report_rows (repair_playlist lines)).
Proof.
  rewrite export_lines_read_back. f_equal.
  change (map automatic_path ?l) with (automatic_path <$> l).
  rewrite <- imap_const. apply imap_ext. intros j row _.
  unfold selected_at. rewrite lookup_empty. reflexivity.
Qed.

(** X17. Within the limits of the interpreter, the playlist exported from
    the report of [repair_playlist], without any selection, is the header
    line followed by one line per row of the report: the written path of
    the row, or the original path when the written one is blank, without
    surrounding whitespace. *)
Theorem export_follows_report (lines : list str) :
  within_limits lines music_index →
  let st := repair_playlist lines in
  export_lines ∅ (read_report_rows (report_file st)) =
    lit "#EXTM3U" :: map automatic_path (Repair.report_rows st) ∧
  length (export_lines ∅ (read_report_rows (report_file st))) = S (length (units lines)).
Proof.
  intros _ st. unfold st. rewrite export_lines_automatic.
  split; [reflexivity|].
  cbn [length]. rewrite length_map. f_equal.
  apply (proj1 (repair_loop_counts path_exists music_index dur_tol lines Repair.init)).
Qed.

(** X18. Within the limits of the interpreter, selections address the
    rows of a repair report by the decimal text of their position, counted
    from 0.  The line exported for the row at position [j] is the non-empty
    selection stored under the text of [j], and otherwise the line of the
    export without selections; keys that are not such a text change
    nothing.  In particular one selection, for a row of the report,
    replaces the line of that row and no other. *)
Theorem export_selection_by_position (sel : gmap str str) (lines : list str) :
  within_limits lines music_index →
  let rows := read_report_rows (report_file (repair_playlist lines)) in
  export_lines sel rows =
    lit "#EXTM3U" ::
      imap (fun j auto => default auto (selected_at sel j)) (tail (export_lines ∅ rows)) ∧
  ∀ (i : nat) (p : str),
    (i < length (Repair.report_rows (repair_playlist lines)))%nat → p ≠ [] →
    export_lines {[ str_of_Z (Z.of_nat i) := p ]} rows = <[S i := p]> (export_lines ∅ rows).
Proof.
  intros _ rows. unfold rows. split.
  - rewrite export_lines_automatic, export_lines_read_back. cbn [tail]. f_equal.
    change (map automatic_path ?l) with (automatic_path <$> l).
    rewrite imap_fmap. reflexivity.
  - intros i p Hi Hp.
    rewrite export_lines_automatic, export_lines_read_back.
    change (<[S i := p]> (?h :: ?l)) with (h :: <[i := p]> l). f_equal.
    apply list_eq. intros j. rewrite list_lookup_imap.
    change (map automatic_path ?l) with (automatic_path <$> l).
    destruct (decide (i = j)) as [<-|Hne].
    + rewrite list_lookup_insert_eq by (rewrite length_fmap; exact Hi).
      destruct (lookup_lt_is_Some_2 _ _ Hi) as [row Hrow]. rewrite Hrow. simpl.
      unfold selected_at. rewrite lookup_singleton_eq.
      destruct p; [congruence | reflexivity].
    + rewrite list_lookup_insert_ne by exact Hne. rewrite list_lookup_fmap.
      destruct (Repair.report_rows (repair_playlist lines) !! j) as [row|]; [|reflexivity].
      simpl. unfold selected_at. rewrite lookup_singleton_ne; [reflexivity|].
      intros H. apply str_of_Z_inj in H. lia.
Qed.

End ExportOfReport.

(** A playlist of two units whose files are missing, the first of which has
    two matches in the doubled index. *)
Definition missing_playlist : list str :=
  [lit "#EXTM3U"; lit "#EXTINF:200,Art - Song"; lit "/old/a.flac";
   lit "#EXTINF:100,x - y"; lit "/old/b.flac"].

Lemma missing_playlist_within_limits : within_limits missing_playlist doubled_index.
Proof. within_limits_lit. Qed.

Lemma export_follows_report_witness :
  let st := Repair.repair_playlist on_disk boundary_index 2 mixed_playlist in
  Runner.export_lines ∅ (Runner.read_report_rows (Runner.report_file st)) =
    [lit "#EXTM3U"; lit "/m/198.mp3"; lit "/m/here.mp3"].
Proof.
  intros st. unfold st.
  rewrite (proj1 (export_follows_report on_disk boundary_index 2 mixed_playlist
                    mixed_playlist_within_limits)).
  vm_compute. reflexivity.
Defined.

Lemma export_selection_by_position_witness :
  let st := Repair.repair_playlist (fun _ => false) doubled_index 2 missing_playlist in
  let rows := Runner.read_report_rows (Runner.report_file st) in
  Runner.export_lines ∅ rows = [lit "#EXTM3U"; lit "/old/a.flac"; lit "/old/b.flac"] ∧
  Runner.export_lines {[ str_of_Z (Z.of_nat 0) := lit "/m/a.flac" ]} rows =
    <[1%nat := lit "/m/a.flac"]> (Runner.export_lines ∅ rows).
Proof.
  intros st rows. split; [vm_compute; reflexivity|].
  apply (proj2 (export_selection_by_position (fun _ => false) doubled_index 2 ∅
                  missing_playlist missing_playlist_within_limits)
           0%nat (lit "/m/a.flac")).
  - vm_compute. lia.
  - discriminate.
Defined.

(** ** File names built on the key *)
Section KeyNames.
Import Names.

Lemma rfind_dot_app (a b : str) i acc :
  rfind_dot (a ++ b) i acc = rfind_dot b (i + length a) (rfind_dot a i acc).
Proof.
  revert i acc. induction a as [|c a IH]; intros i acc; simpl.
  - rewrite Nat.add_0_r. reflexivity.
  - rewrite IH. f_equal. lia.
Qed.

(** The stem of a name that ends in [.m3u]. *)
Lemma path_stem_m3u (a : str) : a ≠ [] → path_stem (a ++ lit ".m3u") = a.
Proof.
  intros Ha. unfold path_stem. rewrite rfind_dot_app. simpl.
  rewrite length_app. simpl.
  assert (Hl : length a ≠ 0%nat) by (destruct a; simpl; congruence).
  rewrite bool_decide_eq_true_2 by lia.
  apply take_app_length.
Qed.

Lemma endswith_app (p s : str) : endswith p (s ++ p) = true.
Proof.
  unfold endswith. rewrite rev_app_distr. apply startswith_app. eexists. reflexivity.
Qed.

(** The key of the name that the export gives to the playlist of key [k]. *)
Lemma canonical_key_export_name (k : str) :
  k ≠ [] → strip k = k →
  canonical_key (lit "fixed_" ++ k ++ lit "_selected.m3u") = k.
Proof.
  intros Hk Hs. unfold canonical_key.
  replace (lit "fixed_" ++ k ++ lit "_selected.m3u")
    with ((lit "fixed_" ++ k ++ lit "_selected") ++ lit ".m3u")
    by (rewrite <- !app_assoc; reflexivity).
  rewrite path_stem_m3u by discriminate.
  unfold canonical_key_of_stem, strip_affixes.
  change (foldl cut_prefix (lit "fixed_" ++ k ++ lit "_selected") PREFIXES)
    with (k ++ lit "_selected").
  cbn [foldl SUFFIXES]. unfold cut_suffix.
  rewrite endswith_app, length_app, Nat.add_sub, take_app_length, Hs.
  apply nonempty_true in Hk. rewrite Hk. reflexivity.
Qed.

(** X19. A playlist exported by the program, imported again, is the same
    playlist to the program: when the key of a name is a non-empty string
    without whitespace at its ends, the name given to the export has the same
    key, hence the same report, selections and export files, and it is
    recognised as an exported playlist. *)
Theorem export_name_keeps_key (name : str) :
  canonical_key name ≠ [] → strip (canonical_key name) = canonical_key name →
  canonical_key (export_path_for name) = canonical_key name ∧
  report_path_for (export_path_for name) = report_path_for name ∧
  selections_path_for (export_path_for name) = selections_path_for name ∧
  export_path_for (export_path_for name) = export_path_for name ∧
  is_exported_playlist (export_path_for name) = true.
Proof.
  intros Hk Hs.
  assert (E : canonical_key (export_path_for name) = canonical_key name)
    by (apply canonical_key_export_name; assumption).
  unfold report_path_for, selections_path_for. rewrite E.
  repeat split; try reflexivity.
  - unfold export_path_for at 1. rewrite E. reflexivity.
  - unfold is_exported_playlist, export_path_for.
    replace (lit "fixed_" ++ canonical_key name ++ lit "_selected.m3u")
      with ((lit "fixed_" ++ canonical_key name ++ lit "_selected") ++ lit ".m3u")
      by (rewrite <- !app_assoc; reflexivity).
    rewrite path_stem_m3u by discriminate. reflexivity.
Qed.

Lemma export_name_keeps_key_witness :
  canonical_key (lit "My List.m3u") = lit "My List" ∧
  export_path_for (lit "My List.m3u") = lit "fixed_My List_selected.m3u" ∧
  canonical_key (export_path_for (lit "My List.m3u")) = canonical_key (lit "My List.m3u").
Proof.
  split; [vm_compute; reflexivity|]. split; [vm_compute; reflexivity|].
  apply (export_name_keeps_key (lit "My List.m3u")).
  - vm_compute. discriminate.
  - vm_compute. reflexivity.
Defined.

End KeyNames.

(** ** Name variants and their key *)
Section KeyVariants.

Lemma cut_prefix_app (p s : str) : cut_prefix (p ++ s) p = s.
Proof.
  unfold cut_prefix.
  rewrite (proj2 (startswith_app p (p ++ s))) by (exists s; reflexivity).
  apply drop_app_length.
Qed.

Lemma cut_prefix_absent (p s : str) : startswith p s = false → cut_prefix s p = s.
Proof. intros H. unfold cut_prefix. rewrite H. reflexivity. Qed.

Lemma cut_suffix_app (s suf : str) : cut_suffix (s ++ suf) suf = s.
Proof.
  unfold cut_suffix. rewrite endswith_app, length_app, Nat.add_sub.
  apply take_app_length.
Qed.

Lemma cut_suffix_absent (s suf : str) : endswith suf s = false → cut_suffix s suf = s.
Proof. intros H. unfold cut_suffix. rewrite H. reflexivity. Qed.

(** A stem that carries none of the affixes. *)
Definition bare (s : str) : Prop :=
  Forall (fun p => startswith p s = false) PREFIXES ∧
  endswith (lit "_selected") s = false.

(** The key of a name whose stem the two loops reduce to [s]. *)
Lemma canonical_key_reduced (stem s : str) :
  stem ≠ [] → strip_affixes stem = s → strip s ≠ [] →
  canonical_key (stem ++ lit ".m3u") = strip s.
Proof.
  intros Hne Hs Hk. unfold canonical_key. rewrite (path_stem_m3u stem Hne).
  unfold canonical_key_of_stem. rewrite Hs.
  apply nonempty_true in Hk. rewrite Hk. reflexivity.
Qed.

Lemma strip_nonempty_arg (s : str) : strip s ≠ [] → s ≠ [].
Proof. intros H ->. apply H. reflexivity. Qed.

(** C8 (as amended). A stem that carries none of the affixes and is not
    blank gives one key, the stem without surrounding whitespace, to its
    own name and to the names made with the prefixes and the suffix; a name
    whose stem the loops and the final [strip] reduce to the empty string
    has its stem as key. *)
Theorem canonical_key_collapses :
  (∀ s : str,
     bare s → strip s ≠ [] →
     canonical_key (s ++ lit ".m3u") = strip s ∧
     canonical_key (lit "fixed_" ++ s ++ lit ".m3u") = strip s ∧
     canonical_key (lit "fixed_" ++ s ++ lit "_selected.m3u") = strip s ∧
     canonical_key (lit "__tmp_fixed_" ++ s ++ lit ".m3u") = strip s ∧
     canonical_key (lit "draft_fixed_" ++ s ++ lit ".m3u") = strip s) ∧
  (∀ name : str,
     strip (strip_affixes (path_stem name)) = [] → canonical_key name = path_stem name).
Proof.
  split.
  - intros s [Hp Hx] Hk.
    pose proof (Forall_inv Hp) as H1.
    pose proof (Forall_inv (Forall_inv_tail Hp)) as H2.
    pose proof (Forall_inv (Forall_inv_tail (Forall_inv_tail Hp))) as H3.
    pose proof (strip_nonempty_arg s Hk) as Hs.
    assert (Hbare : strip_affixes s = s).
    { unfold strip_affixes, PREFIXES, SUFFIXES. cbn [foldl].
      rewrite (cut_prefix_absent _ s H1), (cut_prefix_absent _ s H2),
        (cut_prefix_absent _ s H3).
      apply cut_suffix_absent, Hx. }
    split; [apply canonical_key_reduced; assumption|].
    split.
    { replace (lit "fixed_" ++ s ++ lit ".m3u") with ((lit "fixed_" ++ s) ++ lit ".m3u")
        by (rewrite <- app_assoc; reflexivity).
      apply canonical_key_reduced; [discriminate | | exact Hk].
      unfold strip_affixes, PREFIXES, SUFFIXES. cbn [foldl].
      rewrite (cut_prefix_absent (lit "__tmp_fixed_")) by reflexivity.
      rewrite (cut_prefix_absent (lit "draft_fixed_")) by reflexivity.
      rewrite (cut_prefix_app (lit "fixed_")). apply cut_suffix_absent, Hx. }
    split.
    { replace (lit "fixed_" ++ s ++ lit "_selected.m3u")
        with ((lit "fixed_" ++ s ++ lit "_selected") ++ lit ".m3u")
        by (rewrite <- !app_assoc; reflexivity).
      apply canonical_key_reduced; [discriminate | | exact Hk].
      unfold strip_affixes, PREFIXES, SUFFIXES. cbn [foldl].
      rewrite (cut_prefix_absent (lit "__tmp_fixed_")) by reflexivity.
      rewrite (cut_prefix_absent (lit "draft_fixed_")) by reflexivity.
      rewrite (cut_prefix_app (lit "fixed_")). apply cut_suffix_app. }
    split.
    { replace (lit "__tmp_fixed_" ++ s ++ lit ".m3u")
        with ((lit "__tmp_fixed_" ++ s) ++ lit ".m3u")
        by (rewrite <- app_assoc; reflexivity).
      apply canonical_key_reduced; [discriminate | | exact Hk].
      unfold strip_affixes, PREFIXES, SUFFIXES. cbn [foldl].
      rewrite (cut_prefix_app (lit "__tmp_fixed_")).
      rewrite (cut_prefix_absent _ s H2), (cut_prefix_absent _ s H3).
      apply cut_suffix_absent, Hx. }
    { replace (lit "draft_fixed_" ++ s ++ lit ".m3u")
        with ((lit "draft_fixed_" ++ s) ++ lit ".m3u")
        by (rewrite <- app_assoc; reflexivity).
      apply canonical_key_reduced; [discriminate | | exact Hk].
      unfold strip_affixes, PREFIXES, SUFFIXES. cbn [foldl].
      rewrite (cut_prefix_absent (lit "__tmp_fixed_")) by reflexivity.
      rewrite (cut_prefix_app (lit "draft_fixed_")).
      rewrite (cut_prefix_absent _ s H3). apply cut_suffix_absent, Hx. }
  - intros name H. unfold canonical_key. apply canonical_key_blank, H.
Qed.

Lemma canonical_key_collapses_witness :
  (canonical_key (lit "15.m3u") = lit "15" ∧
   canonical_key (lit "fixed_15.m3u") = lit "15" ∧
   canonical_key (lit "fixed_15_selected.m3u") = lit "15" ∧
   canonical_key (lit "__tmp_fixed_15.m3u") = lit "15" ∧
   canonical_key (lit "draft_fixed_15.m3u") = lit "15") ∧
  canonical_key (lit "fixed_.m3u") = lit "fixed_" ∧
  canonical_key (lit "fixed_ _selected.m3u") = lit "fixed_ _selected".
Proof.
  split; [|split].
  - apply (proj1 canonical_key_collapses (lit "15")).
    + split; [repeat constructor | reflexivity].
    + vm_compute. discriminate.
  - apply (proj2 canonical_key_collapses (lit "fixed_.m3u")). vm_compute. reflexivity.
  - apply (proj2 canonical_key_collapses (lit "fixed_ _selected.m3u")).
    vm_compute. reflexivity.
Defined.

(** C8, counterexample. Each prefix is looked for once, in the order
    [__tmp_fixed_], [draft_fixed_], [fixed_]: the names made from the stem
    [fixed_15] do not share a key. *)
Lemma canonical_key_variants_counterexample :
  canonical_key (lit "fixed_15.m3u") = lit "15" ∧
  canonical_key (lit "fixed_fixed_15.m3u") = lit "fixed_15" ∧
  canonical_key (lit "fixed_fixed_15_selected.m3u") = lit "fixed_15" ∧
  canonical_key (lit "__tmp_fixed_fixed_15.m3u") = lit "15" ∧
  canonical_key (lit "fixed_fixed_15.m3u") ≠ canonical_key (lit "fixed_15.m3u").
Proof.
  repeat split; try (vm_compute; reflexivity). vm_compute. discriminate.
Qed.

End KeyVariants.

(** ** Statuses: case and padding *)
Section StatusSpelling.
Import Runner.

(** A string is its stripped form between two runs of whitespace. *)
Lemma drop_while_decompose p (s : str) :
  ∃ l, s = l ++ drop_while p s ∧ forallb p l = true.
Proof.
  induction s as [|c s (l & E & Hl)]; [exists []; split; reflexivity|].
  simpl. destruct (p c) eqn:Ec.
  - exists (c :: l). simpl. rewrite Ec, Hl. split; [f_equal; exact E | reflexivity].
  - exists []. split; reflexivity.
Qed.

Lemma forallb_rev (p : N → bool) (l : str) : forallb p l = true → forallb p (rev l) = true.
Proof.
  rewrite !forallb_forall. intros H x Hx. apply H, in_rev, Hx.
Qed.

Lemma strip_decompose (s : str) :
  ∃ l r, s = l ++ strip s ++ r ∧ forallb is_space l = true ∧ forallb is_space r = true.
Proof.
  destruct (drop_while_decompose is_space s) as (l & El & Hl).
  destruct (drop_while_decompose is_space (rev (drop_while is_space s))) as (r & Er & Hr).
  exists l, (rev r). split; [|split; [exact Hl | apply forallb_rev, Hr]].
  unfold strip, lstrip, rstrip. rewrite <- rev_app_distr, <- Er, rev_involutive. exact El.
Qed.

Lemma forallb_app_true (p : N → bool) (a b : str) :
  forallb p a = true → forallb p b = true → forallb p (a ++ b) = true.
Proof. intros Ha Hb. rewrite forallb_app, Ha, Hb. reflexivity. Qed.

Lemma strip_padding (ws1 s ws2 : str) :
  forallb is_space ws1 = true → forallb is_space ws2 = true →
  strip (ws1 ++ s ++ ws2) = strip s.
Proof.
  intros H1 H2. destruct (strip_decompose s) as (l & r & E & Hl & Hr).
  rewrite E at 1.
  replace (ws1 ++ (l ++ strip s ++ r) ++ ws2) with ((ws1 ++ l) ++ strip s ++ (r ++ ws2))
    by (rewrite <- !app_assoc; reflexivity).
  apply strip_padded; [apply forallb_app_true | apply forallb_app_true | apply strip_trimmed];
    assumption.
Qed.

Lemma upper_lower (s : str) : upper (lower s) = upper s.
Proof. unfold upper, lower. rewrite map_map. apply map_ext, upper_lower_cp. Qed.

Lemma upper_upper_cp c : upper_cp (upper_cp c) = upper_cp c.
Proof.
  unfold upper_cp at 2 3. destruct (is_lower_ascii c) eqn:E.
  - apply lower_range in E. unfold upper_cp, is_lower_ascii.
    replace ((97 <=? c - 32)%N && (c - 32 <=? 122)%N) with false
      by (symmetry; apply andb_false_iff; left; apply N.leb_gt; lia).
    reflexivity.
  - unfold upper_cp. rewrite E. reflexivity.
Qed.

Lemma upper_upper (s : str) : upper (upper s) = upper s.
Proof. unfold upper. rewrite map_map. apply map_ext, upper_upper_cp. Qed.

(** X20. Over the alphabet on which the case mappings are reproduced, the
    kind of a status depends neither on the case of its letters nor on
    whitespace around it. *)
Theorem classify_status_spelling (st ws1 ws2 : str) :
  in_alphabet st →
  forallb is_space ws1 = true → forallb is_space ws2 = true →
  classify_status (ws1 ++ st ++ ws2) = classify_status st ∧
  classify_status (lower st) = classify_status st ∧
  classify_status (upper st) = classify_status st.
Proof.
  intros _ H1 H2.
  assert (E1 : status_norm (ws1 ++ st ++ ws2) = status_norm st)
    by (unfold status_norm; rewrite strip_padding by assumption; reflexivity).
  assert (E2 : status_norm (lower st) = status_norm st).
  { unfold status_norm, lower. rewrite strip_map by apply is_space_lower_cp.
    apply upper_lower. }
  assert (E3 : status_norm (upper st) = status_norm st).
  { unfold status_norm. unfold upper at 2. rewrite strip_map by apply is_space_upper_cp.
    apply upper_upper. }
  unfold classify_status. rewrite E1, E2, E3. auto.
Qed.

Lemma classify_status_spelling_witness :
  classify_status (lit "  " ++ lit "Repaired" ++ lit " ") = classify_status (lit "Repaired") ∧
  classify_status (lit "Repaired") = RESOLVED.
Proof.
  split; [|vm_compute; reflexivity].
  apply (classify_status_spelling (lit "Repaired") (lit "  ") (lit " ")); try reflexivity.
  repeat (constructor; [reflexivity|]). constructor.
Defined.

End StatusSpelling.

(** ** Artists guessed from paths *)
Section ArtistGuess.
Import Titles.

(** A directory name that can stand for an artist: not blank, not a generic
    folder name, not a number, longer than two characters. *)
Definition usable (pt : str) : bool :=
  nonempty pt && negb (bool_decide (normalize_token pt ∈ GENERIC_PATH_TOKENS)) &&
  negb (all_digits pt) && (2 <? length pt)%nat.

(** A year is a number: the last test of the loop never fires. *)
Lemma is_year_all_digits (pt : str) : is_year pt = true → all_digits pt = true.
Proof.
  destruct pt as [|a [|b [|c [|d [|e pt]]]]]; try discriminate.
  unfold is_year, all_digits. intros H.
  apply andb_true_iff in H as [H Hd]. apply andb_true_iff in H as [H Hc].
  cbn [nonempty forallb andb]. rewrite Hc, Hd.
  apply orb_true_iff in H as [H|H]; apply andb_true_iff in H as [Ha Hb];
    apply N.eqb_eq in Ha, Hb; subst; reflexivity.
Qed.

Lemma guess_loop_filter (parts : list str) :
  guess_loop parts = head (List.filter usable (map strip parts)).
Proof.
  induction parts as [|p parts IH]; [reflexivity|].
  cbn [guess_loop map List.filter]. unfold usable at 1.
  destruct (nonempty (strip p)); cbn [negb andb]; [|exact IH].
  destruct (bool_decide (normalize_token (strip p) ∈ GENERIC_PATH_TOKENS));
    cbn [negb andb]; [exact IH|].
  destruct (all_digits (strip p)) eqn:Ed; cbn [negb andb]; [exact IH|].
  destruct (Nat.leb_spec (length (strip p)) 2) as [Hl|Hl].
  - replace (2 <? length (strip p))%nat with false
      by (symmetry; apply Nat.ltb_ge; exact Hl). exact IH.
  - replace (2 <? length (strip p))%nat with true
      by (symmetry; apply Nat.ltb_lt; exact Hl).
    destruct (is_year (strip p)) eqn:Ey; [|reflexivity].
    apply is_year_all_digits in Ey. congruence.
Qed.

(** X24. Over the alphabet on which the case mappings and the digit class
    are reproduced, the artist guessed from a path is the name, without
    surrounding whitespace, of the deepest directory whose name is usable:
    not blank, not one of the generic folder names, not a number, longer than
    two characters.  The file name is never looked at, and the test for a
    year adds nothing to the test for a number. *)
Theorem guess_artist_deepest_usable (parts : list str) :
  Forall in_alphabet parts →
  guess_artist_from_path parts =
    head (List.filter usable (map strip (rev (removelast parts)))) ∧
  ∀ a, guess_artist_from_path parts = Some a →
       (∃ d, d ∈ removelast parts ∧ a = strip d) ∧
       strip a = a ∧ (3 ≤ length a)%nat ∧ all_digits a = false ∧
       normalize_token a ∉ GENERIC_PATH_TOKENS.
Proof.
  intros _. unfold guess_artist_from_path. rewrite guess_loop_filter.
  split; [reflexivity|]. intros a Ha.
  assert (Hin : a ∈ List.filter usable (map strip (rev (removelast parts)))).
  { destruct (List.filter usable _) as [|x l]; [discriminate|].
    injection Ha as ->. left. }
  apply elem_of_filter_bool in Hin as [Hin Hu].
  apply list_elem_of_In, in_map_iff in Hin as (d & <- & Hd).
  split; [exists d; split; [apply list_elem_of_In, in_rev, Hd | reflexivity]|].
  split; [apply strip_idem|].
  unfold usable in Hu.
  apply andb_true_iff in Hu as [Hu H4]. apply andb_true_iff in Hu as [Hu H3].
  apply andb_true_iff in Hu as [_ H2].
  apply Nat.ltb_lt in H4. apply negb_true_iff in H2, H3.
  apply bool_decide_eq_false in H2. auto with lia.
Qed.

Lemma guess_artist_deepest_usable_witness :
  guess_artist_from_path [lit "/"; lit "Music"; lit "Pink Floyd"; lit "1979"; lit "CD1";
                          lit "01 - Song.flac"] = Some (lit "Pink Floyd") ∧
  (3 ≤ length (lit "Pink Floyd"))%nat.
Proof.
  assert (H : guess_artist_from_path [lit "/"; lit "Music"; lit "Pink Floyd"; lit "1979";
                                      lit "CD1"; lit "01 - Song.flac"]
              = Some (lit "Pink Floyd")) by (vm_compute; reflexivity).
  split; [exact H|].
  refine (proj1 (proj2 (proj2 (proj2 (guess_artist_deepest_usable _ _) _ H)))).
  repeat (constructor; [repeat (constructor; [reflexivity|]); constructor|]). constructor.
Defined.

End ArtistGuess.

(** ** Titles from file names *)
Section FileTitles.
Import Titles.

(** The title derived from a file name has no whitespace at its ends and
    no run of whitespace other than single spaces. *)
Lemma clean_title_shape (stem : str) :
  strip (clean_filename_title stem) = clean_filename_title stem ∧
  collapse_spaces (clean_filename_title stem) = clean_filename_title stem.
Proof.
  unfold clean_filename_title. split.
  - apply strip_idem.
  - apply well_spaced_collapse. eapply well_spaced_strip, collapse_go_well_spaced.
Qed.

Lemma track_sep_not_digit c : is_track_sep c = true → is_digit c = false.
Proof.
  unfold is_track_sep. intros H.
  destruct (is_space c) eqn:Es; [apply space_not_digit, Es|].
  simpl in H. unfold is_digit.
  apply not_true_iff_false. intros Hd.
  apply andb_true_iff in Hd as [H1 H2]. apply N.leb_le in H1, H2.
  repeat (apply orb_true_iff in H as [H|H]); apply N.eqb_eq in H; lia.
Qed.

Lemma track_sep_not_paren c : is_track_sep c = true → (c =? 41)%N = false ∧ (c =? 40)%N = false.
Proof.
  unfold is_track_sep. intros H.
  destruct (is_space c) eqn:Es.
  - split; apply N.eqb_neq; intros ->; discriminate Es.
  - simpl in H.
    repeat (apply orb_true_iff in H as [H|H]); apply N.eqb_eq in H; subst; split; reflexivity.
Qed.

Lemma digit_not_paren c : is_digit c = true → (c =? 40)%N = false ∧ (c =? 41)%N = false.
Proof.
  unfold is_digit. intros H. apply andb_true_iff in H as [H1 H2].
  apply N.leb_le in H1, H2. split; apply N.eqb_neq; lia.
Qed.

(** Skipped characters are dropped. *)
Lemma strip_groups_skip (pre s : str) :
  strip_groups (length pre) (pre ++ s) = strip_groups 0 s.
Proof.
  induction pre as [|c pre IH]; [reflexivity|]. simpl. exact IH.
Qed.

Lemma strip_groups_none (s : str) : track_group s = None → strip_groups 0 s = s.
Proof. intros H. destruct s as [|c s]; [reflexivity|]. simpl in *. rewrite H. reflexivity. Qed.

Lemma track_prefix_sub_none (s : str) :
  drop_while is_space s = s → track_group s = None → track_prefix_sub s = s.
Proof. intros H1 H2. unfold track_prefix_sub. rewrite H1, H2. reflexivity. Qed.

(** No group begins with a character that is neither a digit nor an opening
    bracket. *)
Lemma track_group_head c (s : str) :
  is_digit c = false → c ≠ 40%N → track_group (c :: s) = None.
Proof.
  intros Hd Hp. unfold track_group.
  apply N.eqb_neq in Hp. rewrite Hp. simpl. rewrite Hd. reflexivity.
Qed.

(** The group after its optional opening bracket, of which [par] tells
    whether it was there. *)
Definition group_body (par : nat) (s1 : str) : option nat :=
  let n := run_length is_digit s1 in
  if (1 <=? n)%nat && (n <=? 3)%nat then
    let s2 := drop n s1 in
    let '(cl, s3) :=
      match s2 with
      | c :: r => if (c =? 41)%N then (1%nat, r) else (0%nat, s2)
      | [] => (0%nat, s2)
      end in
    let k := run_length is_track_sep s3 in
    if (1 <=? k)%nat then Some (par + n + cl + k)%nat else None
  else None.

Lemma track_group_body (s : str) :
  track_group s =
  match s with
  | c :: r => if (c =? 40)%N then group_body 1 r else group_body 0 s
  | [] => group_body 0 s
  end.
Proof.
  destruct s as [|c r]; [reflexivity|].
  unfold track_group. destruct (c =? 40)%N; reflexivity.
Qed.

(** The track-number prefixes that the pattern takes in one group. *)
Definition track_number (op cl : bool) (ds sep : str) : str :=
  (if op then lit "(" else []) ++ ds ++ (if cl then lit ")" else []) ++ sep.

Lemma group_body_number (par : nat) (cl : bool) (ds sep : str) c (rest : str) :
  (1 ≤ length ds ≤ 3)%nat → Forall (fun d => is_digit d = true) ds →
  sep ≠ [] → Forall (fun d => is_track_sep d = true) sep →
  is_track_sep c = false →
  group_body par (ds ++ (if cl then lit ")" else []) ++ sep ++ c :: rest) =
  Some (par + length ds + (if cl then 1 else 0) + length sep)%nat.
Proof.
  intros Hlen Hds Hsep Hseps Hc.
  destruct sep as [|s0 sep]; [congruence|].
  pose proof (Forall_inv Hseps) as Hs0. cbv beta in Hs0.
  destruct (track_sep_not_paren s0 Hs0) as [Hs41 _].
  pose proof (track_sep_not_digit s0 Hs0) as Hs0d.
  assert (Hk : run_length is_track_sep ((s0 :: sep) ++ c :: rest) = length (s0 :: sep))
    by (apply run_length_app; [exact Hseps | exact Hc]).
  assert (Hrun : run_length is_digit
                   (ds ++ (if cl then lit ")" else []) ++ (s0 :: sep) ++ c :: rest) = length ds).
  { apply run_length_app; [exact Hds|]. destruct cl; [reflexivity | exact Hs0d]. }
  unfold group_body. rewrite Hrun. cbv zeta.
  replace ((1 <=? length ds)%nat && (length ds <=? 3)%nat) with true
    by (symmetry; apply andb_true_iff; split; apply Nat.leb_le; lia).
  rewrite drop_app_length.
  destruct cl.
  - change (lit ")" ++ (s0 :: sep) ++ c :: rest) with (41%N :: (s0 :: sep) ++ c :: rest).
    cbv iota beta. change ((41 =? 41)%N) with true. cbv iota beta. rewrite Hk.
    cbn [length Nat.leb]. reflexivity.
  - change ([] ++ (s0 :: sep) ++ c :: rest) with (s0 :: sep ++ c :: rest).
    cbv iota beta. rewrite Hs41. cbv iota beta.
    change (s0 :: sep ++ c :: rest) with ((s0 :: sep) ++ c :: rest). rewrite Hk.
    cbn [length Nat.leb]. reflexivity.
Qed.

Lemma track_group_number (op cl : bool) (ds sep : str) c (rest : str) :
  (1 ≤ length ds ≤ 3)%nat → Forall (fun d => is_digit d = true) ds →
  sep ≠ [] → Forall (fun d => is_track_sep d = true) sep →
  is_track_sep c = false →
  track_group (track_number op cl ds sep ++ c :: rest) =
  Some (length (track_number op cl ds sep)).
Proof.
  intros Hlen Hds Hsep Hseps Hc.
  rewrite track_group_body. unfold track_number.
  destruct op.
  - change (lit "(" ++ ?x) with (40%N :: x). cbn [app].
    cbv iota beta. change ((40 =? 40)%N) with true. cbv iota.
    rewrite <- !app_assoc, group_body_number by assumption.
    cbn [length]. rewrite !length_app. destruct cl; simpl; f_equal; lia.
  - cbn [app]. rewrite <- !app_assoc.
    destruct ds as [|d0 ds]; [simpl in Hlen; lia|].
    pose proof (Forall_inv Hds) as Hd0. cbv beta in Hd0.
    destruct (digit_not_paren d0 Hd0) as [Hd40 _].
    cbn [app]. rewrite Hd40.
    change (d0 :: ds ++ ?x) with ((d0 :: ds) ++ x).
    rewrite group_body_number by assumption.
    rewrite !length_app. destruct cl; simpl; f_equal; lia.
Qed.

Lemma drop_while_snoc_stop p (l : str) c :
  p c = false → ∃ l', drop_while p (l ++ [c]) = l' ++ [c].
Proof.
  intros Hc. induction l as [|y l IH]; simpl.
  - rewrite Hc. exists []. reflexivity.
  - destruct (p y); [exact IH|]. exists (y :: l). reflexivity.
Qed.

Lemma rstrip_cons c (rest : str) : is_space c = false → ∃ r2, rstrip (c :: rest) = c :: r2.
Proof.
  intros Hc. unfold rstrip. simpl rev.
  destruct (drop_while_snoc_stop is_space (rev rest) c Hc) as [l' ->].
  rewrite rev_app_distr. simpl. eexists. reflexivity.
Qed.

Lemma drop_while_app_nonempty p (l r : str) :
  drop_while p l ≠ [] → drop_while p (l ++ r) = drop_while p l ++ r.
Proof.
  induction l as [|y l IH]; simpl; [congruence|].
  destruct (p y); [exact IH | reflexivity].
Qed.

Lemma rstrip_app_r (a b : str) : rstrip b ≠ [] → rstrip (a ++ b) = a ++ rstrip b.
Proof.
  unfold rstrip. intros H. rewrite rev_app_distr, drop_while_app_nonempty.
  - rewrite rev_app_distr, rev_involutive. reflexivity.
  - intros E. apply H. rewrite E. reflexivity.
Qed.

(** X25. What the cleaning does with a track number, over the alphabet on
    which the digit class is reproduced.  A stem that begins, after leading
    whitespace, with a character that is neither a digit nor an opening
    bracket only has its whitespace normalised.  A stem made of a track
    number (one to three digits, optionally in brackets, followed by
    whitespace, full stops, underscores or hyphens) and of a text that does
    not itself begin with a digit, a bracket or a separator is cleaned to
    that text with its whitespace normalised. *)
Theorem clean_title_track_number :
  (∀ stem : str,
     in_alphabet stem →
     match strip stem with
     | c :: _ => is_digit c = false ∧ c ≠ 40%N
     | [] => True
     end →
     clean_filename_title stem = strip (collapse_spaces (strip stem))) ∧
  (∀ (op cl : bool) (ds sep : str) (c : N) (rest : str),
     in_alphabet (sep ++ c :: rest) →
     (1 ≤ length ds ≤ 3)%nat → Forall (fun d => is_digit d = true) ds →
     sep ≠ [] → Forall (fun d => is_track_sep d = true) sep →
     is_track_sep c = false → is_digit c = false → c ≠ 40%N →
     clean_filename_title (track_number op cl ds sep ++ c :: rest) =
       strip (collapse_spaces (strip (c :: rest)))).
Proof.
  split.
  - intros stem _ H. unfold clean_filename_title.
    rewrite track_prefix_sub_none; [rewrite strip_idem; reflexivity | |].
    + apply (strip_trimmed stem).
    + destruct (strip stem) as [|c s]; [reflexivity|].
      destruct H. apply track_group_head; assumption.
  - intros op cl ds sep c rest _ Hlen Hds Hsep Hseps Hc Hd Hp.
    assert (Hcs : is_space c = false).
    { unfold is_track_sep in Hc. apply orb_false_iff in Hc as [Hc _].
      apply orb_false_iff in Hc as [Hc _]. apply orb_false_iff in Hc as [Hc _]. exact Hc. }
    destruct (rstrip_cons c rest Hcs) as [r2 Hr2].
    assert (Hstrip_rest : strip (c :: rest) = c :: r2).
    { unfold strip, lstrip. simpl. rewrite Hcs. exact Hr2. }
    assert (Htn : ∃ h tl, track_number op cl ds sep = h :: tl ∧ is_space h = false).
    { unfold track_number. destruct op; [eexists _, _; split; [reflexivity | reflexivity]|].
      destruct ds as [|d0 ds]; [simpl in Hlen; lia|].
      pose proof (Forall_inv Hds) as Hd0. cbv beta in Hd0.
      eexists _, _. split; [reflexivity|].
      apply digit_not_space. exact Hd0. }
    destruct Htn as (h & tl & Etn & Hh).
    assert (Hdw : ∀ x, drop_while is_space (track_number op cl ds sep ++ x) =
                       track_number op cl ds sep ++ x)
      by (intros x; rewrite Etn; cbn [app drop_while]; rewrite Hh; reflexivity).
    assert (Hstrip : strip (track_number op cl ds sep ++ c :: rest) =
                     track_number op cl ds sep ++ c :: r2).
    { unfold strip, lstrip. rewrite Hdw, rstrip_app_r, Hr2; [reflexivity|].
      rewrite Hr2. discriminate. }
    unfold clean_filename_title. rewrite Hstrip.
    assert (Hg : track_group (track_number op cl ds sep ++ c :: r2) =
                 Some (length (track_number op cl ds sep)))
      by (apply track_group_number; assumption).
    assert (Hsub : track_prefix_sub (track_number op cl ds sep ++ c :: r2) = c :: r2).
    { unfold track_prefix_sub. rewrite Hdw, Hg.
      rewrite Etn in Hg |- *. cbn [app strip_groups]. cbn [app] in Hg. rewrite Hg.
      cbn [length]. replace (S (length tl) - 1)%nat with (length tl) by lia.
      rewrite strip_groups_skip.
      apply strip_groups_none, track_group_head; assumption. }
    rewrite Hsub, <- Hstrip_rest, strip_idem. reflexivity.
Qed.

Lemma clean_title_track_number_witness :
  clean_filename_title (track_number true true (lit "07") (lit ". ") ++ 83%N :: lit "ong  Title ")
  = lit "Song Title".
Proof.
  rewrite (proj2 clean_title_track_number true true (lit "07") (lit ". ") 83%N
             (lit "ong  Title ")); try reflexivity; try discriminate.
  - repeat (constructor; [reflexivity|]). constructor.
  - simpl. lia.
  - repeat (constructor; [reflexivity|]). constructor.
  - repeat (constructor; [reflexivity|]). constructor.
Defined.

End FileTitles.

(** ** Cleaning a title twice *)
Section CleanTwice.
Import Titles.

Lemma run_length_drop_head p (l : str) :
  match drop (run_length p l) l with c :: _ => p c = false | [] => True end.
Proof.
  induction l as [|c l IH]; simpl; [exact I|].
  destruct (p c) eqn:E; simpl; [exact IH | exact E].
Qed.

Lemma run_length_take p (l : str) : Forall (fun c => p c = true) (take (run_length p l) l).
Proof.
  induction l as [|c l IH]; simpl; [constructor|].
  destruct (p c) eqn:E; simpl; constructor; assumption.
Qed.

Lemma run_length_le p (l : str) : (run_length p l ≤ length l)%nat.
Proof. induction l as [|c l IH]; simpl; [lia|]. destruct (p c); simpl; lia. Qed.

Lemma run_length_pos p (l : str) :
  (1 ≤ run_length p l)%nat → ∃ c t, l = c :: t ∧ p c = true.
Proof.
  destruct l as [|c t]; simpl; [lia|]. destruct (p c) eqn:E; [|lia]. eauto.
Qed.

(** A string with a group at its head, in words. *)
Definition has_group (s : str) : Prop :=
  ∃ (op cl : bool) (ds : str) (sepc : N) (tl : str),
    s = (if op then lit "(" else []) ++ ds ++ (if cl then lit ")" else []) ++ sepc :: tl ∧
    (1 ≤ length ds ≤ 3)%nat ∧ Forall (fun d => is_digit d = true) ds ∧
    is_track_sep sepc = true.

Lemma group_body_some par (s1 : str) n :
  group_body par s1 = Some n →
  (∃ (cl : bool) (ds : str) (sepc : N) (tl : str),
     s1 = ds ++ (if cl then lit ")" else []) ++ sepc :: tl ∧
     (1 ≤ length ds ≤ 3)%nat ∧ Forall (fun d => is_digit d = true) ds ∧
     is_track_sep sepc = true) ∧
  ∃ m, n = (par + m)%nat ∧ (1 ≤ m)%nat ∧
       match drop m s1 with c :: _ => is_track_sep c = false | [] => True end.
Proof.
  unfold group_body.
  set (nd := run_length is_digit s1).
  destruct ((1 <=? nd)%nat && (nd <=? 3)%nat) eqn:En; [|discriminate].
  apply andb_true_iff in En as [En1 En3]. apply Nat.leb_le in En1, En3.
  pose proof (run_length_take is_digit s1) as Hds. fold nd in Hds.
  pose proof (run_length_le is_digit s1) as Hle. fold nd in Hle.
  assert (Es1 : s1 = take nd s1 ++ drop nd s1) by (symmetry; apply take_drop).
  assert (Hlen : length (take nd s1) = nd) by (rewrite length_take; lia).
  cbv zeta.
  destruct (drop nd s1) as [|c r] eqn:Ed; [simpl; discriminate|].
  destruct (N.eqb_spec c 41) as [->|Hc].
  - destruct (1 <=? run_length is_track_sep r)%nat eqn:Ek; [|discriminate].
    apply Nat.leb_le in Ek. intros [= <-].
    destruct (run_length_pos _ _ Ek) as (sepc & tl & -> & Hsep).
    split.
    + exists true, (take nd s1), sepc, tl. rewrite Hlen. auto.
    + exists (nd + 1 + run_length is_track_sep (sepc :: tl))%nat.
      split; [cbn [run_length]; rewrite ?Hsep; lia|]. split; [lia|].
      rewrite <- !drop_drop, Ed. cbn [drop].
      apply run_length_drop_head.
  - destruct (1 <=? run_length is_track_sep (c :: r))%nat eqn:Ek; [|discriminate].
    apply Nat.leb_le in Ek. intros [= <-].
    destruct (run_length_pos _ _ Ek) as (sepc & tl & [= -> ->] & Hsep).
    split.
    + exists false, (take nd s1), sepc, tl. rewrite Hlen. auto.
    + exists (nd + run_length is_track_sep (sepc :: tl))%nat.
      split; [cbn [run_length]; rewrite ?Hsep; lia|]. split; [lia|].
      rewrite <- drop_drop, Ed. apply run_length_drop_head.
Qed.

Lemma track_group_some (s : str) n :
  track_group s = Some n →
  has_group s ∧ (1 ≤ n)%nat ∧
  match drop n s with c :: _ => is_track_sep c = false | [] => True end.
Proof.
  rewrite track_group_body. destruct s as [|c r].
  - intros H. apply group_body_some in H as [(cl & ds & sepc & tl & E & _) _].
    destruct ds, cl; discriminate.
  - destruct (N.eqb_spec c 40) as [->|Hc]; intros H;
      apply group_body_some in H as [(cl & ds & sepc & tl & E & H1 & H2 & H3)
                                     (m & -> & Hm & Hd)].
    + split; [exists true, cl, ds, sepc, tl; rewrite E; auto|].
      split; [lia | exact Hd].
    + split; [exists false, cl, ds, sepc, tl; rewrite E; auto|].
      split; [lia | exact Hd].
Qed.

Lemma group_body_is_some par (cl : bool) (ds : str) sepc (tl : str) :
  (1 ≤ length ds ≤ 3)%nat → Forall (fun d => is_digit d = true) ds →
  is_track_sep sepc = true →
  group_body par (ds ++ (if cl then lit ")" else []) ++ sepc :: tl) ≠ None.
Proof.
  intros Hlen Hds Hsep.
  pose proof (track_sep_not_digit sepc Hsep) as Hsd.
  destruct (track_sep_not_paren sepc Hsep) as [Hs41 _].
  assert (Hrun : run_length is_digit (ds ++ (if cl then lit ")" else []) ++ sepc :: tl)
                 = length ds).
  { apply run_length_app; [exact Hds|]. destruct cl; [reflexivity | exact Hsd]. }
  unfold group_body. rewrite Hrun. cbv zeta.
  replace ((1 <=? length ds)%nat && (length ds <=? 3)%nat) with true
    by (symmetry; apply andb_true_iff; split; apply Nat.leb_le; lia).
  rewrite drop_app_length.
  destruct cl.
  - change (lit ")" ++ sepc :: tl) with (41%N :: sepc :: tl). cbv iota beta.
    change ((41 =? 41)%N) with true. cbv iota beta.
    cbn [run_length]. rewrite Hsep. discriminate.
  - change ([] ++ sepc :: tl) with (sepc :: tl). cbv iota beta. rewrite Hs41.
    cbv iota beta. cbn [run_length]. rewrite Hsep. discriminate.
Qed.

Lemma has_group_track_group (s : str) : has_group s → track_group s ≠ None.
Proof.
  intros (op & cl & ds & sepc & tl & -> & Hlen & Hds & Hsep).
  rewrite track_group_body. destruct op.
  - change (lit "(" ++ ?x) with (40%N :: x). cbv iota beta.
    change ((40 =? 40)%N) with true. cbv iota.
    apply group_body_is_some; assumption.
  - cbn [app]. destruct ds as [|d0 ds]; [simpl in Hlen; lia|].
    pose proof (Forall_inv Hds) as Hd0. cbv beta in Hd0.
    destruct (digit_not_paren d0 Hd0) as [Hd40 _].
    cbn [app]. rewrite Hd40.
    change (d0 :: ds ++ ?x) with ((d0 :: ds) ++ x).
    apply group_body_is_some; assumption.
Qed.

Lemma no_group_iff (s : str) : track_group s = None ↔ ¬ has_group s.
Proof.
  split.
  - intros H Hg. exact (has_group_track_group s Hg H).
  - intros H. destruct (track_group s) as [n|] eqn:E; [|reflexivity].
    apply track_group_some in E as [Hg _]. contradiction.
Qed.

(** Text added after a group leaves a group. *)
Lemma has_group_app (s x : str) : has_group s → has_group (s ++ x).
Proof.
  intros (op & cl & ds & sepc & tl & -> & H).
  exists op, cl, ds, sepc, (tl ++ x). split; [|exact H].
  rewrite <- !app_assoc. reflexivity.
Qed.

Lemma no_group_rstrip (s : str) : track_group s = None → track_group (rstrip s) = None.
Proof.
  rewrite !no_group_iff. intros H Hg. apply H.
  destruct (rstrip_prefix s) as [l Hl]. rewrite Hl. apply has_group_app, Hg.
Qed.

(** A prefix without whitespace goes through the collapsing unchanged. *)
Lemma collapse_go_prefix (a b x : str) :
  Forall (fun c => is_space c = false) a →
  collapse_go false x = a ++ b →
  ∃ b', x = a ++ b' ∧ collapse_go false b' = b.
Proof.
  intros Ha. revert x. induction Ha as [|c a Hc Ha IH]; intros x E.
  - exists x. split; [reflexivity | exact E].
  - destruct x as [|y x]; [discriminate|]. simpl in E.
    destruct (is_space y) eqn:Ey.
    + injection E as <- _. discriminate.
    + injection E as -> E. destruct (IH x E) as (b' & -> & Hb').
      exists b'. split; [reflexivity | exact Hb'].
Qed.

Lemma group_chars_no_space (op cl : bool) (ds : str) :
  Forall (fun d => is_digit d = true) ds →
  Forall (fun c => is_space c = false)
         ((if op then lit "(" else []) ++ ds ++ (if cl then lit ")" else [])).
Proof.
  intros Hds. apply Forall_app. split; [destruct op; repeat constructor|].
  apply Forall_app. split; [|destruct cl; repeat constructor].
  eapply Forall_impl; [exact Hds|]. intros c. apply digit_not_space.
Qed.

Lemma space_is_track_sep c : is_space c = true → is_track_sep c = true.
Proof. intros H. unfold is_track_sep. rewrite H. reflexivity. Qed.

Lemma no_group_collapse (s : str) :
  track_group s = None → track_group (collapse_spaces s) = None.
Proof.
  rewrite !no_group_iff. intros H Hg. apply H.
  destruct Hg as (op & cl & ds & sepc & tl & E & Hlen & Hds & Hsep).
  unfold collapse_spaces in E.
  assert (E' : collapse_go false s =
               ((if op then lit "(" else []) ++ ds ++ (if cl then lit ")" else [])) ++
               sepc :: tl) by (rewrite E, <- !app_assoc; reflexivity).
  clear E.
  apply collapse_go_prefix in E' as (b' & -> & Hb'); [|apply group_chars_no_space, Hds].
  pose proof Hb' as Hb.
  destruct b' as [|w b']; [discriminate|]. simpl in Hb.
  exists op, cl, ds, w, b'. rewrite <- !app_assoc. split; [reflexivity|].
  split; [exact Hlen|]. split; [exact Hds|].
  destruct (is_space w) eqn:Ew; [apply space_is_track_sep, Ew|].
  injection Hb as -> _. exact Hsep.
Qed.

(** What is left after the groups has no group at its head and does not
    begin with whitespace. *)
Lemma strip_groups_rest (s : str) : ∀ k,
  match drop k s with c :: _ => is_space c = false | [] => True end →
  track_group (strip_groups k s) = None ∧
  match strip_groups k s with c :: _ => is_space c = false | [] => True end.
Proof.
  induction s as [|c s IH]; intros k Hk.
  - simpl. split; [reflexivity | exact I].
  - destruct k as [|k].
    + cbn [strip_groups]. destruct (track_group (c :: s)) as [n|] eqn:E.
      * apply track_group_some in E as (_ & Hn & Hd).
        apply IH. destruct n as [|n]; [lia|]. simpl in Hd |- *.
        rewrite Nat.sub_0_r.
        destruct (drop n s) as [|x t]; [exact I|].
        unfold is_track_sep in Hd. apply orb_false_iff in Hd as [Hd _].
        apply orb_false_iff in Hd as [Hd _]. apply orb_false_iff in Hd as [Hd _]. exact Hd.
      * split; [exact E | exact Hk].
    + cbn [strip_groups]. apply IH. exact Hk.
Qed.

Lemma track_prefix_sub_rest (s : str) :
  drop_while is_space s = s →
  track_group (track_prefix_sub s) = None ∧
  match track_prefix_sub s with c :: _ => is_space c = false | [] => True end.
Proof.
  intros Hs. unfold track_prefix_sub. rewrite Hs.
  assert (Hh : match s with c :: _ => is_space c = false | [] => True end).
  { destruct s as [|c t]; [exact I|]. eapply drop_while_head, Hs. }
  destruct (track_group s) eqn:E.
  - apply strip_groups_rest. exact Hh.
  - split; [exact E | exact Hh].
Qed.

Lemma lstrip_head (s : str) :
  match s with c :: _ => is_space c = false | [] => True end → drop_while is_space s = s.
Proof. destruct s as [|c t]; [reflexivity|]. intros H. simpl. rewrite H. reflexivity. Qed.

Lemma rstrip_head (s : str) :
  match s with c :: _ => is_space c = false | [] => True end →
  match rstrip s with c :: _ => is_space c = false | [] => True end.
Proof.
  destruct s as [|c t]; [intros _; exact I|]. intros H.
  destruct (rstrip_cons c t H) as [r2 ->]. exact H.
Qed.

Lemma collapse_head (s : str) :
  match s with c :: _ => is_space c = false | [] => True end →
  match collapse_spaces s with c :: _ => is_space c = false | [] => True end.
Proof.
  destruct s as [|c t]; [intros _; exact I|]. intros H.
  unfold collapse_spaces. simpl. rewrite H. exact H.
Qed.

Lemma strip_no_group (s : str) :
  track_group s = None →
  match s with c :: _ => is_space c = false | [] => True end →
  track_group (strip s) = None ∧
  match strip s with c :: _ => is_space c = false | [] => True end.
Proof.
  intros H1 H2. unfold strip, lstrip. rewrite (lstrip_head s H2).
  split; [apply no_group_rstrip, H1 | apply rstrip_head, H2].
Qed.

(** The cleaned title has no track number left at its head. *)
Lemma clean_title_no_group (stem : str) :
  track_group (clean_filename_title stem) = None.
Proof.
  unfold clean_filename_title.
  destruct (track_prefix_sub_rest (strip stem)) as [H1 H2]; [apply (strip_trimmed stem)|].
  destruct (strip_no_group _ H1 H2) as [H3 H4].
  pose proof (no_group_collapse _ H3) as H5.
  pose proof (collapse_head _ H4) as H6.
  apply (strip_no_group _ H5 H6).
Qed.

(** X26. Over the alphabet on which the digit class is reproduced, cleaning
    is idempotent: the title derived from a file name has no whitespace at
    its ends, no run of whitespace other than single spaces and no track
    number left at its head, and cleaning it again returns it as it is. *)
Theorem clean_title_idempotent (stem : str) :
  in_alphabet stem →
  clean_filename_title (clean_filename_title stem) = clean_filename_title stem ∧
  track_prefix_sub (clean_filename_title stem) = clean_filename_title stem ∧
  strip (clean_filename_title stem) = clean_filename_title stem ∧
  collapse_spaces (clean_filename_title stem) = clean_filename_title stem.
Proof.
  intros _.
  destruct (clean_title_shape stem) as [Hs Hc].
  pose proof (clean_title_no_group stem) as Hg.
  assert (Hsub : track_prefix_sub (clean_filename_title stem) = clean_filename_title stem).
  { apply track_prefix_sub_none; [|exact Hg].
    rewrite <- Hs at 2. rewrite <- Hs at 1. apply (strip_trimmed (clean_filename_title stem)). }
  split; [|auto].
  unfold clean_filename_title at 1. rewrite Hs, Hsub, Hs, Hc, Hs. reflexivity.
Qed.

Lemma clean_title_idempotent_witness :
  clean_filename_title (lit " 01 - (02) 2020  Song ") = lit "2020 Song" ∧
  clean_filename_title (clean_filename_title (lit " 01 - (02) 2020  Song ")) =
    clean_filename_title (lit " 01 - (02) 2020  Song ").
Proof.
  split; [vm_compute; reflexivity|].
  apply (clean_title_idempotent (lit " 01 - (02) 2020  Song ")).
  repeat (constructor; [reflexivity|]). constructor.
Defined.

End CleanTwice.

(** ** Displays of two parts *)
Section TwoParts.

Definition no_dash (s : str) : Prop :=
  Forall (fun c => c ≠ 45%N ∧ c ≠ 8211%N ∧ c ≠ 8212%N) s.

Lemma replace_char_absent old new (s : str) :
  Forall (fun c => c ≠ old) s → replace_char old new s = s.
Proof.
  induction 1 as [|c s Hc _ IH]; [reflexivity|].
  change (c :: s) with ([c] ++ s).
  rewrite replace_char_app, replace_char_one, IH.
  apply N.eqb_neq in Hc. rewrite Hc. reflexivity.
Qed.

Lemma dash_sep_match_none (s : str) :
  Forall (fun c => c ≠ 45%N) s → dash_sep_match s = None.
Proof.
  intros H. unfold dash_sep_match.
  destruct (run_length is_space s) as [|n] eqn:E; [reflexivity|].
  rewrite match_minus.
  pose proof (Forall_drop _ (S n) _ H) as Hd.
  destruct (drop (S n) s) as [|c r]; [reflexivity|].
  apply Forall_inv in Hd. apply N.eqb_neq in Hd. rewrite Hd. reflexivity.
Qed.

Lemma split_dash_go_plain (s cur : str) :
  Forall (fun c => c ≠ 45%N) s → split_dash_go cur 0 s = [rev cur ++ s].
Proof.
  revert cur. induction s as [|c s IH]; intros cur H.
  - simpl. rewrite app_nil_r. reflexivity.
  - cbn [split_dash_go]. rewrite dash_sep_match_none by exact H.
    rewrite IH by (eapply Forall_inv_tail, H).
    simpl. rewrite <- app_assoc. reflexivity.
Qed.

(** A run of whitespace inside a text that has a later character other than
    whitespace ends inside the text. *)
Lemma run_stops_inside (u r : str) z :
  is_space z = false →
  ∃ c t, drop (run_length is_space ((u ++ [z]) ++ r)) ((u ++ [z]) ++ r) = c :: t ∧
         c ∈ u ++ [z].
Proof.
  intros Hz. induction u as [|x u (c & t & E & Hc)]; simpl.
  - rewrite Hz. simpl. exists z, r. split; [reflexivity | left].
  - destruct (is_space x) eqn:Ex.
    + simpl. exists c, t. split; [exact E | right; exact Hc].
    + simpl. exists x, ((u ++ [z]) ++ r). split; [reflexivity | left].
Qed.

Lemma dash_sep_match_inside (u r : str) z :
  is_space z = false → Forall (fun c => c ≠ 45%N) (u ++ [z]) →
  dash_sep_match ((u ++ [z]) ++ r) = None.
Proof.
  intros Hz Hu. unfold dash_sep_match.
  destruct (run_length is_space ((u ++ [z]) ++ r)) as [|n] eqn:E; [reflexivity|].
  rewrite match_minus.
  destruct (run_stops_inside u r z Hz) as (c & t & Ed & Hc).
  rewrite E in Ed. rewrite Ed.
  rewrite Forall_forall in Hu. specialize (Hu c Hc).
  apply N.eqb_neq in Hu. rewrite Hu. reflexivity.
Qed.

Lemma split_dash_go_junction (u : str) z y (b cur : str) :
  is_space z = false → is_space y = false →
  Forall (fun c => c ≠ 45%N) (u ++ [z]) → Forall (fun c => c ≠ 45%N) (y :: b) →
  split_dash_go cur 0 ((u ++ [z]) ++ lit " - " ++ y :: b) = [rev cur ++ u ++ [z]; y :: b].
Proof.
  intros Hz Hy Hu Hb. revert cur. induction u as [|x u IH]; intros cur.
  - cbn [app split_dash_go].
    assert (E1 : dash_sep_match (z :: lit " - " ++ y :: b) = None).
    { unfold dash_sep_match. simpl. rewrite Hz. reflexivity. }
    rewrite E1.
    assert (E2 : dash_sep_match (lit " - " ++ y :: b) = Some 3%nat).
    { unfold dash_sep_match. simpl. rewrite Hy. reflexivity. }
    change (lit " - " ++ y :: b) with (32%N :: 45%N :: 32%N :: y :: b) in *.
    cbn [split_dash_go]. rewrite E2. cbn [Nat.sub split_dash_go].
    change (y :: b) with ([] ++ y :: b) at 1.
    pose proof (split_dash_go_plain (y :: b) [] Hb) as E3. simpl in E3 |- *.
    rewrite E3. reflexivity.
  - change (((x :: u) ++ [z]) ++ lit " - " ++ y :: b)
      with (x :: (u ++ [z]) ++ lit " - " ++ y :: b).
    cbn [split_dash_go].
    change (x :: (u ++ [z]) ++ lit " - " ++ y :: b)
      with ((((x :: u) ++ [z])) ++ lit " - " ++ y :: b).
    rewrite dash_sep_match_inside by assumption.
    rewrite IH by (eapply Forall_inv_tail, Hu).
    simpl. rewrite <- !app_assoc. reflexivity.
Qed.

Lemma last_non_space (a : str) :
  a ≠ [] → strip a = a → ∃ u z, a = u ++ [z] ∧ is_space z = false.
Proof.
  intros Ha Hs.
  assert (Htr : trimmed a) by (rewrite <- Hs; apply strip_trimmed).
  destruct Htr as [_ Hr].
  destruct (rev a) as [|z ru] eqn:E.
  - apply (f_equal (@rev N)) in E. rewrite rev_involutive in E. contradiction.
  - exists (rev ru), z. split.
    + apply (f_equal (@rev N)) in E. rewrite rev_involutive in E. exact E.
    + eapply drop_while_head, Hr.
Qed.

Lemma first_non_space (b : str) :
  b ≠ [] → strip b = b → ∃ y t, b = y :: t ∧ is_space y = false.
Proof.
  intros Hb Hs.
  assert (Htr : trimmed b) by (rewrite <- Hs; apply strip_trimmed).
  destruct Htr as [Hl _].
  destruct b as [|y t]; [contradiction|].
  exists y, t. split; [reflexivity|]. eapply drop_while_head, Hl.
Qed.

Lemma no_dash_each (s : str) :
  no_dash s →
  Forall (fun c => c ≠ 45%N) s ∧ Forall (fun c => c ≠ 8211%N) s ∧
  Forall (fun c => c ≠ 8212%N) s.
Proof.
  intros H. repeat split; (eapply Forall_impl; [exact H|]); intros c; cbv beta; tauto.
Qed.

(** X27. A display made of two parts around one spaced hyphen gives both
    orientations: the first part as title with the second as artist, then
    the second as title with the first as artist, each part in normal form;
    when the two normal forms coincide there is one pair only. *)
Theorem candidate_pairs_two_parts (a b na nb : str) :
  no_dash a → no_dash b → strip a = a → strip b = b →
  norm (Some a) = Some na → norm (Some b) = Some nb →
  candidate_pairs_from_display (a ++ lit " - " ++ b) =
    if bool_decide (na = nb) then [(na, Some na)]
    else [(na, Some nb); (nb, Some na)].
Proof.
  intros Hda Hdb Hsa Hsb Hna Hnb.
  assert (Ha : a ≠ []) by (intros ->; discriminate Hna).
  assert (Hb : b ≠ []) by (intros ->; discriminate Hnb).
  destruct (last_non_space a Ha Hsa) as (u & z & Ea & Hz).
  destruct (first_non_space b Hb Hsb) as (y & t & Eb & Hy).
  destruct (no_dash_each a Hda) as (Ha1 & Ha2 & Ha3).
  destruct (no_dash_each b Hdb) as (Hb1 & Hb2 & Hb3).
  assert (Hdisp : ∃ h tl, a ++ lit " - " ++ b = h :: tl ∧ is_space h = false).
  { destruct (first_non_space a Ha Hsa) as (h & tl & -> & Hh). eauto. }
  destruct Hdisp as (h & tl & Ed & Hh).
  unfold candidate_pairs_from_display. rewrite Ed. rewrite <- Ed.
  assert (Hrep : ∀ k, Forall (fun c => c ≠ k) a → Forall (fun c => c ≠ k) b → k ≠ 32%N →
                      k ≠ 45%N → Forall (fun c => c ≠ k) (a ++ lit " - " ++ b)).
  { intros k H1 H2 H32 H45. apply Forall_app. split; [exact H1|].
    apply Forall_app. split; [|exact H2].
    change (lit " - ") with [32%N; 45%N; 32%N]. repeat constructor; congruence. }
  rewrite (replace_char_absent 8211) by (apply Hrep; (assumption || discriminate)).
  rewrite (replace_char_absent 8212) by (apply Hrep; (assumption || discriminate)).
  assert (Hstrip : strip (a ++ lit " - " ++ b) = a ++ lit " - " ++ b).
  { apply trimmed_strip.
    destruct (first_non_space a Ha Hsa) as (h' & tl' & -> & Hh').
    replace ((h' :: tl') ++ lit " - " ++ b) with (h' :: (tl' ++ lit " - ") ++ b)
      by (simpl; rewrite <- app_assoc; reflexivity).
    apply trimmed_wrap; [exact Hh' | exact Hb|].
    rewrite <- Hsb. apply strip_trimmed. }
  rewrite Hstrip.
  assert (Hsplit : split_dash (a ++ lit " - " ++ b) = [a; b]).
  { unfold split_dash. rewrite Ea, Eb.
    rewrite split_dash_go_junction; try assumption; [reflexivity | |].
    - rewrite <- Ea. exact Ha1.
    - rewrite <- Eb. exact Hb1. }
  rewrite Hsplit.
  assert (Hparts : omap (fun p => norm (Some p))
                     (map strip (List.filter (fun p => nonempty (strip p)) [a; b]))
                   = [na; nb]).
  { cbn [List.filter]. rewrite Hsa, Hsb.
    apply nonempty_true in Ha, Hb. rewrite Ha, Hb.
    cbn [map]. rewrite Hsa, Hsb.
    change (omap (fun p => norm (Some p)) [a; b])
      with (match norm (Some a) with
            | Some x => x :: omap (fun p => norm (Some p)) [b]
            | None => omap (fun p => norm (Some p)) [b]
            end).
    rewrite Hna.
    change (omap (fun p => norm (Some p)) [b])
      with (match norm (Some b) with
            | Some x => [x]
            | None => []
            end).
    rewrite Hnb. reflexivity. }
  rewrite Hparts. cbn [raw_pairs dedup_pairs].
  pose proof (norm_some_nonempty _ _ Hna) as Hna'.
  pose proof (norm_some_nonempty _ _ Hnb) as Hnb'.
  apply nonempty_true in Hna', Hnb'. rewrite Hna', Hnb'. cbn [negb orb].
  rewrite bool_decide_eq_false_2 by set_solver.
  destruct (decide (na = nb)) as [<-|Hne].
  - rewrite (bool_decide_eq_true_2 (na = na)) by reflexivity.
    rewrite bool_decide_eq_true_2 by set_solver. reflexivity.
  - rewrite (bool_decide_eq_false_2 (na = nb)) by exact Hne.
    rewrite bool_decide_eq_false_2; [reflexivity|].
    intros Hin. apply elem_of_union in Hin as [Hin|Hin]; [|set_solver].
    apply elem_of_singleton in Hin. injection Hin as -> _. congruence.
Qed.

Lemma candidate_pairs_two_parts_witness :
  candidate_pairs_from_display (lit "6LACK" ++ lit " - " ++ lit "Loaded Gun (Live)") =
    [(lit "6lack", Some (lit "loaded gun")); (lit "loaded gun", Some (lit "6lack"))].
Proof.
  rewrite (candidate_pairs_two_parts (lit "6LACK") (lit "Loaded Gun (Live)")
             (lit "6lack") (lit "loaded gun")); try (vm_compute; reflexivity).
  - repeat (constructor; [repeat split; discriminate|]). constructor.
  - repeat (constructor; [repeat split; discriminate|]). constructor.
Defined.

End TwoParts.

(** ** Candidates listed in the notes *)
Section NotesCandidates.
Import Runner.

Variable path_name : str -> str.

Local Abbreviation parse_candidates := (Runner.parse_candidates_from_notes path_name).

(** The test that [_parse_candidates_from_notes] makes on a part. *)
Definition looks_like_path (p : str) : bool :=
  nonempty p &&
  (contains [58; 92]%N p || contains (lit "/") p || contains [92%N] p) &&
  (contains (lit ".") (path_name p) && (3 <=? length (path_name p))%nat).

(** A path that survives the way to the notes and back: no whitespace at its
    ends, no vertical bar, no quote at its ends, and the look of a path. *)
Definition listable (p : str) : Prop :=
  p ≠ [] ∧ strip p = p ∧ Forall (fun c => c ≠ 124%N) p ∧
  strip_char 39 (strip_char 34 p) = p ∧ looks_like_path p = true.

Lemma split_char_plain (s cur : str) :
  Forall (fun c => c ≠ 124%N) s → split_char 124 cur s = [rev cur ++ s].
Proof.
  revert cur. induction s as [|c s IH]; intros cur H.
  - simpl. rewrite app_nil_r. reflexivity.
  - cbn [split_char]. pose proof (Forall_inv H) as Hc. cbv beta in Hc.
    apply N.eqb_neq in Hc. rewrite Hc.
    rewrite IH by (eapply Forall_inv_tail, H). simpl. rewrite <- app_assoc. reflexivity.
Qed.

Lemma split_char_bar (s rest cur : str) :
  Forall (fun c => c ≠ 124%N) s →
  split_char 124 cur (s ++ 124%N :: rest) = (rev cur ++ s) :: split_char 124 [] rest.
Proof.
  revert cur. induction s as [|c s IH]; intros cur H.
  - simpl. rewrite app_nil_r. reflexivity.
  - cbn [app split_char]. pose proof (Forall_inv H) as Hc. cbv beta in Hc.
    apply N.eqb_neq in Hc. rewrite Hc.
    rewrite IH by (eapply Forall_inv_tail, H). simpl. rewrite <- app_assoc. reflexivity.
Qed.

Lemma join_cons2 sep p q (r : list str) :
  join sep (p :: q :: r) = p ++ sep ++ join sep (q :: r).
Proof. reflexivity. Qed.

Lemma split_joined (ps : list str) (pre : str) :
  ps ≠ [] → forallb is_space pre = true → Forall (fun c => c ≠ 124%N) pre →
  Forall (fun p => strip p = p ∧ Forall (fun c => c ≠ 124%N) p) ps →
  map strip (split_char 124 [] (pre ++ join (lit " | ") ps)) = ps.
Proof.
  intros Hne. revert pre. induction ps as [|p ps IH]; [congruence|].
  intros pre Hpre Hpre' Hps.
  pose proof (Forall_inv Hps) as [Hp1 Hp2]. pose proof (Forall_inv_tail Hps) as Hrest.
  destruct ps as [|q r].
  - cbn [join]. rewrite split_char_plain by (apply Forall_app; auto).
    cbn [map rev app].
    rewrite <- (app_nil_r (pre ++ p)), <- app_assoc, strip_padding by auto.
    rewrite Hp1. reflexivity.
  - rewrite join_cons2.
    change (lit " | " ++ join (lit " | ") (q :: r))
      with (lit " " ++ 124%N :: lit " " ++ join (lit " | ") (q :: r)).
    replace (pre ++ p ++ lit " " ++ 124%N :: lit " " ++ join (lit " | ") (q :: r))
      with ((pre ++ p ++ lit " ") ++ 124%N :: lit " " ++ join (lit " | ") (q :: r))
      by (rewrite <- !app_assoc; reflexivity).
    rewrite split_char_bar.
    + cbn [map rev app]. rewrite strip_padding by auto. rewrite Hp1.
      f_equal. apply IH; [discriminate | reflexivity | | exact Hrest].
      repeat constructor. discriminate.
    + apply Forall_app. split; [exact Hpre'|]. apply Forall_app. split; [exact Hp2|].
      repeat constructor. discriminate.
Qed.

Lemma joined_trimmed (ps : list str) :
  ps ≠ [] → Forall (fun p => p ≠ [] ∧ strip p = p) ps →
  join (lit " | ") ps ≠ [] ∧ trimmed (join (lit " | ") ps).
Proof.
  intros Hne. induction ps as [|p ps IH]; [congruence|]. intros Hps.
  pose proof (Forall_inv Hps) as [Hp1 Hp2]. pose proof (Forall_inv_tail Hps) as Hrest.
  destruct ps as [|q r].
  - cbn [join]. split; [exact Hp1|]. rewrite <- Hp2. apply strip_trimmed.
  - rewrite join_cons2. destruct (IH ltac:(discriminate) Hrest) as [Hj1 Hj2].
    destruct (first_non_space p Hp1 Hp2) as (h & t & -> & Hh).
    split; [discriminate|].
    replace ((h :: t) ++ lit " | " ++ join (lit " | ") (q :: r))
      with (h :: (t ++ lit " | ") ++ join (lit " | ") (q :: r))
      by (simpl; rewrite <- app_assoc; reflexivity).
    apply trimmed_wrap; assumption.
Qed.

Lemma filter_all {A} (f : A → bool) (l : list A) :
  Forall (fun x => f x = true) l → List.filter f l = l.
Proof.
  induction 1 as [|x l Hx _ IH]; [reflexivity|]. simpl. rewrite Hx, IH. reflexivity.
Qed.

(** X28. Over the alphabet on which the case mappings are reproduced, the
    candidates that the unresolved view reads from the notes of an
    AMBIGUOUS row are the paths that [repair_playlist] wrote there, joined
    by spaced vertical bars, whenever every path can be listed (no whitespace
    or quote at its ends, no vertical bar, a separator, and a file name with
    a dot and at least three characters) and the notes do not contain the
    word [candidates:]. *)
Theorem candidates_from_notes_round_trip (ps : list str) :
  Forall in_alphabet ps → ps ≠ [] → Forall listable ps →
  contains (lit "candidates:") (lower (join (lit " | ") ps)) = false →
  parse_candidates (join (lit " | ") ps) = ps.
Proof.
  intros _ Hne Hps Hmark.
  assert (H1 : Forall (fun p => p ≠ [] ∧ strip p = p) ps)
    by (eapply Forall_impl; [exact Hps|]; intros p (? & ? & _); auto).
  assert (H2 : Forall (fun p => strip p = p ∧ Forall (fun c => c ≠ 124%N) p) ps)
    by (eapply Forall_impl; [exact Hps|]; intros p (_ & ? & ? & _); auto).
  destruct (joined_trimmed ps Hne H1) as [Hj Htr].
  unfold Runner.parse_candidates_from_notes.
  rewrite (trimmed_strip _ Htr).
  destruct (join (lit " | ") ps) as [|c0 notes] eqn:Ej; [congruence|].
  rewrite Hmark. rewrite <- Ej.
  pose proof (split_joined ps [] Hne eq_refl (List.Forall_nil _) H2) as Hsplit.
  cbn [app] in Hsplit.
  rewrite <- (map_map strip (fun p => strip_char 39 (strip_char 34 p))), Hsplit.
  assert (Hq : map (fun p => strip_char 39 (strip_char 34 p)) ps = ps).
  { clear -Hps. induction Hps as [|p ps (_ & _ & _ & Hp & _) _ IH]; [reflexivity|].
    simpl. rewrite Hp, IH. reflexivity. }
  rewrite Hq. apply filter_all.
  eapply Forall_impl; [exact Hps|]. intros p (_ & _ & _ & _ & Hl).
  unfold looks_like_path in Hl. exact Hl.
Qed.

End NotesCandidates.

Lemma candidates_from_notes_round_trip_witness :
  Repair.notes
    (Repair.Row Repair.AMBIGUOUS (Some 200%Z) (Some (lit "Art - Song"))
       (lit "/old/a.flac") (lit "/old/a.flac") (lit "/m/a.flac | /n/a.flac"))
  = join (lit " | ") [lit "/m/a.flac"; lit "/n/a.flac"] ∧
  Runner.parse_candidates_from_notes (drop 3) (join (lit " | ") [lit "/m/a.flac"; lit "/n/a.flac"])
  = [lit "/m/a.flac"; lit "/n/a.flac"].
Proof.
  split; [reflexivity|].
  apply (candidates_from_notes_round_trip (drop 3) [lit "/m/a.flac"; lit "/n/a.flac"]).
  - repeat (constructor; [repeat (constructor; [reflexivity|]); constructor|]). constructor.
  - discriminate.
  - repeat (constructor;
            [repeat split; try discriminate; try (vm_compute; reflexivity);
             repeat (constructor; [discriminate|]); constructor|]).
    constructor.
  - vm_compute. reflexivity.
Defined.

(** ** Apostrophes and quotes *)
Section NormQuotes.

(** A text with at least one character other than whitespace. *)
Definition has_text (s : str) : bool := existsb (fun c => negb (is_space c)) s.

Lemma has_text_lstrip (s : str) : has_text s = true → drop_while is_space s ≠ [].
Proof.
  induction s as [|c s IH]; simpl; [discriminate|].
  destruct (is_space c); simpl; [exact IH | discriminate].
Qed.

Lemma has_text_rev (s : str) : has_text s = true → has_text (rev s) = true.
Proof.
  unfold has_text. rewrite !existsb_exists. intros (c & Hc & H).
  exists c. split; [apply in_rev; rewrite rev_involutive; exact Hc | exact H].
Qed.

Lemma has_text_rstrip (s : str) : has_text s = true → rstrip s ≠ [].
Proof.
  intros H. unfold rstrip. apply has_text_rev, has_text_lstrip in H.
  intros E. apply H. apply (f_equal (@rev N)) in E. rewrite rev_involutive in E. exact E.
Qed.

Lemma strip_around (a m b : str) :
  has_text a = true → has_text b = true →
  strip (a ++ m ++ b) = drop_while is_space a ++ m ++ rstrip b.
Proof.
  intros Ha Hb. unfold strip, lstrip.
  rewrite drop_while_app_nonempty by (apply has_text_lstrip, Ha).
  rewrite !app_assoc. rewrite rstrip_app_r by (apply has_text_rstrip, Hb).
  reflexivity.
Qed.

Lemma quote_stage (q : N) : is_quote q = true → char_stage [q] = [].
Proof.
  intros H. rewrite char_stage_one, H.
  assert (Hd : is_dash q = false).
  { unfold is_quote in H. unfold is_dash.
    repeat (apply orb_true_iff in H as [H|H]); apply N.eqb_eq in H; subst; reflexivity. }
  rewrite Hd. reflexivity.
Qed.

(** X29. Apostrophes and quotes inside a text do not matter to [norm]:
    a straight or curly apostrophe, a backquote or an acute accent that
    stands between two pieces of text can be taken out, or exchanged for
    another of them, without changing the normal form. *)
Theorem norm_ignores_quotes (a b : str) (q : N) :
  is_quote q = true → has_text a = true → has_text b = true →
  norm (Some (a ++ q :: b)) = norm (Some (a ++ b)) ∧
  ∀ q', is_quote q' = true → norm (Some (a ++ q' :: b)) = norm (Some (a ++ q :: b)).
Proof.
  intros Hq Ha Hb.
  assert (Hone : ∀ x, is_quote x = true → norm (Some (a ++ x :: b)) = norm (Some (a ++ b))).
  { intros x Hx.
    destruct a as [|a0 a']; [discriminate|].
    change (norm (Some ((a0 :: a') ++ x :: b)))
      with (or_none (norm_text ((a0 :: a') ++ x :: b))).
    change (norm (Some ((a0 :: a') ++ b))) with (or_none (norm_text ((a0 :: a') ++ b))).
    f_equal. rewrite !norm_text_stages. do 4 f_equal.
    change ((a0 :: a') ++ x :: b) with ((a0 :: a') ++ [x] ++ b).
    rewrite strip_around by assumption.
    change ((a0 :: a') ++ b) with ((a0 :: a') ++ [] ++ b).
    rewrite (strip_around (a0 :: a') [] b) by assumption.
    rewrite !char_stage_app, quote_stage by exact Hx. reflexivity. }
  split; [apply Hone, Hq|].
  intros q' Hq'. rewrite (Hone q Hq), (Hone q' Hq'). reflexivity.
Qed.

Lemma norm_ignores_quotes_witness :
  norm (Some (lit "He" ++ 8217%N :: lit "s Gone")) = norm (Some (lit "He" ++ lit "s Gone")) ∧
  norm (Some (lit "Hes Gone")) = Some (lit "hes gone").
Proof.
  split; [|vm_compute; reflexivity].
  apply (norm_ignores_quotes (lit "He") (lit "s Gone") 8217); reflexivity.
Defined.

End NormQuotes.
